(** * opencode: provider registry, prompt-mode tool calling, Bedrock model
      resolution and the PTY multiplexer

    A shallow embedding of
    - [packages/opencode/src/cli/cmd/mcp.ts] (namespace [Provider]: the Ollama
      loader with [extractJson], [parsePromptToolCall], [doGenerate],
      [doStream]; the [amazon-bedrock] loader; the filter pass of the registry
      construction; [getModel]), and
    - the PTY multiplexer (namespace [Pty]: [create], the output and exit
      handlers, [update], [remove], [resize], [write], [listen], [connect]),
    and, of the same two files, the helpers of the [mcp] command
    ([parseCommandLine], [parseEnvironmentPairs], [extractMcpImportMap],
    [redactForPrint], [upsertMcpsIntoFile]), the base URL and
    [extractModelNames] of the Ollama loader and its discovery of models,
    the [opencode] and [owiseman] loaders, [parseModel], [closest] and
    [getSmallModel].

    JavaScript strings are sequences of UTF-16 code units; [length], [slice],
    [indexOf], [trim] and [split] all count code units, and so does this
    development. *)

From Stdlib Require Import ZArith NArith Lia Ascii String.
From stdpp Require Import base option list gmap strings fin_maps.

Set Default Proof Using "Type".
Set Warnings "-register-all".

(** ** JavaScript strings *)

Module JsString.

#[local] Open Scope N_scope.

(** A string is the list of its UTF-16 code units. *)
Abbreviation jsstring := (list N) (only parsing).

(** Literals: the code units of an ASCII literal. *)
Definition js (s : string) : jsstring :=
  map N_of_ascii (list_ascii_of_string s).

(** Literals that contain double quotes are written with an apostrophe in
    place of each double quote (code unit 39 becomes 34). *)
Definition jq (s : string) : jsstring :=
  map (fun c => if N.eqb c 39 then 34 else c) (js s).

Definition str_eqb (a b : jsstring) : bool := bool_decide (a = b).

(** [s.startsWith(p)] *)
Fixpoint startsWith (s p : jsstring) {struct p} : bool :=
  match p, s with
  | [], _ => true
  | _ :: _, [] => false
  | c :: p', d :: s' => N.eqb c d && startsWith s' p'
  end.

(** [s.endsWith(p)] *)
Definition endsWith (s p : jsstring) : bool :=
  startsWith (rev s) (rev p).

(** [s.includes(p)] *)
Fixpoint includes (s p : jsstring) : bool :=
  startsWith s p ||
  match s with
  | [] => false
  | _ :: s' => includes s' p
  end.

(** [s.split(sep)] for a separator of one code unit; the result is never
    empty. *)
Fixpoint split (sep : N) (s : jsstring) : list jsstring :=
  match s with
  | [] => [[]]
  | c :: r =>
      if N.eqb c sep then [] :: split sep r
      else match split sep r with
           | [] => [[c]]
           | h :: t => (c :: h) :: t
           end
  end.

(** Truthiness of a string: the empty string is falsy. *)
Definition truthy (s : jsstring) : bool :=
  match s with [] => false | _ => true end.

(** [a || b] on strings where [a] may be [undefined]. *)
Definition or_else (a : option jsstring) (b : jsstring) : jsstring :=
  match a with
  | Some s => if truthy s then s else b
  | None => b
  end.

(** [a ?? b] *)
Definition nullish {A} (a : option A) (b : A) : A :=
  match a with Some x => x | None => b end.

(** [s.slice(-n)]: the trailing [n] code units (all of [s] when it is
    shorter). Lengths are kept in [Z], the limits of the multiplexer being
    too large for unary numbers. *)
Definition slice_last (n : Z) (s : jsstring) : jsstring :=
  drop (Z.to_nat (Z.of_nat (length s) - n)) s.

(** [s.slice(i, i + n)] for [0 <= i]. *)
Definition slice_at (i n : nat) (s : jsstring) : jsstring :=
  take n (drop i s).

Definition zlen (s : jsstring) : Z := Z.of_nat (length s).

(** White space and line terminators of ECMAScript, as removed by
    [trim]. *)
Definition is_space (c : N) : bool :=
  existsb (N.eqb c)
    [9; 10; 11; 12; 13; 32; 160; 5760; 8192; 8193; 8194; 8195; 8196; 8197;
     8198; 8199; 8200; 8201; 8202; 8232; 8233; 8239; 8287; 12288; 65279].

Fixpoint trimStart (s : jsstring) : jsstring :=
  match s with
  | c :: r => if is_space c then trimStart r else s
  | [] => []
  end.

Definition trimEnd (s : jsstring) : jsstring := rev (trimStart (rev s)).

(** [s.trim()] *)
Definition trim (s : jsstring) : jsstring := trimEnd (trimStart s).

(** [s.toLowerCase()], on the letters A to Z. *)
Definition toLowerCase (s : jsstring) : jsstring :=
  map (fun c => if (65 <=? c) && (c <=? 90) then c + 32 else c) s.

(** [s.replaceAll(c, r)] (and [s.replace(/c/g, r)]) for a pattern of one
    code unit and a replacement without a dollar sign. *)
Definition replaceAll (c : N) (r : jsstring) (s : jsstring) : jsstring :=
  flat_map (fun x => if N.eqb x c then r else [x]) s.

(** [s.indexOf(c)] and [s.lastIndexOf(c)] for one code unit; [None] is
    [-1]. *)
Fixpoint indexOf (c : N) (s : jsstring) : option nat :=
  match s with
  | [] => None
  | x :: r => if N.eqb x c then Some 0%nat else option_map S (indexOf c r)
  end.

Fixpoint lastIndexOf (c : N) (s : jsstring) : option nat :=
  match s with
  | [] => None
  | x :: r =>
      match lastIndexOf c r with
      | Some i => Some (S i)
      | None => if N.eqb x c then Some 0%nat else None
      end
  end.

(** [s.slice(i, j)] for [0 <= i] and [0 <= j]. *)
Definition slice (i j : nat) (s : jsstring) : jsstring :=
  take (j - i) (drop i s).

End JsString.
Import JsString.

(** ** Amazon Bedrock: cross-region inference prefixes
  ([CUSTOM_LOADERS["amazon-bedrock"]]) *)

Module Bedrock.

(** [defaultRegion = configRegion ?? envRegion ?? "us-east-1"] *)
Definition defaultRegion (configRegion envRegion : option jsstring) : jsstring :=
  nullish configRegion (nullish envRegion (js "us-east-1")).

(** [[...].some((m) => s.includes(m))] *)
Definition some_included (s : jsstring) (l : list string) : bool :=
  existsb (fun m => includes s (js m)) l.

(** [[...].includes(s)] on an array of strings *)
Definition array_includes (l : list string) (s : jsstring) : bool :=
  existsb (fun r => str_eqb (js r) s) l.

(** [region.split("-")[0]] *)
Definition regionPrefixOf (region : jsstring) : jsstring :=
  match split 45 region with
  | h :: _ => h
  | [] => []
  end.

(** The model id that [getModel(sdk, modelID, options)] hands to
    [sdk.languageModel]; [optRegion] is [options?.region]. *)
Definition getModel (optRegion : option jsstring) (defaultRegion : jsstring)
    (modelID : jsstring) : jsstring :=
  if startsWith modelID (js "global.") || startsWith modelID (js "jp.") then modelID
  else
    let region := nullish optRegion defaultRegion in
    let regionPrefix := regionPrefixOf region in
    if str_eqb regionPrefix (js "us") then
      let modelRequiresPrefix :=
        some_included modelID
          ["nova-micro"; "nova-lite"; "nova-pro"; "nova-premier"; "claude"; "deepseek"]%string in
      let isGovCloud := startsWith region (js "us-gov") in
      if modelRequiresPrefix && negb isGovCloud
      then regionPrefix ++ js "." ++ modelID
      else modelID
    else if str_eqb regionPrefix (js "eu") then
      let regionRequiresPrefix :=
        some_included region
          ["eu-west-1"; "eu-west-2"; "eu-west-3"; "eu-north-1"; "eu-central-1";
           "eu-south-1"; "eu-south-2"]%string in
      let modelRequiresPrefix :=
        some_included modelID
          ["claude"; "nova-lite"; "nova-micro"; "llama3"; "pixtral"]%string in
      if regionRequiresPrefix && modelRequiresPrefix
      then regionPrefix ++ js "." ++ modelID
      else modelID
    else if str_eqb regionPrefix (js "ap") then
      let isAustraliaRegion :=
        array_includes ["ap-southeast-2"; "ap-southeast-4"]%string region in
      let isTokyoRegion := str_eqb region (js "ap-northeast-1") in
      if isAustraliaRegion &&
         some_included modelID
           ["anthropic.claude-sonnet-4-5"; "anthropic.claude-haiku"]%string
      then js "au" ++ js "." ++ modelID
      else if isTokyoRegion then
        if some_included modelID ["claude"; "nova-lite"; "nova-micro"; "nova-pro"]%string
        then js "jp" ++ js "." ++ modelID
        else modelID
      else
        if some_included modelID ["claude"; "nova-lite"; "nova-micro"; "nova-pro"]%string
        then js "apac" ++ js "." ++ modelID
        else modelID
    else modelID.

End Bedrock.

(** ** The PTY multiplexer (namespace [Pty]) *)

Module Pty.

Definition BUFFER_LIMIT : Z := 1024 * 1024 * 2.
Definition BUFFER_CHUNK : nat := Z.to_nat (64 * 1024).

(** A [WSContext] is an object owned by the web-socket layer; the
    multiplexer only holds references to it. [sink] is such a reference.
    A [listener] is a reference to a callback, and a [loc] a reference to
    an [ActiveSession] object (sessions outlive their entry in the session
    table: the handlers installed by [create] and [connect] close over
    them). *)
Abbreviation sink := nat (only parsing).
Abbreviation listener := nat (only parsing).
Abbreviation loc := nat (only parsing).

Inductive Status := running | exited.

Record Info := mkInfo {
  id : jsstring;
  title : jsstring;
  command : jsstring;
  args : list jsstring;
  cwd : jsstring;
  status : Status;
  pid : Z
}.

Record ActiveSession := mkSession {
  info : Info;
  buffer : jsstring;
  subscribers : list sink;   (* a [Set], in insertion order *)
  listeners : list listener; (* a [Set], in insertion order *)
  cwdPinned : bool
}.

Record CreateInput := mkCreateInput {
  in_command : option jsstring;
  in_args : option (list jsstring);
  in_cwd : option jsstring;
  in_title : option jsstring
}.

Inductive BusEvent :=
| Created (i : Info)
| Updated (i : Info)
| Exited (i : jsstring) (exitCode : Z)
| Deleted (i : jsstring).

(** Calls made on [session.process]. *)
Inductive ProcCall :=
| PKill
| PWrite (data : jsstring)
| PResize (cols rows : Z).

(** A message handed to [onMessage]: [string | ArrayBuffer]. *)
Inductive Message :=
| MString (s : jsstring)
| MArrayBuffer.

(** What [connect] returns when it attaches: the two handlers, closed over
    the session and the sink. *)
Record Handlers := mkHandlers { h_session : loc; h_sink : sink }.

(** The state of the multiplexer and the trace of what it did to its
    collaborators: every successful [ws.send], every [ws.close], every
    [Bus.publish], every call on a child process and every listener
    invocation, oldest first. *)
Record World := mkWorld {
  sessions : gmap jsstring loc;          (* [state()], a [Map] *)
  heap : list ActiveSession;
  sent : list (loc * sink * jsstring);
  closedSinks : list sink;
  bus : list BusEvent;
  procLog : list (loc * ProcCall);
  heard : list (listener * jsstring)
}.

Definition init : World := mkWorld ∅ [] [] [] [] [] [].

(** *** Record updates *)

Definition set_status (st : Status) (i : Info) : Info :=
  mkInfo (id i) (title i) (command i) (args i) (cwd i) st (pid i).
Definition set_title (t : jsstring) (i : Info) : Info :=
  mkInfo (id i) t (command i) (args i) (cwd i) (status i) (pid i).
Definition set_cwd (d : jsstring) (i : Info) : Info :=
  mkInfo (id i) (title i) (command i) (args i) d (status i) (pid i).

Definition map_info (f : Info -> Info) (s : ActiveSession) : ActiveSession :=
  mkSession (f (info s)) (buffer s) (subscribers s) (listeners s) (cwdPinned s).
Definition set_buffer (b : jsstring) (s : ActiveSession) : ActiveSession :=
  mkSession (info s) b (subscribers s) (listeners s) (cwdPinned s).
Definition set_subscribers (l : list sink) (s : ActiveSession) : ActiveSession :=
  mkSession (info s) (buffer s) l (listeners s) (cwdPinned s).
Definition set_listeners (l : list listener) (s : ActiveSession) : ActiveSession :=
  mkSession (info s) (buffer s) (subscribers s) l (cwdPinned s).
Definition set_cwdPinned (b : bool) (s : ActiveSession) : ActiveSession :=
  mkSession (info s) (buffer s) (subscribers s) (listeners s) b.

Definition upd_session (l : loc) (f : ActiveSession -> ActiveSession) (w : World) : World :=
  mkWorld (sessions w) (alter f l (heap w)) (sent w) (closedSinks w) (bus w)
    (procLog w) (heard w).
Definition set_sessions (m : gmap jsstring loc) (w : World) : World :=
  mkWorld m (heap w) (sent w) (closedSinks w) (bus w) (procLog w) (heard w).
Definition alloc (s : ActiveSession) (w : World) : World :=
  mkWorld (sessions w) (heap w ++ [s]) (sent w) (closedSinks w) (bus w)
    (procLog w) (heard w).
Definition ws_sent (l : loc) (k : sink) (d : jsstring) (w : World) : World :=
  mkWorld (sessions w) (heap w) (sent w ++ [(l, k, d)]) (closedSinks w) (bus w)
    (procLog w) (heard w).
Definition ws_close (k : sink) (w : World) : World :=
  mkWorld (sessions w) (heap w) (sent w) (closedSinks w ++ [k]) (bus w)
    (procLog w) (heard w).
Definition publish (e : BusEvent) (w : World) : World :=
  mkWorld (sessions w) (heap w) (sent w) (closedSinks w) (bus w ++ [e])
    (procLog w) (heard w).
Definition proc (l : loc) (c : ProcCall) (w : World) : World :=
  mkWorld (sessions w) (heap w) (sent w) (closedSinks w) (bus w)
    (procLog w ++ [(l, c)]) (heard w).
(** Every listener in [fs] is called with [d]; what a listener throws is
    caught and dropped. *)
Definition hear_all (fs : list listener) (d : jsstring) (w : World) : World :=
  mkWorld (sessions w) (heap w) (sent w) (closedSinks w) (bus w)
    (procLog w) (heard w ++ map (fun f => (f, d)) fs).
(** The sinks in [ks], in this order, were sent [d] by session [l]. *)
Definition sent_all (l : loc) (ks : list sink) (d : jsstring) (w : World) : World :=
  mkWorld (sessions w) (heap w) (sent w ++ map (fun k => (l, k, d)) ks)
    (closedSinks w) (bus w) (procLog w) (heard w).
Definition close_all (ks : list sink) (w : World) : World :=
  mkWorld (sessions w) (heap w) (sent w) (closedSinks w ++ ks) (bus w)
    (procLog w) (heard w).

(** [Set.prototype.add] and [Set.prototype.delete] *)
Definition set_add (x : nat) (l : list nat) : list nat :=
  if decide (x ∈ l) then l else l ++ [x].
Definition set_delete (x : nat) (l : list nat) : list nat :=
  filter (fun y => y ≠ x) l.

(** The session an id names in the table, with its reference. *)
Definition lookup_session (i : jsstring) (w : World) : option (loc * ActiveSession) :=
  match sessions w !! i with
  | Some l => match heap w !! l with
              | Some s => Some (l, s)
              | None => None
              end
  | None => None
  end.

(** *** [create] *)

(** [id], [pid], the preferred shell and the instance directory come from
    [Identifier.create], [spawn], [Shell.preferred()] and
    [Instance.directory]. *)
Definition create (input : CreateInput) (new_id : jsstring) (new_pid : Z)
    (preferred directory : jsstring) (w : World) : World * Info :=
  let command := or_else (in_command input) preferred in
  let args0 := nullish (in_args input) [] in
  let args := if endsWith command (js "sh") then args0 ++ [js "-l"] else args0 in
  let cwd := or_else (in_cwd input) directory in
  let i := mkInfo new_id
             (or_else (in_title input) (js "Terminal " ++ slice_last 4 new_id))
             command args cwd running new_pid in
  let session := mkSession i [] [] []
                   (match in_cwd input with Some d => truthy d | None => false end) in
  let l := length (heap w) in
  let w1 := set_sessions (<[new_id := l]> (sessions w)) (alloc session w) in
  (publish (Created i) w1, i).

(** *** The output handler, [ptyProcess.onData] *)

(** The loop over [session.subscribers]. [ready ws] is [ws.readyState] at
    the time of the call and [throws ws] tells whether [ws.send] throws.
    The result is the subscriber set, the sinks that were sent the chunk,
    the flag [open] and whether the loop was left by an exception. *)
Fixpoint fanout (ready : sink -> Z) (throws : sink -> bool)
    (todo subs got : list sink) (open : bool)
    : list sink * list sink * bool * bool :=
  match todo with
  | [] => (subs, got, open, false)
  | ws :: rest =>
      if negb (ready ws =? 1)%Z
      then fanout ready throws rest (set_delete ws subs) got open
      else if throws ws then (subs, got, true, true)
      else fanout ready throws rest subs (got ++ [ws]) true
  end.

Definition append_bounded (b data : jsstring) : jsstring :=
  let b' := b ++ data in
  if (zlen b' <=? BUFFER_LIMIT)%Z then b' else slice_last BUFFER_LIMIT b'.

(** The second component tells whether the handler was left by an
    exception (of a [ws.send]). *)
Definition onData (l : loc) (data : jsstring) (ready : sink -> Z)
    (throws : sink -> bool) (w : World) : World * bool :=
  match heap w !! l with
  | None => (w, false)
  | Some s =>
      let w1 := hear_all (listeners s) data w in
      let '(subs, got, open, thrown) :=
        fanout ready throws (subscribers s) (subscribers s) [] false in
      let w2 := sent_all l got data w1 in
      let w3 := upd_session l (set_subscribers subs) w2 in
      if thrown then (w3, true)
      else if open then (w3, false)
      else (upd_session l (fun s' => set_buffer (append_bounded (buffer s') data) s') w3,
            false)
  end.

(** *** The exit handler, [ptyProcess.onExit] *)

Definition onExit (l : loc) (exitCode : Z) (w : World) : World :=
  match heap w !! l with
  | None => w
  | Some s =>
      let w1 := upd_session l (map_info (set_status exited)) w in
      let w2 := publish (Exited (id (info s)) exitCode) w1 in
      set_sessions (delete (id (info s)) (sessions w2)) w2
  end.

(** *** [update], [remove], [resize], [write], [listen] *)

(** [input.size] is given as [(rows, cols)]. *)
Definition update (i : jsstring) (new_title : option jsstring)
    (size : option (Z * Z)) (w : World) : World * option Info :=
  match lookup_session i w with
  | None => (w, None)
  | Some (l, s) =>
      let w1 := match new_title with
                | Some t => if truthy t then upd_session l (map_info (set_title t)) w else w
                | None => w
                end in
      let w2 := match size with
                | Some (rows, cols) => proc l (PResize cols rows) w1
                | None => w1
                end in
      match heap w2 !! l with
      | Some s' => (publish (Updated (info s')) w2, Some (info s'))
      | None => (w2, None)
      end
  end.

Definition remove (i : jsstring) (w : World) : World :=
  match lookup_session i w with
  | None => w
  | Some (l, s) =>
      let w1 := proc l PKill w in
      let w2 := close_all (subscribers s) w1 in
      let w3 := set_sessions (delete i (sessions w2)) w2 in
      publish (Deleted i) w3
  end.

Definition resize (i : jsstring) (cols rows : Z) (w : World) : World :=
  match lookup_session i w with
  | Some (l, s) =>
      match status (info s) with
      | running => proc l (PResize cols rows) w
      | exited => w
      end
  | None => w
  end.

Definition write (i : jsstring) (data : jsstring) (w : World) : World :=
  match lookup_session i w with
  | Some (l, s) =>
      match status (info s) with
      | running => proc l (PWrite data) w
      | exited => w
      end
  | None => w
  end.

(** [listen] returns the session whose listener set the returned closure
    will delete from, or [None] for [undefined]. *)
Definition listen (i : jsstring) (f : listener) (w : World) : World * option loc :=
  match lookup_session i w with
  | Some (l, s) =>
      match status (info s) with
      | running =>
          (upd_session l (fun s' => set_listeners (set_add f (listeners s')) s') w, Some l)
      | exited => (w, None)
      end
  | None => (w, None)
  end.

Definition unlisten (l : loc) (f : listener) (w : World) : World :=
  upd_session l (fun s' => set_listeners (set_delete f (listeners s')) s') w.

(** *** [connect] *)

Inductive ShellKind := posix | cmd | powershell.

Definition detectShellKind (shellPath : jsstring) : ShellKind :=
  let s := toLowerCase shellPath in
  if includes s (js "powershell") || endsWith s (js "pwsh") then powershell
  else if endsWith s (js "cmd.exe") || endsWith s (js "\cmd") || endsWith s (js "/cmd")
  then cmd
  else posix.

(** Code unit 39 is the apostrophe and 34 the double quote. *)
Definition posixQuote (value : jsstring) : jsstring :=
  [39]%N ++ replaceAll 39 [39; 34; 39; 34; 39]%N value ++ [39]%N.

Definition powershellQuote (value : jsstring) : jsstring :=
  [39]%N ++ replaceAll 39 [39; 39]%N value ++ [39]%N.

Definition buildCwdCommand (shell : ShellKind) (cwd : jsstring) : jsstring :=
  match shell with
  | cmd => js "cd /d " ++ [34]%N ++ replaceAll 34 [34; 34]%N cwd ++ [34; 13; 10]%N
  | powershell => js "Set-Location -LiteralPath " ++ powershellQuote cwd ++ [13; 10]%N
  | posix => js "cd -- " ++ posixQuote cwd ++ [13]%N
  end.

(** The slices [buffer.slice(i, i + BUFFER_CHUNK)] for
    [i = 0, BUFFER_CHUNK, ...] while [i < buffer.length]. *)
Fixpoint chunk_slices (fuel i : nat) (buffer : jsstring) : list jsstring :=
  match fuel with
  | O => []
  | S f =>
      if (i <? length buffer)%nat
      then slice_at i BUFFER_CHUNK buffer :: chunk_slices f (i + BUFFER_CHUNK) buffer
      else []
  end.

Definition flush_chunks (buffer : jsstring) : list jsstring :=
  chunk_slices (length buffer) 0 buffer.

(** The sends of the flush; [send_ok n] tells whether the [n]-th
    [ws.send] of this flush returns (rather than throws). The second
    component tells whether a send threw. *)
Fixpoint send_chunks (l : loc) (ws : sink) (send_ok : nat -> bool) (n : nat)
    (cs : list jsstring) (w : World) : World * bool :=
  match cs with
  | [] => (w, false)
  | c :: r =>
      if send_ok n then send_chunks l ws send_ok (S n) r (ws_sent l ws c w)
      else (w, true)
  end.

Definition pin_cwd (l : loc) (s : ActiveSession) (directory : option jsstring)
    (w : World) : World :=
  match directory with
  | Some d =>
      if truthy d && negb (cwdPinned s) then
        let w1 := upd_session l (set_cwdPinned true) w in
        if negb (str_eqb d (cwd (info s))) then
          let w2 := upd_session l (map_info (set_cwd d)) w1 in
          let w3 := publish (Updated (set_cwd d (info s))) w2 in
          proc l (PWrite (buildCwdCommand (detectShellKind (command (info s))) d)) w3
        else w1
      else w
  | None => w
  end.

(** [directory] is [options?.directory]; the result is [None] for
    [undefined]. *)
Definition connect (i : jsstring) (ws : sink) (directory : option jsstring)
    (send_ok : nat -> bool) (w : World) : World * option Handlers :=
  match lookup_session i w with
  | None => (ws_close ws w, None)
  | Some (l, s) =>
      let w1 := upd_session l
                  (fun s' => set_subscribers (set_add ws (subscribers s')) s') w in
      let w2 := pin_cwd l s (option_map trim directory) w1 in
      if truthy (buffer s) then
        let buf := if (zlen (buffer s) <=? BUFFER_LIMIT)%Z then buffer s
                   else slice_last BUFFER_LIMIT (buffer s) in
        let w3 := upd_session l (set_buffer []) w2 in
        let '(w4, thrown) := send_chunks l ws send_ok 0 (flush_chunks buf) w3 in
        if thrown then
          (ws_close ws
             (upd_session l
                (fun s' => set_buffer buf
                             (set_subscribers (set_delete ws (subscribers s')) s'))
                w4),
           None)
        else (w4, Some (mkHandlers l ws))
      else (w2, Some (mkHandlers l ws))
  end.

(** [String(message)] *)
Definition String_of (m : Message) : jsstring :=
  match m with
  | MString s => s
  | MArrayBuffer => js "[object ArrayBuffer]"
  end.

Definition onMessage (h : Handlers) (m : Message) (w : World) : World :=
  proc (h_session h) (PWrite (String_of m)) w.

Definition onClose (h : Handlers) (w : World) : World :=
  upd_session (h_session h)
    (fun s' => set_subscribers (set_delete (h_sink h) (subscribers s')) s') w.

(** *** Runs of the multiplexer *)

(** One call into the multiplexer, by a client or by a collaborator
    (child process, web-socket layer), with what the environment decides
    during the call. *)
Inductive Op :=
| OpCreate (input : CreateInput) (new_id : jsstring) (new_pid : Z)
    (preferred directory : jsstring)
| OpData (l : loc) (data : jsstring) (ready : sink -> Z) (throws : sink -> bool)
| OpExit (l : loc) (exitCode : Z)
| OpUpdate (i : jsstring) (new_title : option jsstring) (size : option (Z * Z))
| OpRemove (i : jsstring)
| OpResize (i : jsstring) (cols rows : Z)
| OpWrite (i : jsstring) (data : jsstring)
| OpListen (i : jsstring) (f : listener)
| OpUnlisten (l : loc) (f : listener)
| OpConnect (i : jsstring) (ws : sink) (directory : option jsstring)
    (send_ok : nat -> bool)
| OpMessage (h : Handlers) (m : Message)
| OpClose (h : Handlers).

Definition exec (o : Op) (w : World) : World :=
  match o with
  | OpCreate input new_id new_pid preferred directory =>
      fst (create input new_id new_pid preferred directory w)
  | OpData l data ready throws => fst (onData l data ready throws w)
  | OpExit l exitCode => onExit l exitCode w
  | OpUpdate i t size => fst (update i t size w)
  | OpRemove i => remove i w
  | OpResize i cols rows => resize i cols rows w
  | OpWrite i data => write i data w
  | OpListen i f => fst (listen i f w)
  | OpUnlisten l f => unlisten l f w
  | OpConnect i ws directory send_ok => fst (connect i ws directory send_ok w)
  | OpMessage h m => onMessage h m w
  | OpClose h => onClose h w
  end.

Definition run (ops : list Op) (w : World) : World :=
  foldl (fun a o => exec o a) w ops.

(** The code units session [l] delivered to sink [k]: the data of the
    successful sends of [l] to [k], in order. *)
Definition delivered_in (l : loc) (k : sink) (es : list (loc * sink * jsstring))
    : jsstring :=
  concat (omap (fun e => match e with
                         | (l', k', d) =>
                             if decide (l' = l ∧ k' = k) then Some d else None
                         end) es).

Definition delivered (l : loc) (k : sink) (w : World) : jsstring :=
  delivered_in l k (sent w).

(** The output of the child of session [l] in a run. *)
Definition child_output (l : loc) (ops : list Op) : jsstring :=
  concat (omap (fun o => match o with
                         | OpData l' d _ _ => if decide (l' = l) then Some d else None
                         | _ => None
                         end) ops).

(** *** Invariants *)

Definition bounded (s : ActiveSession) : Prop :=
  (zlen (buffer s) <= BUFFER_LIMIT)%Z.

(** A session object is well formed when its buffer is within the limit
    and its subscriber list has no duplicates (it is a [Set]). *)
Definition session_ok (s : ActiveSession) : Prop :=
  bounded s ∧ NoDup (subscribers s).

(** Every entry of the session table names a running session of that
    id. *)
Definition table_ok (m : gmap jsstring loc) (h : list ActiveSession) : Prop :=
  ∀ i l, m !! i = Some l ->
    ∃ s, h !! l = Some s ∧ id (info s) = i ∧ status (info s) = running.

Definition wf (w : World) : Prop :=
  Forall session_ok (heap w) ∧ table_ok (sessions w) (heap w).

(** Sink [k] is a subscriber of session [l] and the backlog of [l] is
    empty. *)
Definition attached (l : loc) (k : sink) (w : World) : Prop :=
  ∃ s, heap w !! l = Some s ∧ k ∈ subscribers s ∧ buffer s = [].

(** The output of [l] in one call. *)
Definition output_of (l : loc) (o : Op) : jsstring :=
  match o with
  | OpData l' d _ _ => if decide (l' = l) then d else []
  | _ => []
  end.

(** What [stays_attached] asks of one call. *)
Definition step_ok (l : loc) (k : sink) (o : Op) (w : World) : Prop :=
  match o with
  | OpData l' d ready throws =>
      l' = l -> ready k = 1%Z ∧ (onData l' d ready throws w).2 = false
  | OpClose h => h ≠ mkHandlers l k
  | _ => True
  end.

(** During the run [ops] from [w], sink [k] stays open and attached to
    session [l]: every call of the output handler of [l] finds [k] with
    [readyState] 1 and is not left by an exception, and the close handler
    of [k] on [l] is not called. *)
Fixpoint stays_attached (l : loc) (k : sink) (ops : list Op) (w : World) : Prop :=
  match ops with
  | [] => True
  | o :: rest => step_ok l k o w ∧ stays_attached l k rest (exec o w)
  end.

(** Scenario: the child writes ABC with no subscriber; sink 1 attaches and
    is sent ABC; the child writes DE, which goes to sink 1; sink 2 attaches
    and is sent nothing until the child writes F, which goes to both. *)
Definition all_open : sink -> Z := fun _ => 1%Z.
Definition never : sink -> bool := fun _ => false.
Definition always : nat -> bool := fun _ => true.

Definition late_join : list Op :=
  [ OpCreate (mkCreateInput None None None None) (js "pty_0001") 42 (js "/bin/zsh") (js "/w");
    OpData 0 (js "ABC") all_open never;
    OpConnect (js "pty_0001") 1 None always;
    OpData 0 (js "DE") all_open never;
    OpConnect (js "pty_0001") 2 None always;
    OpData 0 (js "F") all_open never ].

(** Functions on sessions that leave buffer, subscribers, listeners, id
    and status alone. *)
Definition keeps_core (g : ActiveSession -> ActiveSession) : Prop :=
  ∀ x, buffer (g x) = buffer x ∧ subscribers (g x) = subscribers x
       ∧ listeners (g x) = listeners x ∧ id (info (g x)) = id (info x)
       ∧ status (info (g x)) = status (info x).

(** The invariant of the data model: an exited session has no subscribers
    and no listeners. *)
Definition exited_detached (w : World) : Prop :=
  ∀ l s, heap w !! l = Some s -> status (info s) = exited ->
    subscribers s = [] ∧ listeners s = [].

(** Every session of the session table is running. *)
Definition table_running (w : World) : Prop :=
  ∀ i l s, sessions w !! i = Some l -> heap w !! l = Some s ->
    status (info s) = running.

(** Scenario: a session with one subscriber and one listener exits. *)
Definition exit_attached : list Op :=
  [ OpCreate (mkCreateInput None None None None) (js "pty_0001") 42 (js "/bin/zsh") (js "/w");
    OpConnect (js "pty_0001") 1 None always;
    OpListen (js "pty_0001") 7;
    OpExit 0 0 ].

(** Scenario: a session whose child wrote ABC before anybody connected,
    and the session object this leaves. *)
Definition backlog_ABC : list Op :=
  [ OpCreate (mkCreateInput None None None None) (js "pty_0001") 42 (js "/bin/zsh") (js "/w");
    OpData 0 (js "ABC") all_open never ].

Definition session_ABC : ActiveSession :=
  mkSession
    (mkInfo (js "pty_0001") (js "Terminal 0001") (js "/bin/zsh") [js "-l"] (js "/w")
       running 42)
    (js "ABC") [] [] false.

(** [ws.send] throws for the sink [k] and for no other. *)
Definition throws_at (k : sink) : sink -> bool := fun ws => Nat.eqb ws k.

(** Scenario: sinks 1 and 2 attach, in this order, to a session without
    backlog, and both stay open; the child writes X, and the send to
    sink 1 throws; then the child writes Y, and no send throws. *)
Definition lost_chunk : list Op :=
  [ OpCreate (mkCreateInput None None None None) (js "pty_0001") 42 (js "/bin/zsh") (js "/w");
    OpConnect (js "pty_0001") 1 None always;
    OpConnect (js "pty_0001") 2 None always;
    OpData 0 (js "X") all_open (throws_at 1);
    OpData 0 (js "Y") all_open never ].

End Pty.

(** ** JSON values as the code inspects them *)

Module Json.

#[local] Open Scope N_scope.

(** A value produced by [JSON.parse]. An integer in the range where a
    double is exact is kept as the integer; any other number is kept as
    its lexeme, which stands for the double nearest to what it denotes
    ([number_text] below). The fields of an object are in enumeration
    order. *)
Inductive json :=
| JNull
| JBool (b : bool)
| JNum (z : Z)
| JNumLex (lexeme : list N)
| JStr (s : list N)
| JArr (l : list json)
| JObj (fields : list (list N * json)).

(** A JavaScript value here is a JSON value or [undefined] ([None]). *)
Abbreviation value := (option json) (only parsing).

(** Own property [k] of an object. *)
Fixpoint field (k : list N) (fields : list (list N * json)) : value :=
  match fields with
  | [] => None
  | (k', v) :: r => if bool_decide (k' = k) then Some v else field k r
  end.

(** [v?.k] for the property names the code reads ([opencode],
    [tool_calls], [name], [final], ...): none of them is a property of a
    string, number, boolean or array, nor of [Object.prototype]. *)
Definition opt_get (v : value) (k : string) : value :=
  match v with
  | Some (JObj fields) => field (js k) fields
  | _ => None
  end.

(** [a ?? b] *)
Definition coalesce (a b : value) : value :=
  match a with
  | None | Some JNull => b
  | _ => a
  end.

(** [typeof v === "string"] *)
Definition is_string (v : value) : bool :=
  match v with Some (JStr _) => true | _ => false end.

Definition is_digit (c : N) : bool := (48 <=? c) && (c <=? 57).

Fixpoint span_digits (s : list N) : list N * list N :=
  match s with
  | c :: r => if is_digit c then let '(d, r') := span_digits r in (c :: d, r')
              else ([], s)
  | [] => ([], [])
  end.

Definition digits_value (d : list N) : Z :=
  fold_left (fun a c => (a * 10 + Z.of_N (c - 48))%Z) d 0%Z.

Definition digit_of (n : N) : N := 48 + n.

Fixpoint decimal_fuel (fuel : nat) (n : N) (acc : list N) : list N :=
  match fuel with
  | O => acc
  | S f => if n <? 10 then digit_of n :: acc
           else decimal_fuel f (n / 10) (digit_of (n mod 10) :: acc)
  end.

Definition decimal (z : Z) : list N :=
  let n := Z.to_N (Z.abs z) in
  (if (z <? 0)%Z then [45] else []) ++ decimal_fuel (S (N.to_nat (N.log2 n))) n [].

(** *** Numbers

    How [JSON.stringify] prints a number.

    A number is the double nearest to what its lexeme denotes, and it is
    printed with the fewest digits that denote that double
    ([Number::toString]); a number too large for a double is [Infinity],
    which [JSON.stringify] prints as [null]. Doubles are handled here as
    pairs of integers, a mantissa and a binary exponent. *)

(** What a number lexeme denotes: whether it is negative, and [m] and [e]
    of its absolute value [m * 10^e]. *)
Definition lexeme_value (l : list N) : bool * Z * Z :=
  let '(neg, s1) := match l with 45 :: r => (true, r) | _ => (false, l) end in
  let '(int, s2) := span_digits s1 in
  let '(frac, s3) := match s2 with 46 :: r => span_digits r | _ => ([], s2) end in
  let ex := match s3 with
            | _ :: 45 :: r => (- digits_value (fst (span_digits r)))%Z
            | _ :: 43 :: r => digits_value (fst (span_digits r))
            | _ :: r => digits_value (fst (span_digits r))
            | [] => 0%Z
            end in
  (neg, digits_value (int ++ frac), (ex - Z.of_nat (length frac))%Z).

(** [num / den >= base^t], for positive [num] and [den]. *)
Definition ratio_ge_pow (base num den t : Z) : bool :=
  (den * base ^ Z.max t 0 <=? num * base ^ Z.max (- t) 0)%Z.

(** The double nearest to [num / den], for positive [num] and [den],
    ties going to the even mantissa: [Some (mant, e2)] is [mant * 2^e2],
    with [2^52 <= mant < 2^53], or with [e2 = -1074] and [mant < 2^52]
    (a subnormal number, or zero); [None] is [Infinity]. *)
Definition to_double (num den : Z) : option (Z * Z) :=
  let t := (Z.log2 num - Z.log2 den)%Z in
  let lg := if ratio_ge_pow 2 num den t then t else (t - 1)%Z in
  let e2 := Z.max (lg - 52) (-1074) in
  let a := (num * 2 ^ Z.max (- e2) 0)%Z in
  let b := (den * 2 ^ Z.max e2 0)%Z in
  let q := (a / b)%Z in
  let r := (a mod b)%Z in
  let up := ((b <? 2 * r) || ((2 * r =? b) && Z.odd q))%Z in
  let mant := if up then (q + 1)%Z else q in
  let '(mant, e2) := if (mant =? 2 ^ 53)%Z then (2 ^ 52, e2 + 1)%Z else (mant, e2) in
  if (971 <? e2)%Z then None else Some (mant, e2).

Definition digit_count (z : Z) : Z := Z.of_nat (length (decimal z)).

(** The [n] with [10^(n-1) <= a / b < 10^n], for positive [a] and [b]. *)
Definition magnitude10 (a b : Z) : Z :=
  let t := (digit_count a - digit_count b)%Z in
  if ratio_ge_pow 10 a b t then (t + 1)%Z else t.

(** The decimal of [k] digits nearest to [a / b] that denotes the double
    [x], if one does: its digits as an integer [s], for the number
    [s * 10^(n-k)]. *)
Definition nearest_decimal (x : Z * Z) (a b n k : Z) : option Z :=
  let A := (a * 10 ^ Z.max (k - n) 0)%Z in
  let B := (b * 10 ^ Z.max (n - k) 0)%Z in
  let lo := (A / B)%Z in
  let r := (A mod B)%Z in
  let denotes s :=
    match to_double (s * 10 ^ Z.max (n - k) 0) (10 ^ Z.max (k - n) 0) with
    | Some y => bool_decide (y = x)
    | None => false
    end in
  let prefer_lo := ((2 * r <? B) || ((2 * r =? B) && Z.even lo))%Z in
  match denotes lo, denotes (lo + 1)%Z with
  | true, true => Some (if prefer_lo then lo else lo + 1)%Z
  | true, false => Some lo
  | false, true => Some (lo + 1)%Z
  | false, false => None
  end.

(** The fewest digits that denote the double: [s] and [n] of
    [Number::toString], tried for 1, 2, ... digits. *)
Fixpoint shortest_decimal (fuel : nat) (x : Z * Z) (a b n k : Z) : Z * Z :=
  match fuel with
  | O => (0, 0)%Z
  | S f =>
      match nearest_decimal x a b n k with
      | Some s => if (s =? 10 ^ k)%Z then (1, n + 1)%Z else (s, n)
      | None => shortest_decimal f x a b n (k + 1)
      end
  end.

Definition zeros (n : Z) : list N := repeat 48 (Z.to_nat n).

(** The text of [Number::toString] for the digits [digits] of [s] and
    the exponent [n]. *)
Definition number_layout (digits : list N) (n : Z) : list N :=
  let k := Z.of_nat (length digits) in
  if ((k <=? n) && (n <=? 21))%Z then digits ++ zeros (n - k)
  else if ((0 <? n) && (n <=? 21))%Z
  then take (Z.to_nat n) digits ++ [46] ++ drop (Z.to_nat n) digits
  else if ((-6 <? n) && (n <=? 0))%Z then [48; 46] ++ zeros (- n) ++ digits
  else
    let e := (n - 1)%Z in
    let exponent := [101] ++ (if (e <? 0)%Z then [45] else [43]) ++ decimal (Z.abs e) in
    match digits with
    | [d] => [d] ++ exponent
    | d :: rest => [d; 46] ++ rest ++ exponent
    | [] => exponent
    end.

(** [JSON.stringify(x)] for the number [x] that the lexeme denotes, a
    lexeme of the JSON grammar. *)
Definition number_text (lexeme : list N) : list N :=
  let '(neg, m, e) := lexeme_value lexeme in
  if (m =? 0)%Z then [48]
  else
    let magnitude := (e + digit_count m)%Z in
    if (310 <? magnitude)%Z then js "null"
    else if (magnitude <? -330)%Z then [48]
    else
      match to_double (m * 10 ^ Z.max e 0) (10 ^ Z.max (- e) 0) with
      | None => js "null"
      | Some (mant, e2) =>
          if (mant =? 0)%Z then [48]
          else
            let a := (mant * 2 ^ Z.max e2 0)%Z in
            let b := (2 ^ Z.max (- e2) 0)%Z in
            let '(s, n) := shortest_decimal 17 (mant, e2) a b (magnitude10 a b) 1 in
            (if neg then [45] else []) ++ number_layout (decimal s) n
      end.

(** The number that the lexeme denotes is zero (its digits are zeros,
    or it is too small for a double). *)
Definition lexeme_is_zero (lexeme : list N) : bool :=
  bool_decide (number_text lexeme = [48]).

(** Truthiness. *)
Definition truthy_value (v : value) : bool :=
  match v with
  | None | Some JNull => false
  | Some (JBool b) => b
  | Some (JNum z) => negb (z =? 0)%Z
  | Some (JNumLex l) => negb (lexeme_is_zero l)
  | Some (JStr s) => truthy s
  | Some (JArr _) | Some (JObj _) => true
  end.

(** *** A model of [JSON.parse] and [JSON.stringify]

    The functions of the Ollama adapter below take [JSON.parse] and
    [JSON.stringify] as parameters. The model given here is used to run
    them on concrete texts. *)

Definition is_json_ws (c : N) : bool :=
  N.eqb c 32 || N.eqb c 9 || N.eqb c 10 || N.eqb c 13.

Fixpoint skip_ws (s : list N) : list N :=
  match s with
  | c :: r => if is_json_ws c then skip_ws r else s
  | [] => []
  end.

Definition hex_value (c : N) : option N :=
  if (48 <=? c) && (c <=? 57) then Some (c - 48)
  else if (97 <=? c) && (c <=? 102) then Some (c - 87)
  else if (65 <=? c) && (c <=? 70) then Some (c - 55)
  else None.

(** The characters of a string literal after its opening quote, and the
    rest of the input after the closing quote. *)
Fixpoint parse_string (s : list N) : option (list N * list N) :=
  match s with
  | [] => None
  | 34 :: r => Some ([], r)
  | 92 :: e :: r =>
      match e, r with
      | 117, a :: b :: c :: d :: r' =>
          match hex_value a, hex_value b, hex_value c, hex_value d with
          | Some a', Some b', Some c', Some d' =>
              match parse_string r' with
              | Some (t, r'') => Some ((((a' * 16 + b') * 16 + c') * 16 + d') :: t, r'')
              | None => None
              end
          | _, _, _, _ => None
          end
      | _, _ =>
          match (if N.eqb e 34 then Some 34 else if N.eqb e 92 then Some 92
                 else if N.eqb e 47 then Some 47 else if N.eqb e 98 then Some 8
                 else if N.eqb e 102 then Some 12 else if N.eqb e 110 then Some 10
                 else if N.eqb e 114 then Some 13 else if N.eqb e 116 then Some 9
                 else None) with
          | Some c =>
              match parse_string r with
              | Some (t, r') => Some (c :: t, r')
              | None => None
              end
          | None => None
          end
      end
  | c :: r =>
      if c <? 32 then None
      else match parse_string r with
           | Some (t, r') => Some (c :: t, r')
           | None => None
           end
  end.

(** A number literal: sign, integer part without leading zero, optional
    fraction and exponent. *)
Definition parse_number (s : list N) : option (json * list N) :=
  let '(neg, s1) := match s with 45 :: r => (true, r) | _ => (false, s) end in
  let '(int, s2) := span_digits s1 in
  match int with
  | [] => None
  | d0 :: int' =>
      if N.eqb d0 48 && negb (bool_decide (int' = [])) then None
      else
        let frac := match s2 with
                    | 46 :: r =>
                        let '(f, r') := span_digits r in
                        match f with [] => None | _ => Some (Some (46 :: f), r') end
                    | _ => Some (None, s2)
                    end in
        match frac with
        | None => None
        | Some (f, s3) =>
            let ex := match s3 with
                      | e :: r =>
                          if N.eqb e 101 || N.eqb e 69 then
                            let '(sg, r1) := match r with
                                             | 43 :: r' => ([43], r')
                                             | 45 :: r' => ([45], r')
                                             | _ => ([], r)
                                             end in
                            let '(x, r2) := span_digits r1 in
                            match x with
                            | [] => None
                            | _ => Some (Some (e :: sg ++ x), r2)
                            end
                          else Some (None, s3)
                      | [] => Some (None, s3)
                      end in
            match ex with
            | None => None
            | Some (x, s4) =>
                let z := digits_value int in
                match f, x with
                | None, None =>
                    if (z <=? 2 ^ 53)%Z
                    then Some (JNum (if neg then - z else z)%Z, s4)
                    else Some (JNumLex (take (length s - length s4) s), s4)
                | _, _ => Some (JNumLex (take (length s - length s4) s), s4)
                end
            end
        end
  end.

(** A key that is an array index is enumerated before the other keys, in
    ascending order. *)
Definition array_index (k : list N) : option Z :=
  match k with
  | [] => None
  | d0 :: r =>
      if forallb is_digit k && (negb (N.eqb d0 48) || bool_decide (r = []))
         && (digits_value k <? 2 ^ 32 - 1)%Z
      then Some (digits_value k) else None
  end.

Fixpoint insert_index (n : Z) (k : list N) (v : json)
    (fields : list (list N * json)) : list (list N * json) :=
  match fields with
  | [] => [(k, v)]
  | (k', v') :: r =>
      match array_index k' with
      | Some m => if (m <? n)%Z then (k', v') :: insert_index n k v r
                  else (k, v) :: fields
      | None => (k, v) :: fields
      end
  end.

Fixpoint replace_field (k : list N) (v : json) (fields : list (list N * json))
    : list (list N * json) :=
  match fields with
  | [] => []
  | (k', v') :: r =>
      if bool_decide (k' = k) then (k, v) :: r else (k', v') :: replace_field k v r
  end.

(** [obj[k] = v] *)
Definition set_field (k : list N) (v : json) (fields : list (list N * json))
    : list (list N * json) :=
  match field k fields with
  | Some _ => replace_field k v fields
  | None =>
      match array_index k with
      | Some n => insert_index n k v fields
      | None => fields ++ [(k, v)]
      end
  end.

Fixpoint parse_value (fuel : nat) (s : list N) : option (json * list N) :=
  match fuel with
  | O => None
  | S f =>
      match skip_ws s with
      | 123 :: r =>
          match skip_ws r with
          | 125 :: r' => Some (JObj [], r')
          | r' => parse_members f r' []
          end
      | 91 :: r =>
          match skip_ws r with
          | 93 :: r' => Some (JArr [], r')
          | r' => parse_elements f r' []
          end
      | 34 :: r =>
          match parse_string r with
          | Some (t, r') => Some (JStr t, r')
          | None => None
          end
      | 116 :: 114 :: 117 :: 101 :: r => Some (JBool true, r)
      | 102 :: 97 :: 108 :: 115 :: 101 :: r => Some (JBool false, r)
      | 110 :: 117 :: 108 :: 108 :: r => Some (JNull, r)
      | s' => parse_number s'
      end
  end
with parse_elements (fuel : nat) (s : list N) (acc : list json)
    : option (json * list N) :=
  match fuel with
  | O => None
  | S f =>
      match parse_value f s with
      | Some (v, r) =>
          match skip_ws r with
          | 44 :: r' => parse_elements f r' (acc ++ [v])
          | 93 :: r' => Some (JArr (acc ++ [v]), r')
          | _ => None
          end
      | None => None
      end
  end
with parse_members (fuel : nat) (s : list N) (acc : list (list N * json))
    : option (json * list N) :=
  match fuel with
  | O => None
  | S f =>
      match skip_ws s with
      | 34 :: r =>
          match parse_string r with
          | Some (k, r1) =>
              match skip_ws r1 with
              | 58 :: r2 =>
                  match parse_value f r2 with
                  | Some (v, r3) =>
                      match skip_ws r3 with
                      | 44 :: r4 => parse_members f r4 (set_field k v acc)
                      | 125 :: r4 => Some (JObj (set_field k v acc), r4)
                      | _ => None
                      end
                  | None => None
                  end
              | _ => None
              end
          | None => None
          end
      | _ => None
      end
  end.

(** [JSON.parse(text)]; [None] when it throws a [SyntaxError]. *)
Definition parse (text : list N) : option json :=
  match parse_value (2 * length text + 2) text with
  | Some (v, r) => match skip_ws r with [] => Some v | _ => None end
  | None => None
  end.

Definition hex_digit (n : N) : N := if n <? 10 then 48 + n else 87 + n.

Definition escape_unit (c : N) : list N :=
  [92; 117; hex_digit (c / 4096); hex_digit ((c / 256) mod 16);
   hex_digit ((c / 16) mod 16); hex_digit (c mod 16)].

(** The characters of a quoted string: quotes, backslashes and control
    characters are escaped, and so are unpaired surrogates. *)
Fixpoint quote_chars (s : list N) : list N :=
  match s with
  | [] => []
  | c :: r =>
      if N.eqb c 34 then 92 :: 34 :: quote_chars r
      else if N.eqb c 92 then 92 :: 92 :: quote_chars r
      else if N.eqb c 8 then 92 :: 98 :: quote_chars r
      else if N.eqb c 12 then 92 :: 102 :: quote_chars r
      else if N.eqb c 10 then 92 :: 110 :: quote_chars r
      else if N.eqb c 13 then 92 :: 114 :: quote_chars r
      else if N.eqb c 9 then 92 :: 116 :: quote_chars r
      else if c <? 32 then escape_unit c ++ quote_chars r
      else if (55296 <=? c) && (c <=? 56319) then
        match r with
        | d :: r' =>
            if (56320 <=? d) && (d <=? 57343) then c :: d :: quote_chars r'
            else escape_unit c ++ quote_chars r
        | [] => escape_unit c
        end
      else if (56320 <=? c) && (c <=? 57343) then escape_unit c ++ quote_chars r
      else c :: quote_chars r
  end.

Definition quote (s : list N) : list N := [34] ++ quote_chars s ++ [34].

Definition join_with (sep : list N) (l : list (list N)) : list N :=
  match l with
  | [] => []
  | x :: r => x ++ flat_map (fun y => sep ++ y) r
  end.

(** [JSON.stringify(v)] for a value that came from [JSON.parse]. *)
Fixpoint stringify (v : json) : list N :=
  match v with
  | JNull => js "null"
  | JBool true => js "true"
  | JBool false => js "false"
  | JNum z => number_text (decimal z)
  | JNumLex l => number_text l
  | JStr s => quote s
  | JArr l => [91] ++ join_with [44] (map stringify l) ++ [93]
  | JObj fields =>
      [123] ++ join_with [44]
                 (map (fun kv => quote (fst kv) ++ [58] ++ stringify (snd kv)) fields)
      ++ [125]
  end.

End Json.

(** ** The Ollama adapter: prompt-mode tool calling
  ([CUSTOM_LOADERS.ollama], class [OllamaChatModel]) *)

Module Ollama.
Import Json.

Inductive Exn :=
| TypeError
| APICallError (statusCode : Z) (isRetryable : bool).

(** What a call does: it returns a value or throws. *)
Inductive outcome (A : Type) :=
| Ok (a : A)
| Throw (e : Exn).
Arguments Ok {A} a.
Arguments Throw {A} e.

Definition bind {A B} (c : outcome A) (k : A -> outcome B) : outcome B :=
  match c with
  | Ok a => k a
  | Throw e => Throw e
  end.

Notation "x <- c ;; k" := (bind c (fun x => k))
  (at level 100, c at next level, right associativity).

Fixpoint mapM {A B} (f : A -> outcome B) (l : list A) : outcome (list B) :=
  match l with
  | [] => Ok []
  | a :: r => b <- f a ;; bs <- mapM f r ;; Ok (b :: bs)
  end.

(** [v.k]: a [TypeError] when [v] is [undefined] or [null]. *)
Definition get (v : value) (k : string) : outcome value :=
  match v with
  | None | Some JNull => Throw TypeError
  | _ => Ok (opt_get v k)
  end.

(** [a ?? b] where [b] is only evaluated when [a] is nullish. *)
Definition coalesce_lazy (a : value) (b : outcome value) : outcome value :=
  match a with
  | None | Some JNull => b
  | _ => Ok a
  end.

(** [a ?? d] for a default [d] that is a JSON value. *)
Definition coalesce_def (a : value) (d : json) : json :=
  match a with
  | None | Some JNull => d
  | Some j => j
  end.

(** [typeof v === "string" ? v : d] *)
Definition string_or (v : value) (d : list N) : list N :=
  match v with
  | Some (JStr s) => s
  | _ => d
  end.

Inductive FinishReason :=
| stop | tool_calls | length_reason | content_filter | error | unknown.

(** An element of [calls]: [{ name, arguments }]. *)
Record Call := mkCall { name : value; arguments : json }.

(** The result of [parsePromptToolCall]. *)
Inductive PromptResult :=
| Tool (calls : list Call)
| Final (text : list N).

(** A part of [content]. [toolCallId] is the ordinal of the
    [crypto.randomUUID()] call that produced the id. *)
Inductive Content :=
| Text (text : list N)
| ToolCall (toolCallId : nat) (toolName : value) (input : list N).

Inductive StreamPart :=
| StreamStart
| Raw (rawValue : list N)
| ErrorPart
| TextStart (textId : list N)
| TextDelta (textId delta : list N)
| TextEnd (textId : list N)
| ToolCallPart (toolCallId : nat) (toolName : value) (input : list N)
| Finish (finishReason : FinishReason).

Record Generated := mkGenerated {
  content : list Content;
  finishReason : FinishReason
}.

(** The variables of [start(controller)] in [doStream]; [parts] is what
    was enqueued, oldest first. *)
Record StreamState := mkStreamState {
  parts : list StreamPart;
  fullText : list N;
  currentTextId : option (list N);
  reason : FinishReason;
  isDone : bool
}.

Definition enqueue (p : StreamPart) (st : StreamState) : StreamState :=
  mkStreamState (parts st ++ [p]) (fullText st) (currentTextId st) (reason st)
    (isDone st).
Definition set_reason (r : FinishReason) (st : StreamState) : StreamState :=
  mkStreamState (parts st) (fullText st) (currentTextId st) r (isDone st).
Definition set_fullText (t : list N) (st : StreamState) : StreamState :=
  mkStreamState (parts st) t (currentTextId st) (reason st) (isDone st).
Definition set_currentTextId (i : option (list N)) (st : StreamState) : StreamState :=
  mkStreamState (parts st) (fullText st) i (reason st) (isDone st).
Definition set_isDone (b : bool) (st : StreamState) : StreamState :=
  mkStreamState (parts st) (fullText st) (currentTextId st) (reason st) b.

(** [cfg.promptToolCall && tools && (Array.isArray(tools) ? tools.length > 0 : true)];
    [tools] is [None] for a falsy value, [Some (Some n)] for an array of
    length [n] and [Some None] for another object. *)
Definition shouldPromptToolCall (promptToolCall : bool)
    (tools : option (option nat)) : bool :=
  promptToolCall &&
  match tools with
  | None => false
  | Some (Some n) => negb (Nat.eqb n 0)
  | Some None => true
  end.

Section Adapter.

(** [JSON.parse] ([None] when it throws) and [JSON.stringify]. *)
Variable JSON_parse : list N -> option json.
Variable JSON_stringify : json -> list N.

Definition extractJson (text : list N) : value :=
  let trimmed := trim text in
  if negb (truthy trimmed) then None
  else
    match indexOf 123 trimmed, lastIndexOf 125 trimmed with
    | Some start, Some end_ =>
        if (end_ <=? start)%nat then None
        else JSON_parse (slice start (end_ + 1) trimmed)
    | _, _ => None
    end.

(** [typeof v?.k === "string" ? v.k : undefined] *)
Definition string_prop (v : value) (k : string) : outcome value :=
  if is_string (opt_get v k) then get v k else Ok None.

(** The function mapped over [toolCalls]; [None] is [undefined]. *)
Definition call_entry (call : json) : outcome (option Call) :=
  name <- (if is_string (opt_get (Some call) "name") then get (Some call) "name"
           else if is_string (opt_get (Some call) "tool") then get (Some call) "tool"
           else Ok None) ;;
  let args :=
    coalesce_def
      (coalesce (opt_get (Some call) "arguments")
         (coalesce (opt_get (Some call) "args") (opt_get (Some call) "input")))
      (JObj []) in
  if negb (truthy_value name) then Ok None
  else Ok (Some (mkCall name args)).

Definition parsePromptToolCall (text : list N) : outcome PromptResult :=
  let json := extractJson text in
  let root := coalesce (opt_get json "opencode") json in
  let toolCalls :=
    coalesce (opt_get root "tool_calls")
      (coalesce (opt_get root "toolCalls") (opt_get root "toolcalls")) in
  found <- match toolCalls with
           | Some (JArr (c :: cs)) =>
               mapped <- mapM call_entry (c :: cs) ;;
               match omap (fun x => x) mapped with
               | [] => Ok None
               | calls => Ok (Some calls)
               end
           | _ => Ok None
           end ;;
  match found with
  | Some calls => Ok (Tool calls)
  | None =>
      finalText <-
        (a <- string_prop root "final" ;;
         coalesce_lazy a
           (b <- string_prop root "content" ;;
            coalesce_lazy b (string_prop root "text"))) ;;
      match finalText with
      | Some (JStr t) => Ok (Final t)
      | _ => Ok (Final text)
      end
  end.

(** [(v?.message && typeof v.message.content === "string"
      ? v.message.content : undefined)]; the accesses without [?.] are
    on values just tested truthy. *)
Definition message_content (v : value) : value :=
  if truthy_value (opt_get v "message")
     && is_string (opt_get (opt_get v "message") "content")
  then opt_get (opt_get v "message") "content"
  else None.

(** [text] in [doGenerate]: [message.content] if it is a string, else
    [response] if it is a string, else the empty string. *)
Definition response_text (parsed : value) : list N :=
  match coalesce (message_content parsed)
          (Some (JStr (string_or (opt_get parsed "response") []))) with
  | Some (JStr s) => s
  | _ => []
  end.

(** The tool-call parts of [calls], each with a new UUID. *)
Definition tool_call_content (calls : list Call) (n : nat) : list Content :=
  imap (fun i c =>
          ToolCall (n + i) (name c)
            (JSON_stringify (coalesce_def (Some (arguments c)) (JObj []))))
    calls.

(** [doGenerate], from the response of the backend to [content] and
    [finishReason]; [n] counts the UUIDs drawn so far. *)
Definition doGenerate (ok : bool) (status : Z) (rawText : list N)
    (prompt_mode : bool) (n : nat) : outcome (Generated * nat) :=
  if negb ok then Throw (APICallError status (500 <=? status)%Z)
  else
    let parsed := JSON_parse rawText in
    let text := response_text parsed in
    if prompt_mode then
      r <- parsePromptToolCall text ;;
      match r with
      | Tool calls =>
          Ok (mkGenerated (tool_call_content calls n) tool_calls, (n + length calls)%nat)
      | Final t => Ok (mkGenerated [Text t] stop, n)
      end
    else Ok (mkGenerated [Text text] stop, n).

(** One line of the response in [doStream]. *)
Definition line_step (includeRawChunks prompt_mode : bool) (line : list N)
    (st : StreamState) : StreamState :=
  let trimmed := trim line in
  if negb (truthy trimmed) then st
  else
    let st1 := if includeRawChunks then enqueue (Raw trimmed) st else st in
    match JSON_parse trimmed with
    | None => enqueue ErrorPart (set_reason error st1)
    | Some chunk =>
        let delta :=
          coalesce (message_content (Some chunk))
            (if is_string (opt_get (Some chunk) "response")
             then opt_get (Some chunk) "response" else None) in
        let st2 :=
          if truthy_value delta then
            if prompt_mode
            then set_fullText (fullText st1 ++ string_or delta []) st1
            else
              let st' :=
                match currentTextId st1 with
                | Some _ => st1
                | None =>
                    enqueue (TextStart (js "ollama-text"))
                      (set_currentTextId (Some (js "ollama-text")) st1)
                end in
              enqueue (TextDelta (nullish (currentTextId st') []) (string_or delta [])) st'
          else st1 in
        match opt_get (Some chunk) "done" with
        | Some (JBool true) => set_isDone true st2
        | _ => st2
        end
    end.

(** [for (const line of lines)], left when [isDone] is set. *)
Fixpoint lines_loop (includeRawChunks prompt_mode : bool) (lines : list (list N))
    (st : StreamState) : StreamState :=
  match lines with
  | [] => st
  | line :: rest =>
      let st' := line_step includeRawChunks prompt_mode line st in
      if isDone st' then st' else lines_loop includeRawChunks prompt_mode rest st'
  end.

(** [while (true)] over the reads of the body; [chunks] are the decoded
    texts of the reads, [buffer] the unfinished line. *)
Fixpoint read_loop (includeRawChunks prompt_mode : bool) (chunks : list (list N))
    (buffer : list N) (st : StreamState) : StreamState :=
  match chunks with
  | [] => st
  | v :: rest =>
      let lines := split 10 (buffer ++ v) in
      let st' := lines_loop includeRawChunks prompt_mode (removelast lines) st in
      if isDone st' then st'
      else read_loop includeRawChunks prompt_mode rest (List.last lines []) st'
  end.

Definition tool_call_parts (calls : list Call) (n : nat) : list StreamPart :=
  imap (fun i c =>
          ToolCallPart (n + i) (name c)
            (JSON_stringify (coalesce_def (Some (arguments c)) (JObj []))))
    calls.

(** The state after [controller.enqueue({ type: "stream-start" })]. *)
Definition stream_started : StreamState :=
  mkStreamState [StreamStart] [] None unknown false.

(** [doStream]: the parts enqueued by [start(controller)]. [body] is
    [None] when the response has no body. *)
Definition doStream (ok : bool) (status : Z) (body : option (list (list N)))
    (includeRawChunks prompt_mode : bool) (n : nat)
    : outcome (list StreamPart * nat) :=
  if negb ok then Throw (APICallError status (500 <=? status)%Z)
  else
    match body with
    | None => Ok (parts (enqueue (Finish error) (set_reason error stream_started)), n)
    | Some chunks =>
        let st := read_loop includeRawChunks prompt_mode chunks [] stream_started in
        if prompt_mode then
          r <- parsePromptToolCall (fullText st) ;;
          match r with
          | Tool calls =>
              Ok (parts st ++ tool_call_parts calls n ++ [Finish tool_calls],
                  (n + length calls)%nat)
          | Final t =>
              Ok (parts st
                    ++ [TextStart (js "ollama-text"); TextDelta (js "ollama-text") t;
                        TextEnd (js "ollama-text")]
                    ++ [Finish stop], n)
          end
        else
          match currentTextId st with
          | Some i => Ok (parts st ++ [TextEnd i] ++ [Finish stop], n)
          | None => Ok (parts st ++ [Finish stop], n)
          end
    end.

(** *** The behaviour in the words of the specification *)

(** The object that carries the answer: [opencode] when present, else
    the parsed object itself. *)
Definition root_of (json : value) : value :=
  coalesce (opt_get json "opencode") json.

(** [tool_calls], or its spellings [toolCalls] and [toolcalls]. *)
Definition tool_calls_of (root : value) : value :=
  coalesce (opt_get root "tool_calls")
    (coalesce (opt_get root "toolCalls") (opt_get root "toolcalls")).

(** The name of an entry: [name] when it is a string, else [tool] when
    that is a string. *)
Definition entry_name (call : json) : value :=
  if is_string (opt_get (Some call) "name") then opt_get (Some call) "name"
  else if is_string (opt_get (Some call) "tool") then opt_get (Some call) "tool"
  else None.

(** The arguments of an entry: [arguments], [args] or [input], else the
    empty object. *)
Definition entry_arguments (call : json) : json :=
  coalesce_def
    (coalesce (opt_get (Some call) "arguments")
       (coalesce (opt_get (Some call) "args") (opt_get (Some call) "input")))
    (JObj []).

(** The named entries of a list of tool calls, in order. *)
Definition named_calls (toolCalls : value) : list Call :=
  match toolCalls with
  | Some (JArr entries) =>
      omap (fun e => if truthy_value (entry_name e)
                     then Some (mkCall (entry_name e) (entry_arguments e))
                     else None) entries
  | _ => []
  end.

(** [v] when it is a string. *)
Definition as_string (v : value) : option (list N) :=
  match v with
  | Some (JStr s) => Some s
  | _ => None
  end.

(** The final text: the first of [final], [content] and [text] that
    is a string. *)
Definition final_text (root : value) : option (list N) :=
  match as_string (opt_get root "final") with
  | Some t => Some t
  | None =>
      match as_string (opt_get root "content") with
      | Some t => Some t
      | None => as_string (opt_get root "text")
      end
  end.

(** What the parser answers, in these words: the named tool calls if
    there is one, else the final text, else the raw text. *)
Definition prompt_answer (text : list N) : PromptResult :=
  let root := root_of (extractJson text) in
  match named_calls (tool_calls_of root) with
  | [] => Final (nullish (final_text root) text)
  | calls => Tool calls
  end.

(** The object carries none of the fields the parser looks at. *)
Definition carries_nothing (root : value) : Prop :=
  opt_get root "tool_calls" = None ∧ opt_get root "toolCalls" = None
  ∧ opt_get root "toolcalls" = None ∧ opt_get root "final" = None
  ∧ opt_get root "content" = None ∧ opt_get root "text" = None.

(** The text up to the brace that closes [depth] open braces. *)
Fixpoint balanced_prefix (depth : nat) (s : list N) : option (list N) :=
  match s with
  | [] => None
  | c :: r =>
      if N.eqb c 123 then option_map (cons c) (balanced_prefix (S depth) r)
      else if N.eqb c 125 then
        match depth with
        | O => Some [c]
        | S d => option_map (cons c) (balanced_prefix d r)
        end
      else option_map (cons c) (balanced_prefix depth r)
  end.

(** The first balanced [{...}] substring of [s]. *)
Definition first_balanced (s : list N) : option (list N) :=
  match indexOf 123 s with
  | Some i => option_map (cons 123%N) (balanced_prefix 0 (drop (S i) s))
  | None => None
  end.

(** The extraction as the specification words it: parse the first
    balanced [{...}] substring. *)
Definition spec_extractJson (text : list N) : value :=
  match first_balanced (trim text) with
  | Some b => JSON_parse b
  | None => None
  end.

(** A part that may be enqueued while the response is read in prompt
    mode. *)
Definition quiet_part (p : StreamPart) : Prop :=
  match p with
  | Raw _ | ErrorPart => True
  | _ => False
  end.

End Adapter.

(** Two top-level objects in one answer, and a response of the backend
    that carries them. *)
Definition two_objects : list N :=
  jq "{'opencode':{'final':'a'}} {'opencode':{'final':'b'}}".

Definition two_objects_response : list N :=
  jq "{'message':{'content':'{\'opencode\':{\'final\':\'a\'}} {\'opencode\':{\'final\':\'b\'}}'},'done':true}".

(** An answer with tool calls beside an [opencode] object that has
    none, and a response of the backend that carries it. *)
Definition shadowed_calls : list N :=
  jq "{'opencode':{'x':1},'tool_calls':[{'name':'t','arguments':{}}]}".

Definition shadowed_calls_response : list N :=
  jq "{'message':{'content':'{\'opencode\':{\'x\':1},\'tool_calls\':[{\'name\':\'t\',\'arguments\':{}}]}'},'done':true}".

End Ollama.

(** ** Plain objects used as maps *)

Module JsObject.

(** The names of the properties that a plain object inherits from
    [Object.prototype]. *)
Definition prototype_names : list string :=
  [ "constructor"; "__proto__"; "hasOwnProperty"; "isPrototypeOf";
    "propertyIsEnumerable"; "toLocaleString"; "toString"; "valueOf";
    "__defineGetter__"; "__defineSetter__"; "__lookupGetter__";
    "__lookupSetter__" ]%string.

(** [o[k]] is an inherited value for an object [o] that has no own
    property [k]: a function or, for [__proto__], [Object.prototype]
    itself. Each of them is truthy, and none has a property [models]. *)
Definition inherited (k : list N) : bool :=
  existsb (fun n => str_eqb (js n) k) prototype_names.

End JsObject.

(** ** The provider registry: the filter pass of its construction and
  [getModel] (namespace [Provider])

  Of a model and a provider the records below keep the fields that the
  filter pass and [getModel] read or write; the pruning of the variants
  of a model, which leaves the set of models alone, is not modelled. The
  registry and the models of a provider are plain objects used as maps
  from ids: a finite map holds their own properties, and a lookup by an
  id that is not an own key finds what [Object.prototype] defines (module
  [JsObject]). *)

Module Registry.

Inductive Status := alpha | beta | active | deprecated.

#[global] Instance Status_eq_dec : EqDecision Status.
Proof. solve_decision. Defined.

Record Api := mkApi {
  api_id : option (list N);
  api_npm : list N
}.

Record Model := mkModel {
  model_id : option (list N);
  model_providerID : list N;
  api : Api;
  status : Status
}.

Inductive Source := env | config | custom | api_source.

Record Info := mkInfo {
  info_id : list N;
  info_name : list N;
  source : Source;
  models : gmap (list N) Model
}.

(** What the filter pass reads of [config.provider[providerID]]. *)
Record ProviderConfig := mkProviderConfig {
  blacklist : option (list (list N));
  whitelist : option (list (list N))
}.

Record Config := mkConfig {
  disabled_providers : option (list (list N));
  enabled_providers : option (list (list N));
  config_provider : gmap (list N) ProviderConfig  (* [config.provider] *)
}.

(** [arr.includes(x)] *)
Definition array_includes (arr : list (list N)) (x : list N) : bool :=
  bool_decide (x ∈ arr).

(** [isProviderAllowed]: [enabled] is [null] without
    [config.enabled_providers], [disabled] is empty without
    [config.disabled_providers]. *)
Definition isProviderAllowed (cfg : Config) (providerID : list N) : bool :=
  match enabled_providers cfg with
  | Some enabled => if negb (array_includes enabled providerID) then false
                    else negb (array_includes (nullish (disabled_providers cfg) []) providerID)
  | None => negb (array_includes (nullish (disabled_providers cfg) []) providerID)
  end.

Definition set_api_id (i : option (list N)) (m : Model) : Model :=
  mkModel (model_id m) (model_providerID m) (mkApi i (api_npm (api m))) (status m).
Definition set_api_npm (npm : list N) (m : Model) : Model :=
  mkModel (model_id m) (model_providerID m) (mkApi (api_id (api m)) npm) (status m).
Definition set_models (ms : gmap (list N) Model) (p : Info) : Info :=
  mkInfo (info_id p) (info_name p) (source p) ms.

(** The condition on the black and white lists of the configuration: an
    array is truthy also when it is empty. *)
Definition listed_out (configProvider : option ProviderConfig) (modelID : list N) : bool :=
  match configProvider with
  | None => false
  | Some c =>
      match blacklist c with
      | Some b => array_includes b modelID
      | None => false
      end
      || match whitelist c with
         | Some wl => negb (array_includes wl modelID)
         | None => false
         end
  end.

(** The body of the loop over [Object.entries(provider.models)]: [ms] is
    [provider.models] and [model] the object of the entry. *)
Definition model_step (flag : bool) (providerID : list N)
    (configProvider : option ProviderConfig)
    (ms : gmap (list N) Model) (entry : list N * Model) : gmap (list N) Model :=
  let '(modelID, model) := entry in
  let new_api_id :=
    Some (nullish (api_id (api model)) (nullish (model_id model) modelID)) in
  let ms0 := alter (set_api_id new_api_id) modelID ms in
  let ms1 :=
    if bool_decide (modelID = js "gpt-5-chat-latest")
       || (bool_decide (providerID = js "openrouter")
           && bool_decide (modelID = js "openai/gpt-5-chat"))
    then delete modelID ms0 else ms0 in
  let ms2 :=
    if bool_decide (status model = alpha) && negb flag
    then delete modelID ms1 else ms1 in
  let ms3 :=
    if bool_decide (status model = deprecated) then delete modelID ms2 else ms2 in
  if listed_out configProvider modelID then delete modelID ms3 else ms3.

Definition filter_models (flag : bool) (providerID : list N)
    (configProvider : option ProviderConfig) (ms : gmap (list N) Model)
    : gmap (list N) Model :=
  foldl (model_step flag providerID configProvider) ms (map_to_list ms).

(** The body of the loop over [Object.entries(providers)]; [flag] is
    [Flag.OPENCODE_ENABLE_EXPERIMENTAL_MODELS]. *)
Definition provider_step (cfg : Config) (flag : bool)
    (providers : gmap (list N) Info) (entry : list N * Info) : gmap (list N) Info :=
  let '(providerID, provider) := entry in
  if negb (isProviderAllowed cfg providerID) then delete providerID providers
  else
    let models1 :=
      if bool_decide (providerID = js "github-copilot")
         || bool_decide (providerID = js "github-copilot-enterprise")
      then set_api_npm (js "@ai-sdk/github-copilot") <$> models provider
      else models provider in
    let models2 := filter_models flag providerID (config_provider cfg !! providerID) models1 in
    if bool_decide (models2 = ∅) then delete providerID providers
    else <[providerID := set_models models2 provider]> providers.

(** The filter pass that ends the construction of the registry. *)
Definition filter_pass (cfg : Config) (flag : bool)
    (providers : gmap (list N) Info) : gmap (list N) Info :=
  foldl (provider_step cfg flag) providers (map_to_list providers).

(** *** [getModel] *)

(** What [getModel] does: it returns the model, or returns
    [Object.prototype[name]] (which is not a model), or throws
    [ModelNotFoundError] or a [TypeError]. *)
Inductive Lookup :=
| Returned (m : Model)
| ReturnedInherited (name : list N)
| ModelNotFoundError (providerID modelID : list N) (suggestions : list (list N))
| TypeError.

Section Fuzzy.

(** The score [fuzzysort] gives a target for a query; [None] when the
    target does not match. *)
Variable score : list N -> list N -> option Z.

(** [Object.keys] of the registry and of the models of a provider: the
    own keys, in the order in which the object enumerates them. *)
Variable provider_keys : gmap (list N) Info -> list (list N).
Variable model_keys : gmap (list N) Model -> list (list N).

(** The target matches the query with a score above the threshold. *)
Definition scores_above (threshold : Z) (query target : list N) : bool :=
  match score query target with
  | Some z => (threshold <? z)%Z
  | None => false
  end.

Definition score_of (query target : list N) : Z :=
  match score query target with Some z => z | None => 0%Z end.

(** Insertion into a list sorted by decreasing score. *)
Fixpoint insert_by_score (query t : list N) (l : list (list N)) : list (list N) :=
  match l with
  | [] => [t]
  | x :: r =>
      if (score_of query x <? score_of query t)%Z then t :: l
      else x :: insert_by_score query t r
  end.

(** Modelled from the spec: [fuzzysort.go(query, targets, { limit,
    threshold })] is a function of the fuzzysort library, which is not
    part of the repository. It answers the targets that match the query
    with a score above the threshold, best score first, and at most
    [limit] of them; the targets of the results are kept. *)
Definition fuzzysort_go (query : list N) (targets : list (list N))
    (limit : nat) (threshold : Z) : list (list N) :=
  take limit
    (foldr (insert_by_score query) []
       (List.filter (scores_above threshold query) targets)).

(** [getModel(providerID, modelID)] on the registry [s.providers]: the
    registry afterwards and what the call did. The registry and the
    models of a provider are plain objects: for an id that is not an
    own key but a name that [Object.prototype] defines,
    [s.providers[providerID]] and [provider.models[modelID]] are the
    inherited value, which is truthy; [provider.models] is then
    [undefined] and reading [modelID] of it throws a [TypeError]. *)
Definition getModel (providers : gmap (list N) Info) (providerID modelID : list N)
    : gmap (list N) Info * Lookup :=
  match providers !! providerID with
  | None =>
      if JsObject.inherited providerID then (providers, TypeError)
      else
        let availableProviders := provider_keys providers in
        let suggestions := fuzzysort_go providerID availableProviders 3 (-10000) in
        (providers, ModelNotFoundError providerID modelID suggestions)
  | Some provider =>
      match models provider !! modelID with
      | None =>
          if JsObject.inherited modelID then (providers, ReturnedInherited modelID)
          else
            let availableModels := model_keys (models provider) in
            let suggestions := fuzzysort_go modelID availableModels 3 (-10000) in
            (providers, ModelNotFoundError providerID modelID suggestions)
      | Some info => (providers, Returned info)
      end
  end.


End Fuzzy.

(** *** The properties of the registry, in the words of the
    specification *)

(** A model that the filter pass keeps. *)
Definition kept (cfg : Config) (flag : bool) (providerID modelID : list N)
    (m : Model) : Prop :=
  status m ≠ deprecated
  ∧ (status m = alpha -> flag = true)
  ∧ (∀ c b, config_provider cfg !! providerID = Some c -> blacklist c = Some b -> modelID ∉ b)
  ∧ (∀ c wl, config_provider cfg !! providerID = Some c -> whitelist c = Some wl -> modelID ∈ wl).

(** An enumeration of the own keys of an object, for the examples.
    [Object.keys] enumerates them in the order of insertion, keys that
    are array indices first, which a finite map does not record; the
    functions above take the enumeration as a parameter. *)
Definition own_keys {V} (o : gmap (list N) V) : list (list N) :=
  (map_to_list o).*1.




(** A small registry and configuration: provider [acme] with an active
    model, a deprecated one, an alpha one and a blacklisted one; provider
    [old] with only a deprecated model. *)
Definition demo_model (p : string) (i : string) (st : Status) : Model :=
  mkModel (Some (js i)) (js p) (mkApi None (js "@ai-sdk/openai-compatible")) st.

Definition demo_registry : gmap (list N) Info :=
  {[ js "acme" :=
       mkInfo (js "acme") (js "Acme") env
         {[ js "fast" := demo_model "acme" "fast" active;
            js "legacy" := demo_model "acme" "legacy" deprecated;
            js "next" := demo_model "acme" "next" alpha;
            js "banned" := demo_model "acme" "banned" beta ]};
     js "old" :=
       mkInfo (js "old") (js "Old") config
         {[ js "v1" := demo_model "old" "v1" deprecated ]} ]}.

Definition demo_config : Config :=
  mkConfig None None
    {[ js "acme" := mkProviderConfig (Some [js "banned"]) None ]}.

(** A scoring function for the examples: a target matches when it starts
    with the query, and shorter targets score higher. *)
Definition demo_score (query target : list N) : option Z :=
  if startsWith target query then Some (- Z.of_nat (length target))%Z else None.

(** What the loop over the models makes of one model: [None] when it is
    deleted. *)
Definition model_fate (flag : bool) (providerID : list N)
    (configProvider : option ProviderConfig) (modelID : list N) (model : Model)
    : option Model :=
  if (bool_decide (modelID = js "gpt-5-chat-latest")
      || (bool_decide (providerID = js "openrouter")
          && bool_decide (modelID = js "openai/gpt-5-chat")))
     || (bool_decide (status model = alpha) && negb flag)
     || bool_decide (status model = deprecated)
     || listed_out configProvider modelID
  then None
  else Some (set_api_id
               (Some (nullish (api_id (api model)) (nullish (model_id model) modelID)))
               model).

(** What the loop over the providers makes of one provider. *)
Definition provider_fate (cfg : Config) (flag : bool) (providerID : list N)
    (p : Info) : option Info :=
  if negb (isProviderAllowed cfg providerID) then None
  else
    let models1 :=
      if bool_decide (providerID = js "github-copilot")
         || bool_decide (providerID = js "github-copilot-enterprise")
      then set_api_npm (js "@ai-sdk/github-copilot") <$> models p
      else models p in
    let models2 :=
      filter_models flag providerID (config_provider cfg !! providerID) models1 in
    if bool_decide (models2 = ∅) then None else Some (set_models models2 p).

End Registry.

(** ** The [mcp] command: command lines, environment pairs and the
  configuration file ([parseCommandLine], [parseEnvironmentPairs],
  [extractMcpImportMap], [redactForPrint], [upsertMcpsIntoFile]) *)

Module McpCli.
Import Json.

(** *** [parseCommandLine] *)

(** The variables of the loop: the words pushed so far, the word being
    read, the quote that is open and whether the last code unit was a
    backslash. *)
Record Lexer := mkLexer {
  out : list (list N);
  cur : list N;
  quote : option N;
  escaped : bool
}.

(** [push()] *)
Definition push (st : Lexer) : Lexer :=
  if truthy (cur st) then mkLexer (out st ++ [cur st]) [] (quote st) (escaped st)
  else st.

(** The body of the loop for the code unit [ch]. Code unit 92 is the
    backslash, 39 the apostrophe and 34 the double quote; [/\s/] matches
    the code units that [trim] removes. *)
Definition lex_step (st : Lexer) (ch : N) : Lexer :=
  if escaped st then mkLexer (out st) (cur st ++ [ch]) (quote st) false
  else if N.eqb ch 92 then mkLexer (out st) (cur st) (quote st) true
  else
    match quote st with
    | Some q =>
        if N.eqb ch q then mkLexer (out st) (cur st) None (escaped st)
        else mkLexer (out st) (cur st ++ [ch]) (quote st) (escaped st)
    | None =>
        if N.eqb ch 39 || N.eqb ch 34
        then mkLexer (out st) (cur st) (Some ch) (escaped st)
        else if is_space ch then push st
        else mkLexer (out st) (cur st ++ [ch]) (quote st) (escaped st)
    end.

Definition parseCommandLine (input : list N) : list (list N) :=
  out (push (foldl lex_step (mkLexer [] [] None false) input)).

(** A code unit that stands for itself outside quotes. *)
Definition plain_unit (c : N) : bool :=
  negb (is_space c) && negb (N.eqb c 39) && negb (N.eqb c 34) && negb (N.eqb c 92).

(** [a] writes the word [w] on a command line: as it is, when [w] has
    only plain code units, or between two quotes [q] that [w] does not
    contain, when [w] has no backslash. *)
Definition writes (a w : list N) : Prop :=
  w ≠ [] ∧
  ((a = w ∧ forallb plain_unit w = true)
   ∨ ∃ q, (q = 39%N ∨ q = 34%N) ∧ a = [q] ++ w ++ [q]
          ∧ forallb (fun c => negb (N.eqb c q) && negb (N.eqb c 92)) w = true).

(** *** Objects *)

(** [o] has an own property [k]. *)
Definition has_own (k : list N) (o : list (list N * json)) : bool :=
  bool_decide (is_Some (field k o)).

(** The assignment [o[k] = v] reaches the setter of [Object.prototype]:
    [k] is [__proto__], and neither [o] nor its prototype, when that is
    a plain object ([None] is for [Object.prototype]), has an own
    property of that name. *)
Definition reaches_setter (proto : option (list (list N * json))) (k : list N)
    (o : list (list N * json)) : bool :=
  str_eqb k (js "__proto__") && negb (has_own k o)
  && match proto with
     | Some p => negb (has_own k p)
     | None => true
     end.

(** The own properties of [o] after [o[k] = v], for an object [o] whose
    prototype is [proto]: the property is written, but by an assignment
    that reaches the setter, which adds no own property. *)
Definition assign_under (proto : option (list (list N * json))) (k : list N)
    (v : json) (o : list (list N * json)) : list (list N * json) :=
  if reaches_setter proto k o then o else set_field k v o.

(** [o[k] = v] for an object that inherits from [Object.prototype]. *)
Definition assign (k : list N) (v : json) (o : list (list N * json))
    : list (list N * json) :=
  assign_under None k v o.

(** The names of the properties of [Object.prototype]. *)
Definition prototype_names : list string :=
  [ "constructor"; "__proto__"; "hasOwnProperty"; "isPrototypeOf";
    "propertyIsEnumerable"; "toLocaleString"; "toString"; "valueOf";
    "__defineGetter__"; "__defineSetter__"; "__lookupGetter__";
    "__lookupSetter__" ]%string.

Definition inherited (k : list N) : bool :=
  existsb (fun n => str_eqb (js n) k) prototype_names.

(** *** [parseEnvironmentPairs] *)

(** The body of the loop over the trimmed parts; code unit 61 is the
    equals sign. *)
Definition env_step (out : list (list N * json)) (partRaw : list N)
    : list (list N * json) :=
  if negb (truthy partRaw) then out
  else
    match indexOf 61 partRaw with
    | None => out
    | Some O => out
    | Some eqIndex =>
        let key := trim (slice 0 eqIndex partRaw) in
        let value := trim (drop (eqIndex + 1) partRaw) in
        if negb (truthy key) then out else assign key (JStr value) out
    end.

(** The result is the object [out], as the list of its own properties. *)
Definition parseEnvironmentPairs (input : list N) : list (list N * json) :=
  let trimmed := trim input in
  if negb (truthy trimmed) then []
  else foldl env_step [] (map trim (split 44 trimmed)).

(** The text [k=v]. *)
Definition pair_text (kv : list N * list N) : list N :=
  kv.1 ++ [61%N] ++ kv.2.

(** A key that [parseEnvironmentPairs] gives back as it is: not empty,
    without comma and equals sign, without white space at its ends, and
    not [__proto__]. *)
Definition clean_key (k : list N) : Prop :=
  k ≠ [] ∧ trim k = k ∧ (44%N ∉ k) ∧ (61%N ∉ k) ∧ k ≠ js "__proto__".

(** A value that [parseEnvironmentPairs] gives back as it is. *)
Definition clean_value (v : list N) : Prop :=
  trim v = v ∧ (44%N ∉ v).

(** *** [extractMcpImportMap] *)

Definition isPlainObject (x : value) : bool :=
  match x with
  | Some (JObj _) => true
  | _ => false
  end.

(** [isPlainObject(v) && "type" in v] *)
Definition typed_object (v : json) : bool :=
  match v with
  | JObj fields => bool_decide (is_Some (field (js "type") fields))
  | _ => false
  end.

(** [name] is [None] for [undefined]. The result is [None] for
    [undefined], else the own properties of the object returned. The
    property [name] is looked up among the own properties: the model is
    for a name that [Object.prototype] does not define. *)
Definition extractMcpImportMap (input : value) (name : option (list N))
    : option (list (list N * json)) :=
  match input with
  | Some (JObj fields) =>
      let name' := match name with
                   | Some n => if truthy n then Some n else None
                   | None => None
                   end in
      let fromMcpField :=
        match field (js "mcp") fields with
        | Some (JObj mcp) =>
            match name' with
            | Some n =>
                match field n mcp with
                | Some v => Some [(n, v)]
                | None => None
                end
            | None => Some mcp
            end
        | _ => None
        end in
      match fromMcpField with
      | Some m => Some m
      | None =>
          match name' with
          | Some n =>
              if typed_object (JObj fields) then Some [(n, JObj fields)]
              else
                match field n fields with
                | Some maybe => Some [(n, maybe)]
                | None => None
                end
          | None =>
              match fields with
              | [] => Some []
              | _ => if forallb (fun kv => typed_object kv.2) fields
                     then Some fields else None
              end
          end
      end
  | _ => None
  end.

(** *** [redactForPrint] *)

(** [entry.type === "remote" && entry.oauth && typeof entry.oauth === "object"] *)
Definition remote_with_oauth (entry : list (list N * json)) : bool :=
  match field (js "type") entry with
  | Some (JStr t) => str_eqb t (js "remote")
  | _ => false
  end
  && truthy_value (field (js "oauth") entry)
  && match field (js "oauth") entry with
     | Some (JObj _) | Some (JArr _) | Some JNull => true
     | _ => false
     end.

(** What [out[name]] is set to, for the entry [entry]. *)
Definition redact_entry (entry : list (list N * json)) : list (list N * json) :=
  if remote_with_oauth entry then
    match field (js "oauth") entry with
    | Some (JObj oauth) =>
        if truthy_value (field (js "clientSecret") oauth)
        then set_field (js "oauth")
               (JObj (set_field (js "clientSecret") (JStr (js "REDACTED")) oauth))
               entry
        else entry
    | _ => entry
    end
  else entry.

(** [mcp] is [Object.entries(mcp)], each entry an object, and the result
    the own properties of [out]. *)
Definition redactForPrint (mcp : list (list N * list (list N * json)))
    : list (list N * json) :=
  foldl (fun out e => assign e.1 (JObj (redact_entry e.2)) out) [] mcp.

(** The client secret that the entry [entry] shows, if any. *)
Definition shown_secret (entry : json) : value :=
  match entry with
  | JObj fields =>
      if remote_with_oauth fields then
        match field (js "oauth") fields with
        | Some (JObj oauth) =>
            if truthy_value (field (js "clientSecret") oauth)
            then field (js "clientSecret") oauth else None
        | _ => None
        end
      else None
  | _ => None
  end.

(** The object [o'] has the keys of [o], in their order, and the values
    of [o] but for the key [k]. *)
Definition same_but (k : list N) (o o' : list (list N * json)) : Prop :=
  o'.*1 = o.*1 ∧ ∀ f, f ≠ k -> field f o' = field f o.

(** The entry [entry'] is the entry [entry], but for the client secret
    of its [oauth] object. *)
Definition same_but_secret (entry entry' : list (list N * json)) : Prop :=
  same_but (js "oauth") entry entry'
  ∧ match field (js "oauth") entry, field (js "oauth") entry' with
    | Some (JObj oauth), Some (JObj oauth') => same_but (js "clientSecret") oauth oauth'
    | a, b => a = b
    end.

(** *** [upsertMcpsIntoFile] *)

(** What [prompts.confirm] answers: [true], [false] or the cancel
    symbol. *)
Inductive Answer := Yes | No | Cancel.

(** The variables of the loop. [proto] is the prototype of [nextMcp]:
    [None] for [Object.prototype], else the plain object that an
    assignment to [__proto__] made the prototype. *)
Record Upsert := mkUpsert {
  nextMcp : list (list N * json);
  proto : option (list (list N * json));
  changed : bool;
  skipped : list (list N);
  overwritten : list (list N);
  added : list (list N)
}.

(** [nextMcp[name] !== undefined]: [name] is an own property, or one of
    the prototype, or one that [Object.prototype] defines. *)
Definition defined_in (st : Upsert) (name : list N) : bool :=
  has_own name (nextMcp st)
  || match proto st with
     | Some p => has_own name p
     | None => false
     end
  || inherited name.

Definition skip (name : list N) (st : Upsert) : Upsert :=
  mkUpsert (nextMcp st) (proto st) (changed st) (skipped st ++ [name])
    (overwritten st) (added st).

(** [nextMcp[name] = entry] and what follows it in the body. *)
Definition take_entry (exists_ : bool) (name : list N) (entry : list (list N * json))
    (st : Upsert) : Upsert :=
  mkUpsert (assign_under (proto st) name (JObj entry) (nextMcp st))
    (if reaches_setter (proto st) name (nextMcp st) then Some entry else proto st)
    true (skipped st)
    (if exists_ then overwritten st ++ [name] else overwritten st)
    (if exists_ then added st else added st ++ [name]).

(** The body of the loop over [Object.entries(opts.entries)]; [None]
    when it throws [UI.CancelledError]. [isTTY] is [process.stderr.isTTY]
    and [confirm name] the answer to the question about [name]. *)
Definition upsert_step (overwrite isTTY : bool) (confirm : list N -> Answer)
    (st : Upsert) (e : list N * list (list N * json)) : option Upsert :=
  let exists_ := defined_in st e.1 in
  if exists_ && negb overwrite then
    if negb isTTY then Some (skip e.1 st)
    else
      match confirm e.1 with
      | Cancel => None
      | No => Some (skip e.1 st)
      | Yes => Some (take_entry exists_ e.1 e.2 st)
      end
  else Some (take_entry exists_ e.1 e.2 st).

Fixpoint upsert_loop (overwrite isTTY : bool) (confirm : list N -> Answer)
    (entries : list (list N * list (list N * json))) (st : Upsert) : option Upsert :=
  match entries with
  | [] => Some st
  | e :: rest =>
      match upsert_step overwrite isTTY confirm st e with
      | Some st' => upsert_loop overwrite isTTY confirm rest st'
      | None => None
      end
  end.

(** What [upsertMcpsIntoFile] returns, and in [file] the object that it
    wrote to the file, if it wrote. *)
Record UpsertResult := mkUpsertResult {
  written : bool;
  r_added : list (list N);
  r_overwritten : list (list N);
  r_skipped : list (list N);
  file : option (list (list N * json))
}.

(** [currentMcp] *)
Definition currentMcp (existing : list (list N * json)) : list (list N * json) :=
  match field (js "mcp") existing with
  | Some (JObj mcp) => mcp
  | _ => []
  end.

(** [existing] is what [readJsoncObject] returned, an object that
    inherits from [Object.prototype], and [entries] is
    [Object.entries(opts.entries)], each entry such an object; the
    result is [None] when [UI.CancelledError] is thrown. *)
Definition upsertMcpsIntoFile (existing : list (list N * json))
    (entries : list (list N * list (list N * json)))
    (overwrite isTTY : bool) (confirm : list N -> Answer) : option UpsertResult :=
  match upsert_loop overwrite isTTY confirm entries
          (mkUpsert (currentMcp existing) None false [] [] []) with
  | None => None
  | Some st =>
      if negb (changed st)
      then Some (mkUpsertResult false (added st) (overwritten st) (skipped st) None)
      else
        let updated :=
          if negb (truthy_value (field (js "$schema") existing))
          then assign (js "$schema") (JStr (js "https://opencode.ai/config.json")) existing
          else existing in
        Some (mkUpsertResult true (added st) (overwritten st) (skipped st)
                (Some (assign (js "mcp") (JObj (nextMcp st)) updated)))
  end.

(** *** Examples *)

(** Three servers to import: a remote server with a client secret, a
    local server, and a remote server without OAuth. *)
Definition demo_search : list (list N * json) :=
  [ (js "type", JStr (js "remote")); (js "url", JStr (js "https://example.com/mcp"));
    (js "oauth", JObj [ (js "clientId", JStr (js "opencode"));
                        (js "clientSecret", JStr (js "s3cret")) ]) ].

Definition demo_files : list (list N * json) :=
  [ (js "type", JStr (js "local"));
    (js "command", JArr [JStr (js "npx"); JStr (js "files-mcp")]) ].

Definition demo_docs : list (list N * json) :=
  [ (js "type", JStr (js "remote")); (js "url", JStr (js "https://docs.example.com")) ].

Definition demo_servers : list (list N * list (list N * json)) :=
  [ (js "search", demo_search); (js "files", demo_files); (js "docs", demo_docs) ].

(** A configuration file that knows the server [files]. *)
Definition demo_file : list (list N * json) :=
  [ (js "theme", JStr (js "dark"));
    (js "mcp", JObj [ (js "files", JObj [ (js "type", JStr (js "local")) ]) ]) ].

(** A document to import from. *)
Definition demo_document : json :=
  JObj [ (js "mcp", JObj (map (fun e => (e.1, JObj e.2)) demo_servers)) ].

Definition demo_pairs : list (list N * list N) :=
  [ (js "API_KEY", js "abc"); (js "MODE", js "a b"); (js "API_KEY", js "xyz") ].

Definition decline (_ : list N) : Answer := No.

End McpCli.

(** ** The Ollama adapter: the stream of a response and the discovery of
  models ([doStream], [extractModelNames], the base URL) *)

Module OllamaStream.
Import Json Ollama.

(** The text that the text deltas of a stream carry. *)
Definition text_deltas (ps : list StreamPart) : list N :=
  concat (omap (fun p => match p with
                         | TextDelta _ delta => Some delta
                         | _ => None
                         end) ps).

(** A part that may stand between [text-start] and [text-end]: a text
    delta of the text [ollama-text], a raw chunk or an error. *)
Definition text_body (p : StreamPart) : Prop :=
  match p with
  | TextDelta i _ => i = js "ollama-text"
  | Raw _ | ErrorPart => True
  | _ => False
  end.

(** The text part of a stream: nothing, or [text-start], parts of the
    text and [text-end]. *)
Definition text_block (ps : list StreamPart) : Prop :=
  ps = []
  ∨ ∃ d q, ps = TextStart (js "ollama-text") :: TextDelta (js "ollama-text") d :: q
                 ++ [TextEnd (js "ollama-text")]
           ∧ Forall text_body q.

(** What the loop over the lines keeps without prompt-mode tool
    calling: after [stream-start] come raw chunks and errors only, until
    the text is started; from then on come parts of the text, the first
    of them a delta. *)
Definition plain_state (st : StreamState) : Prop :=
  (currentTextId st = None
   ∧ ∃ q, parts st = StreamStart :: q ∧ Forall quiet_part q)
  ∨ (currentTextId st = Some (js "ollama-text")
     ∧ ∃ q d q', parts st = StreamStart :: q ++ TextStart (js "ollama-text")
                              :: TextDelta (js "ollama-text") d :: q'
                 ∧ Forall quiet_part q ∧ Forall text_body q').

(** The state [sp] of the loop with prompt-mode tool calling has
    gathered the text that the state [sn] of the loop without it has
    streamed, and both loops stop at the same line. *)
Definition same_text (sp sn : StreamState) : Prop :=
  fullText sp = text_deltas (parts sn) ∧ isDone sp = isDone sn.

(** The text of lines that each end with a line feed. *)
Definition unlines (ls : list (list N)) : list N :=
  flat_map (fun l => l ++ [10%N]) ls.

Section Lines.

Variable JSON_parse : list N -> option json.

(** A line of the response that says [done: true]. *)
Definition done_line (d : list N) : Prop :=
  trim d ≠ [] ∧ ∃ chunk, JSON_parse (trim d) = Some chunk
                         ∧ opt_get (Some chunk) "done" = Some (JBool true).

(** *** The response in prompt mode, line by line *)

(** The lines of the body that the adapter reads: those that a line
    feed ends. What follows the last line feed is never read. *)
Definition complete_lines (body : list N) : list (list N) :=
  removelast (split 10 body).

(** The value that a line carries: what the trimmed line parses to.
    A blank line is skipped before it is parsed. *)
Definition line_chunk (line : list N) : option json :=
  if truthy (trim line) then JSON_parse (trim line) else None.

(** [response] of the object, when it is a string. *)
Definition response_string (fields : list (list N * json)) : list N :=
  match field (js "response") fields with
  | Some (JStr s) => s
  | _ => []
  end.

(** The text that a line adds: the string [message.content] of the
    object that the line carries, else its string [response], else
    nothing. *)
Definition line_text (line : list N) : list N :=
  match line_chunk line with
  | Some (JObj fields) =>
      match field (js "message") fields with
      | Some (JObj message) =>
          match field (js "content") message with
          | Some (JStr s) => s
          | _ => response_string fields
          end
      | _ => response_string fields
      end
  | _ => []
  end.

(** The line carries an object with [done: true]. *)
Definition says_done (line : list N) : bool :=
  match line_chunk line with
  | Some (JObj fields) =>
      match field (js "done") fields with
      | Some (JBool true) => true
      | _ => false
      end
  | _ => false
  end.

(** The lines up to the first that says [done], and that line. *)
Fixpoint until_done (lines : list (list N)) : list (list N) :=
  match lines with
  | [] => []
  | line :: rest => if says_done line then [line] else line :: until_done rest
  end.

(** The parts that a line gives while the response is read in prompt
    mode: the raw part, when raw chunks are asked for, and an error
    part when the line is not JSON. *)
Definition line_quiet (includeRawChunks : bool) (line : list N) : list StreamPart :=
  if truthy (trim line) then
    (if includeRawChunks then [Raw (trim line)] else [])
    ++ match JSON_parse (trim line) with
       | None => [ErrorPart]
       | Some _ => []
       end
  else [].

(** The text that the adapter has gathered when the stream ends, and
    the parts it has enqueued by then, after [stream-start]. *)
Definition stream_text (body : list N) : list N :=
  concat (map line_text (until_done (complete_lines body))).

Definition stream_quiet (includeRawChunks : bool) (body : list N) : list StreamPart :=
  concat (map (line_quiet includeRawChunks) (until_done (complete_lines body))).

End Lines.

(** A response in two lines, the second of which says [done: true]. *)
Definition first_line : list N := jq "{'message':{'content':'Hel'}}".
Definition last_line : list N := jq "{'message':{'content':'lo'},'done':true}".

Definition two_lines : list (list N) := [first_line; last_line].

(** The chunk of scenario 2 of the specification, as it is written
    there: no line feed ends it. *)
Definition hover_chunk : list N :=
  jq "{'message':{'content':'{\'opencode\':{\'tool_calls\':[{\'name\':\'ide.hover\',\'arguments\':{\'uri\':\'a.ts\',\'line\':1,\'character\':0}}]}}'},'done':true}".

(** The text of the response of scenario 2. *)
Definition hover_text : list N :=
  jq "{'opencode':{'tool_calls':[{'name':'ide.hover','arguments':{'uri':'a.ts','line':1,'character':0}}]}}".

End OllamaStream.

Module OllamaLoader.
Import Json.

(** *** The base URL *)

(** [baseURLRaw]: the options [baseURL] and [api] of the configuration
    of the provider, then the environment variables [OLLAMA_BASE_URL] and
    [OLLAMA_HOST], then the default. *)
Definition baseURLRaw (optBaseURL optApi : value) (envBaseURL envHost : option (list N))
    : value :=
  coalesce optBaseURL
    (coalesce optApi
       (coalesce (option_map JStr envBaseURL)
          (coalesce (option_map JStr envHost) (Some (JStr (js "http://127.0.0.1:11434")))))).

Definition baseURL (raw : value) : list N :=
  match raw with
  | Some (JStr s) =>
      if (length s =? 0)%nat then js "http://127.0.0.1:11434"
      else if startsWith s (js "http://") || startsWith s (js "https://") then s
      else js "http://" ++ s
  | _ => js "http://127.0.0.1:11434"
  end.

(** *** [extractModelNames] *)

(** [list] *)
Definition model_list (payload : value) : list json :=
  match payload with
  | Some (JArr l) => l
  | _ =>
      match opt_get payload "models" with
      | Some (JArr l) => l
      | _ =>
          match opt_get payload "data" with
          | Some (JArr l) => l
          | _ => []
          end
      end
  end.

(** [typeof item?.k === "string" ? item.k : undefined] *)
Definition string_of (item : json) (k : string) : option (list N) :=
  match opt_get (Some item) k with
  | Some (JStr s) => Some s
  | _ => None
  end.

(** What the loop pushes for [item], if anything. *)
Definition item_name (item : json) : option (list N) :=
  match item with
  | JStr s => Some s
  | _ =>
      let name :=
        match string_of item "name" with
        | Some s => Some s
        | None =>
            match string_of item "model" with
            | Some s => Some s
            | None => string_of item "id"
            end
        end in
      match name with
      | Some s => if truthy s then Some s else None
      | None => None
      end
  end.

(** [Array.from(new Set(out))]: the first occurrence of each element, in
    order. *)
Fixpoint unique (seen out : list (list N)) : list (list N) :=
  match out with
  | [] => []
  | x :: r => if bool_decide (x ∈ seen) then unique seen r
              else x :: unique (x :: seen) r
  end.

Definition extractModelNames (payload : value) : list (list N) :=
  filter (fun s => truthy s = true) (unique [] (omap item_name (model_list payload))).

End OllamaLoader.

(** ** More of namespace [Provider]: the [opencode] and [owiseman]
  loaders, [parseModel], [closest] and [getSmallModel] *)

Module Loaders.

(** *** [CUSTOM_LOADERS.opencode] *)

Section Opencode.

(** The models of the provider, and the test [value.cost.input === 0]. *)
Variable M : Type.
Variable free : M -> bool.

(** [hasKey]: [input_env] is [input.env], [env] is [Env.all()], [auth]
    tells whether [Auth.get(input.id)] is truthy and [configKey] whether
    [config.provider?.["opencode"]?.options?.apiKey] is. *)
Definition hasKey (input_env : list (list N)) (env : list N -> option (list N))
    (auth configKey : bool) : bool :=
  existsb (fun item => match env item with
                       | Some v => truthy v
                       | None => false
                       end) input_env
  || auth || configKey.

(** The body of the loop over [Object.entries(input.models)]. *)
Definition opencode_step (models : gmap (list N) M) (entry : list N * M)
    : gmap (list N) M :=
  if free entry.2 then models else delete entry.1 models.

(** What the loader does: the models of the provider afterwards,
    [autoload], and the API key among the options ([None] when the
    options are empty). *)
Definition opencode (models : gmap (list N) M) (input_env : list (list N))
    (env : list N -> option (list N)) (auth configKey : bool)
    : gmap (list N) M * bool * option (list N) :=
  let models' :=
    if negb (hasKey input_env env auth configKey)
    then foldl opencode_step models (map_to_list models)
    else models in
  (models', negb (bool_decide (models' = ∅)),
   if hasKey input_env env auth configKey then None else Some (js "public")).

End Opencode.

(** *** [CUSTOM_LOADERS.owiseman]: the URLs *)

(** [s.slice(0, -n)] for [0 < n] *)
Definition slice_off (n : nat) (s : list N) : list N :=
  take (length s - n) s.

Definition baseURLNormalized (baseURL : list N) : list N :=
  if endsWith baseURL (js "/") then slice_off 1 baseURL else baseURL.

(** The following take [baseURLNormalized]. *)
Definition baseRoot (b : list N) : list N :=
  if endsWith b (js "/api/v1") then slice_off 7 b
  else if endsWith b (js "/v1") then slice_off 3 b
  else b.

Definition baseURLV1 (b : list N) : list N := baseRoot b ++ js "/v1".

Definition baseURLInference (b : list N) : list N :=
  if endsWith b (js "/api/v1") then baseRoot b ++ js "/api/v1" else baseURLV1 b.

(** Three models, one of them free of charge, with the price of their
    input. *)
Definition demo_prices : gmap (list N) Z :=
  {[ js "big-pickle" := 0%Z; js "gpt-5" := 125%Z; js "claude-sonnet-4" := 300%Z ]}.

Definition no_env (_ : list N) : option (list N) := None.

End Loaders.

Module Queries.
Import Registry.

(** *** [parseModel] *)

(** The result is the pair of [providerID] and [modelID]. ([split]
    never gives an empty array.) *)
Definition parseModel (model : list N) : list N * list N :=
  match split 47 model with
  | providerID :: rest => (providerID, Json.join_with [47%N] rest)
  | [] => ([], [])
  end.

(** *** [closest] and [getSmallModel] *)

(** The first of [keys] that includes [item]. *)
Fixpoint find_including (item : list N) (keys : list (list N)) : option (list N) :=
  match keys with
  | [] => None
  | k :: r => if includes k item then Some k else find_including item r
  end.

(** The two loops, over the items and over the keys. *)
Fixpoint first_match (keys : list (list N)) (query : list (list N))
    : option (list N) :=
  match query with
  | [] => None
  | item :: rest =>
      match find_including item keys with
      | Some k => Some k
      | None => first_match keys rest
      end
  end.

(** What [closest] does: it returns the pair, or [undefined], or throws
    a [TypeError]. *)
Inductive Closest :=
| Pair (providerID modelID : list N)
| Undefined
| ClosestTypeError.

Section Lookups.

(** [Object.keys(s.providers)] and [Object.keys(provider.models)]: the
    own keys of the object in the order in which they are
    enumerated. *)
Variable provider_keys : gmap (list N) Info -> list (list N).
Variable enumerate : gmap (list N) Model -> list (list N).

(** The score of the fuzzy search of [getModel]. *)
Variable score : list N -> list N -> option Z.

(** The registry is a plain object: for an id that is not an own key
    but a name that [Object.prototype] defines,
    [s.providers[providerID]] is the inherited value, which is truthy
    and has no [models], and [Object.keys(provider.models)] throws
    when the loop over the query reaches it. *)
Definition closest (providers : gmap (list N) Info) (providerID : list N)
    (query : list (list N)) : Closest :=
  match providers !! providerID with
  | Some provider =>
      match first_match (enumerate (models provider)) query with
      | Some modelID => Pair providerID modelID
      | None => Undefined
      end
  | None =>
      if JsObject.inherited providerID then
        match query with
        | [] => Undefined
        | _ :: _ => ClosestTypeError
        end
      else Undefined
  end.

(** [priority] in [getSmallModel] *)
Definition small_priority (providerID : list N) : list (list N) :=
  let priority :=
    [ js "claude-haiku-4-5"; js "claude-haiku-4.5"; js "3-5-haiku"; js "3.5-haiku";
      js "gemini-3-flash"; js "gemini-2.5-flash"; js "gpt-5-nano" ] in
  let priority :=
    if startsWith providerID (js "opencode") then [js "gpt-5-nano"] else priority in
  if startsWith providerID (js "github-copilot")
  then [js "gpt-5-mini"; js "claude-haiku-4.5"] ++ priority
  else priority.

(** The end of [getSmallModel]: the model [gpt-5-nano] of the provider
    [opencode], when the registry has it. *)
Definition opencode_nano (providers : gmap (list N) Info) : option Lookup :=
  match providers !! js "opencode" with
  | Some opencodeProvider =>
      match models opencodeProvider !! js "gpt-5-nano" with
      | Some _ =>
          Some (getModel score provider_keys enumerate providers
                  (js "opencode") (js "gpt-5-nano")).2
      | None => None
      end
  | None => None
  end.

(** [small_model] is [cfg.small_model]. The result is [None] for
    [undefined]; a [Lookup] tells what the call of [getModel] did, and
    is [TypeError] when [Object.keys(provider.models)] throws. *)
Definition getSmallModel (small_model : option (list N))
    (providers : gmap (list N) Info) (providerID : list N) : option Lookup :=
  if truthy (nullish small_model [])
  then
    let parsed := parseModel (nullish small_model []) in
    Some (getModel score provider_keys enumerate providers parsed.1 parsed.2).2
  else
    match providers !! providerID with
    | Some provider =>
        match first_match (enumerate (models provider)) (small_priority providerID) with
        | Some model =>
            Some (getModel score provider_keys enumerate providers providerID model).2
        | None => opencode_nano providers
        end
    | None =>
        if JsObject.inherited providerID then
          match small_priority providerID with
          | [] => opencode_nano providers
          | _ :: _ => Some TypeError
          end
        else opencode_nano providers
    end.

End Lookups.

(** The models that the pair is looked for in. *)
Definition models_of (providers : gmap (list N) Info) (providerID : list N)
    : gmap (list N) Model :=
  match providers !! providerID with
  | Some p => models p
  | None => ∅
  end.

(** The id is one of the two that the filter pass always removes. *)
Definition always_removed (providerID modelID : list N) : bool :=
  bool_decide (modelID = js "gpt-5-chat-latest")
  || (bool_decide (providerID = js "openrouter")
      && bool_decide (modelID = js "openai/gpt-5-chat")).

(** The provider [acme] of [demo_registry]. *)
Definition demo_acme : Info :=
  mkInfo (js "acme") (js "Acme") env
    {[ js "fast" := demo_model "acme" "fast" active;
       js "legacy" := demo_model "acme" "legacy" deprecated;
       js "next" := demo_model "acme" "next" alpha;
       js "banned" := demo_model "acme" "banned" beta ]}.

(** A registry for the examples: provider [anthropic] with two models. *)
Definition small_registry : gmap (list N) Info :=
  {[ js "anthropic" :=
       mkInfo (js "anthropic") (js "Anthropic") env
         {[ js "claude-sonnet-4" := demo_model "anthropic" "claude-sonnet-4" active;
            js "claude-3-5-haiku-latest" :=
              demo_model "anthropic" "claude-3-5-haiku-latest" active ]} ]}.

End Queries.

(** ** More of the PTY multiplexer *)

Module PtyMore.
Import Pty.

(** The session is pinned to the working directory [c]. *)
Definition pinned_at (c : list N) (s : ActiveSession) : Prop :=
  cwdPinned s = true ∧ cwd (info s) = c.

(** Scenario: a session is created without a working directory, and two
    clients connect, each naming a directory. *)
Definition two_directories : list Op :=
  [ OpCreate (mkCreateInput None None None None) (js "pty_0001") 42 (js "/bin/zsh") (js "/w");
    OpConnect (js "pty_0001") 1 (Some (js " /home/a ")) always;
    OpConnect (js "pty_0001") 2 (Some (js "/home/b")) always ].

(** The state after the session was created, and its session object. *)
Definition created : World := run (take 1 two_directories) init.

Definition fresh_session : ActiveSession :=
  mkSession
    (mkInfo (js "pty_0001") (js "Terminal 0001") (js "/bin/zsh") [js "-l"] (js "/w")
       running 42)
    [] [] [] false.

(** *** The events on the bus *)

(** The id of the session that an event is about. *)
Definition event_id (e : BusEvent) : list N :=
  match e with
  | Created i | Updated i => id i
  | Exited i _ | Deleted i => i
  end.

Definition is_created (e : BusEvent) : bool :=
  match e with
  | Created _ => true
  | _ => false
  end.

(** The ids that the [Created] events of [b] carry. *)
Definition created_ids (b : list BusEvent) : list (list N) :=
  omap (fun e => match e with
                 | Created i => Some (id i)
                 | _ => None
                 end) b.

(** The ids of the session objects. *)
Definition ids (w : World) : list (list N) :=
  map (fun s => id (info s)) (heap w).

(** Every event of [b] that is not a [Created] event comes after a
    [Created] event with its id. *)
Definition ordered (b : list BusEvent) : Prop :=
  ∀ pre e post, b = pre ++ e :: post -> is_created e = false ->
    event_id e ∈ created_ids pre.

(** The bus is ordered, and the creation of every session object was
    published. *)
Definition announced (w : World) : Prop :=
  ordered (bus w) ∧ ∀ i, i ∈ ids w -> i ∈ created_ids (bus w).

End PtyMore.

(** ** The Ollama loader: the models of the provider (prompt-mode tool
  calling, discovery, fallback) *)

Module OllamaDiscovery.
Import Json OllamaLoader Registry.

Section Discovery.

Variable JSON_parse : list N -> option json.

(** What the loader neither tests nor sets of a model: the other
    capabilities, [limit], [release_date], [options], [headers] and
    [variants]. *)
Variable Rest : Type.

(** A model as the loader sees it. *)
Record OModel := mkOModel {
  o_id : list N;
  o_providerID : list N;
  o_api_id : list N;
  o_api_url : list N;
  o_api_npm : list N;
  o_name : list N;
  o_family : option (list N);
  o_toolcall : bool;         (* [capabilities.toolcall] *)
  o_cost : Z * Z * Z * Z;    (* [input], [output], [cache.read], [cache.write] *)
  o_status : Status;
  o_rest : Rest
}.

(** [Object.values(input.models)] *)
Variable values : gmap (list N) OModel -> list OModel.

(** The rest of a new model, from [templateModel]: the other
    capabilities of [templateCapabilities], [templateLimit],
    [templateReleaseDate], and empty [options], [headers] and
    [variants]. *)
Variable template_rest : option OModel -> Rest.

(** [promptToolCall], from the options [toolCallMode],
    [promptToolCall] and [toolcall] of the configuration. *)
Definition promptToolCall (toolCallMode promptToolCallOption toolcall : value) : bool :=
  match toolCallMode with
  | Some (JStr s) => str_eqb s (js "prompt")
  | _ => false
  end
  || match promptToolCallOption with
     | Some (JBool true) => true
     | _ => false
     end
  || match toolcall with
     | Some (JStr s) => str_eqb s (js "prompt")
     | _ => false
     end.

Definition set_toolcall (b : bool) (m : OModel) : OModel :=
  mkOModel (o_id m) (o_providerID m) (o_api_id m) (o_api_url m) (o_api_npm m)
    (o_name m) (o_family m) b (o_cost m) (o_status m) (o_rest m).

(** [discovered]: [response] is [None] when the request throws, else
    [response.ok] and the text of the body. *)
Definition discovered (response : option (bool * list N)) : list (list N) :=
  match response with
  | None => []
  | Some (ok, raw) => if negb ok then [] else extractModelNames (JSON_parse raw)
  end.

(** The object that the loader makes for [modelID]. *)
Definition new_model (providerID baseURL : list N) (toolcall : bool) (rest : Rest)
    (modelID : list N) : OModel :=
  mkOModel modelID providerID modelID baseURL (js "@ai-sdk/openai-compatible")
    modelID (Some (js "ollama")) toolcall (0, 0, 0, 0)%Z active rest.

(** The body of the loop over [discovered]. [input.models[modelID]] is
    truthy for a model of the provider and for a name that
    [Object.prototype] defines. *)
Definition discover_step (make : list N -> OModel) (models : gmap (list N) OModel)
    (modelID : list N) : gmap (list N) OModel :=
  if bool_decide (is_Some (models !! modelID)) || McpCli.inherited modelID then models
  else <[modelID := make modelID]> models.

(** [fallbackModelId], from the option [fallbackModel]. *)
Definition fallbackModelId (fallbackModel : value) : list N :=
  match fallbackModel with
  | Some (JStr s) => s
  | _ => js "llama3.1:8b-instruct"
  end.

(** [input.models] when the loader is done with it: [input_id] is
    [input.id] and [models] is [input.models] as the loader finds it.
    (An assignment to [__proto__] adds no property.) *)
Definition ollama_models (input_id baseURL : list N) (models : gmap (list N) OModel)
    (promptToolCall : bool) (response : option (bool * list N))
    (fallbackModel : value) : gmap (list N) OModel :=
  let models1 := if promptToolCall then set_toolcall true <$> models else models in
  let templateModel := head (values models1) in
  let toolcall :=
    if promptToolCall then true
    else match templateModel with
         | Some t => o_toolcall t
         | None => false
         end in
  let make := new_model input_id baseURL toolcall (template_rest templateModel) in
  let models2 := foldl (discover_step make) models1 (discovered response) in
  if bool_decide (models2 = ∅) then
    let f := fallbackModelId fallbackModel in
    if str_eqb f (js "__proto__") then models2 else <[f := make f]> models2
  else models2.

(** The model is one that the loader made for the name [k]. *)
Definition made_for (input_id baseURL : list N) (promptToolCall : bool)
    (k : list N) (m : OModel) : Prop :=
  o_id m = k ∧ o_name m = k ∧ o_api_id m = k ∧ o_api_url m = baseURL
  ∧ o_api_npm m = js "@ai-sdk/openai-compatible"
  ∧ o_providerID m = input_id ∧ o_family m = Some (js "ollama")
  ∧ o_cost m = (0, 0, 0, 0)%Z ∧ o_status m = active
  ∧ (promptToolCall = true -> o_toolcall m = true).

End Discovery.

(** An answer of [/api/tags] with two models, one of them with a name
    that [Object.prototype] defines. *)
Definition demo_tags : list N :=
  jq "{'models':[{'name':'llama3:8b'},{'name':'constructor'},{'model':'llama3:8b'}]}".

(** The models of a provider without models, after the answer
    [demo_tags]. *)
Definition demo_discovery : gmap (list N) (OModel unit) :=
  ollama_models parse unit (fun ms => (map_to_list ms).*2) (fun _ => tt)
    (js "ollama") (js "http://127.0.0.1:11434") ∅ false (Some (true, demo_tags)) None.

End OllamaDiscovery.

(** * Part II: properties *)

(** ** Facts about strings *)

Module JsStringFacts.

#[local] Open Scope N_scope.

Lemma startsWith_app (p r : jsstring) : startsWith (p ++ r) p = true.
Proof.
  induction p as [|c p IH]; simpl; [done|].
  by rewrite N.eqb_refl, IH.
Qed.

Lemma slice_last_short (n : Z) (s : jsstring) :
  (zlen s <= n)%Z -> slice_last n s = s.
Proof.
  unfold slice_last, zlen. intros H.
  replace (Z.to_nat (Z.of_nat (length s) - n)) with 0%nat by lia.
  apply drop_0.
Qed.

Lemma slice_last_length (n : Z) (s : jsstring) :
  (0 <= n)%Z -> (zlen (slice_last n s) <= n)%Z.
Proof.
  unfold slice_last, zlen. intros H. rewrite length_drop. lia.
Qed.

Lemma slice_last_suffix (n : Z) (s : jsstring) :
  exists p, s = p ++ slice_last n s.
Proof.
  unfold slice_last.
  exists (take (Z.to_nat (Z.of_nat (length s) - n)) s).
  by rewrite take_drop.
Qed.

Lemma indexOf_app c (pre rest : list N) :
  c ∉ pre -> indexOf c (pre ++ c :: rest) = Some (length pre).
Proof.
  induction pre as [|x pre IH]; intros Hc; simpl.
  - by rewrite N.eqb_refl.
  - apply not_elem_of_cons in Hc as [Hne Hc].
    destruct (N.eqb_spec x c) as [->|_]; [done|]. by rewrite IH.
Qed.

Lemma lastIndexOf_None c (s : list N) : c ∉ s -> lastIndexOf c s = None.
Proof.
  induction s as [|x s IH]; intros Hc; [done|]. simpl.
  apply not_elem_of_cons in Hc as [Hne Hc]. rewrite IH by done.
  destruct (N.eqb_spec x c) as [->|_]; done.
Qed.

Lemma lastIndexOf_app c (a post : list N) :
  c ∉ post -> lastIndexOf c (a ++ c :: post) = Some (length a).
Proof.
  intros Hc. induction a as [|x a IH]; simpl.
  - by rewrite lastIndexOf_None, N.eqb_refl.
  - by rewrite IH.
Qed.

End JsStringFacts.
Import JsStringFacts.

(** ** Bedrock model resolution *)

Module BedrockSpec.
Import Bedrock.

Example eu_central_sonnet :
  getModel (Some (js "eu-central-1")) (js "us-east-1") (js "anthropic.claude-3-5-sonnet")
  = js "eu.anthropic.claude-3-5-sonnet".
Proof. reflexivity. Qed.

Example tokyo_nova :
  getModel None (js "ap-northeast-1") (js "amazon.nova-pro-v1:0")
  = js "jp.amazon.nova-pro-v1:0".
Proof. reflexivity. Qed.

Lemma getModel_prefixed (p : string) (optRegion : option jsstring)
    (def rest : jsstring) :
  p = "global."%string \/ p = "jp."%string ->
  getModel optRegion def (js p ++ rest) = js p ++ rest.
Proof.
  intros [-> | ->]; unfold getModel.
  - by rewrite (startsWith_app (js "global.") rest).
  - rewrite (startsWith_app (js "jp.") rest). by rewrite orb_true_r.
Qed.

Lemma getModel_govcloud (def rest modelID : jsstring) :
  getModel (Some (js "us-gov" ++ rest)) def modelID = modelID.
Proof.
  unfold getModel.
  destruct (startsWith modelID (js "global.") || startsWith modelID (js "jp.")); [done|].
  cbn [nullish].
  assert (Hp : regionPrefixOf (js "us-gov" ++ rest) = js "us").
  { unfold regionPrefixOf. cbn. by destruct (split 45 rest). }
  rewrite Hp.
  assert (Hg : startsWith (js "us-gov" ++ rest) (js "us-gov") = true)
    by apply startsWith_app.
  rewrite Hg. cbn [negb].
  rewrite andb_false_r. done.
Qed.

Lemma getModel_global (optRegion : option (list N)) (def rest : list N) :
  getModel optRegion def (js "global." ++ rest) = js "global." ++ rest.
Proof. apply getModel_prefixed. by left. Qed.

Lemma getModel_jp (optRegion : option (list N)) (def rest : list N) :
  getModel optRegion def (js "jp." ++ rest) = js "jp." ++ rest.
Proof. apply getModel_prefixed. by right. Qed.

(** C5. A model id that starts with [global.] or with [jp.] is handed on
    unchanged, whatever the region. With region [eu-central-1], given in
    the options or as the default region from the configuration, model
    [anthropic.claude-3-5-sonnet] becomes
    [eu.anthropic.claude-3-5-sonnet]. With region [us-gov-west-1] the
    same model gets no prefix, and so does every model in every region
    that starts with [us-gov]. *)
Theorem bedrock_region_prefix (optRegion envRegion : option (list N))
    (def rest modelID : list N) :
  getModel optRegion def (js "global." ++ rest) = js "global." ++ rest
  ∧ getModel optRegion def (js "jp." ++ rest) = js "jp." ++ rest
  ∧ getModel (Some (js "eu-central-1")) def (js "anthropic.claude-3-5-sonnet")
    = js "eu.anthropic.claude-3-5-sonnet"
  ∧ getModel None (defaultRegion (Some (js "eu-central-1")) envRegion)
      (js "anthropic.claude-3-5-sonnet")
    = js "eu.anthropic.claude-3-5-sonnet"
  ∧ getModel (Some (js "us-gov-west-1")) def (js "anthropic.claude-3-5-sonnet")
    = js "anthropic.claude-3-5-sonnet"
  ∧ getModel (Some (js "us-gov" ++ rest)) def modelID = modelID
  ∧ getModel None (defaultRegion (Some (js "us-gov" ++ rest)) envRegion) modelID
    = modelID.
Proof.
  split_and!.
  - apply getModel_global.
  - apply getModel_jp.
  - reflexivity.
  - reflexivity.
  - apply (getModel_govcloud def (js "-west-1")).
  - apply getModel_govcloud.
  - unfold defaultRegion. cbn [nullish].
    pose proof (getModel_govcloud (js "us-gov" ++ rest) rest modelID) as H.
    unfold getModel in *. cbn [nullish] in *. exact H.
Qed.

End BedrockSpec.

(** ** The PTY multiplexer: invariants and replay *)

Module PtySpec.
Import Pty.

Example late_join_sent :
  sent (run late_join init)
  = [ (0, 1, js "ABC"); (0, 1, js "DE"); (0, 1, js "F"); (0, 2, js "F") ].
Proof. vm_compute. reflexivity. Qed.

(** *** Sets as duplicate-free lists *)

Lemma filter_all {A} (P : A -> Prop) `{!∀ x, Decision (P x)} (l : list A) :
  (∀ x, x ∈ l -> P x) -> filter P l = l.
Proof.
  induction l as [|a l IH]; intros Hall; [done|].
  rewrite filter_cons_True by (apply Hall; left).
  f_equal. apply IH. intros x Hx. apply Hall. by right.
Qed.

Lemma filter_iff_in {A} (P Q : A -> Prop) `{!∀ x, Decision (P x)}
    `{!∀ x, Decision (Q x)} (l : list A) :
  (∀ x, x ∈ l -> P x <-> Q x) -> filter P l = filter Q l.
Proof.
  induction l as [|a l IH]; intros Hall; [done|].
  rewrite !filter_cons.
  rewrite IH by (intros x Hx; apply Hall; by right).
  destruct (decide (P a)) as [Hp|Hp], (decide (Q a)) as [Hq|Hq]; try done.
  - destruct Hq. apply Hall; [left|done].
  - destruct Hp. apply Hall; [left|done].
Qed.

Lemma set_add_NoDup x l : NoDup l -> NoDup (set_add x l).
Proof.
  intros H. unfold set_add. case_decide; [done|].
  apply NoDup_app. split_and!; [done| |apply NoDup_singleton].
  intros y Hy Hy'. apply list_elem_of_singleton in Hy'. by subst.
Qed.

Lemma set_add_elem x l : x ∈ set_add x l.
Proof.
  unfold set_add. case_decide; [done|].
  apply elem_of_app. right. by apply list_elem_of_singleton.
Qed.

Lemma set_add_mono x y l : y ∈ l -> y ∈ set_add x l.
Proof.
  intros H. unfold set_add. case_decide; [done|].
  apply elem_of_app. by left.
Qed.

Lemma set_delete_NoDup x l : NoDup l -> NoDup (set_delete x l).
Proof. apply NoDup_filter. Qed.

Lemma set_delete_elem x y l : y ∈ set_delete x l <-> y ≠ x ∧ y ∈ l.
Proof. unfold set_delete. by rewrite list_elem_of_filter. Qed.

(** *** The fan-out loop *)

Lemma fanout_spec ready throws todo : ∀ subs got open,
  ∃ pre post, todo = pre ++ post ∧
    let r := fanout ready throws todo subs got open in
    r.1.1.1 = filter (fun x => ¬ (x ∈ pre ∧ ready x ≠ 1%Z)) subs ∧
    r.1.1.2 = got ++ filter (fun x => ready x = 1%Z) pre ∧
    (r.2 = false ->
       post = [] ∧ r.1.2 = open || existsb (fun x => ready x =? 1)%Z todo).
Proof.
  induction todo as [|ws rest IH]; intros subs got open.
  - exists [], []. simpl. split_and!; try done.
    + symmetry. apply filter_all. intros x _ [Hx _]. by apply not_elem_of_nil in Hx.
    + by rewrite app_nil_r.
    + by rewrite orb_false_r.
  - simpl. destruct (ready ws =? 1)%Z eqn:Hr; simpl.
    + apply Z.eqb_eq in Hr. destruct (throws ws) eqn:Ht.
      * exists [], (ws :: rest). simpl. split_and!; try done.
        -- symmetry. apply filter_all. intros x _ [Hx _]. by apply not_elem_of_nil in Hx.
        -- by rewrite app_nil_r.
      * destruct (IH subs (got ++ [ws]) true) as (pre & post & -> & H1 & H2 & H3).
        exists (ws :: pre), post. simpl in *. split_and!; try done.
        -- rewrite H1. apply list_filter_iff. intros x. split.
           ++ intros Hn [Hx Hne]. apply Hn. split; [|done].
              apply elem_of_cons in Hx as [->|Hx]; [done|done].
           ++ intros Hn [Hx Hne]. apply Hn. split; [|done]. by right.
        -- rewrite H2. rewrite filter_cons_True by done.
           by rewrite <- app_assoc.
        -- intros Hth. destruct (H3 Hth) as [-> ->]. split; [done|].
           by rewrite orb_true_r.
    + apply Z.eqb_neq in Hr.
      destruct (IH (set_delete ws subs) got open) as (pre & post & -> & H1 & H2 & H3).
      exists (ws :: pre), post. simpl in *. split_and!; try done.
      * rewrite H1. unfold set_delete. rewrite list_filter_filter.
        apply list_filter_iff. intros x. split.
        -- intros [Hn Hne] [Hx Hnr]. apply Hn. split; [|done].
           apply elem_of_cons in Hx as [->|Hx]; [done|done].
        -- intros Hn. split.
           ++ intros [Hx Hnr]. apply Hn. split; [by right|done].
           ++ intros ->. apply Hn. split; [by left|done].
      * rewrite H2. by rewrite filter_cons_False by tauto.
  Qed.

Lemma fanout_no_throw ready throws todo : ∀ subs got open,
  (∀ x, x ∈ todo -> ready x = 1%Z -> throws x = false) ->
  (fanout ready throws todo subs got open).2 = false.
Proof.
  induction todo as [|ws rest IH]; intros subs got open H; [done|].
  simpl. destruct (ready ws =? 1)%Z eqn:Hr; simpl.
  - apply Z.eqb_eq in Hr. rewrite (H ws) by (done || by left).
    apply IH. intros x Hx. apply H. by right.
  - apply IH. intros x Hx. apply H. by right.
Qed.

(** *** Well-formedness is preserved by every call *)

Lemma BUFFER_LIMIT_nonneg : (0 <= BUFFER_LIMIT)%Z.
Proof. unfold BUFFER_LIMIT. lia. Qed.

Lemma append_bounded_eq b d :
  append_bounded b d = slice_last BUFFER_LIMIT (b ++ d).
Proof.
  unfold append_bounded. destruct (Z.leb_spec (zlen (b ++ d)) BUFFER_LIMIT); [|done].
  symmetry. by apply slice_last_short.
Qed.

Lemma append_bounded_ok b d : (zlen (append_bounded b d) <= BUFFER_LIMIT)%Z.
Proof. rewrite append_bounded_eq. apply slice_last_length, BUFFER_LIMIT_nonneg. Qed.

Lemma bounded_nil s : bounded (set_buffer [] s).
Proof. unfold bounded. simpl. apply BUFFER_LIMIT_nonneg. Qed.

Lemma bounded_append s d : bounded (set_buffer (append_bounded (buffer s) d) s).
Proof. unfold bounded. simpl. apply append_bounded_ok. Qed.

Create HintDb pty discriminated.
#[local] Hint Resolve set_add_NoDup set_delete_NoDup bounded_nil bounded_append
  BUFFER_LIMIT_nonneg append_bounded_ok : pty.

(** Side conditions of [wf_upd]: the update keeps the session well formed
    and leaves its id and status alone. *)
Ltac session_facts :=
  let Hb := fresh "Hb" in
  let Hn := fresh "Hn" in
  intros ? ? [Hb Hn]; unfold session_ok, bounded in *; simpl in *;
  repeat split; try done; eauto with pty.

Lemma wf_same w w' :
  sessions w' = sessions w -> heap w' = heap w -> wf w -> wf w'.
Proof. unfold wf. by intros -> ->. Qed.

Lemma wf_upd l f w :
  wf w ->
  (∀ s, heap w !! l = Some s -> session_ok s ->
     session_ok (f s) ∧ id (info (f s)) = id (info s)
     ∧ status (info (f s)) = status (info s)) ->
  wf (upd_session l f w).
Proof.
  intros [Hs Ht] Hf. split; simpl.
  - apply Forall_alter; [done|]. intros s Hl Hok. by apply Hf.
  - intros i l0 Hi. destruct (Ht i l0 Hi) as (s & Hl & Hid & Hst).
    destruct (decide (l = l0)) as [->|Hne].
    + exists (f s). rewrite list_lookup_alter_eq, Hl. split; [done|].
      destruct (Hf s Hl) as (_ & -> & ->); [|done].
      by eapply Forall_lookup_1.
    + exists s. by rewrite list_lookup_alter_ne.
Qed.

Lemma wf_delete i w : wf w -> wf (set_sessions (delete i (sessions w)) w).
Proof.
  intros [Hs Ht]. split; [done|]. simpl. intros j l Hj.
  apply lookup_delete_Some in Hj as [_ Hj]. by apply Ht.
Qed.

Lemma send_chunks_frame l ws send_ok cs : ∀ n w,
  let r := send_chunks l ws send_ok n cs w in
  sessions r.1 = sessions w ∧ heap r.1 = heap w ∧ closedSinks r.1 = closedSinks w
  ∧ bus r.1 = bus w ∧ procLog r.1 = procLog w ∧ heard r.1 = heard w
  ∧ ∃ k, sent r.1 = sent w ++ map (fun c => (l, ws, c)) (take k cs)
         ∧ (r.2 = false -> take k cs = cs)
         ∧ (r.2 = true -> (k < length cs)%nat ∧ send_ok (n + k)%nat = false).
Proof.
  induction cs as [|c cs IH]; intros n w; simpl.
  - split_and!; try done. exists 0%nat. simpl. rewrite app_nil_r.
    split_and!; done.
  - destruct (send_ok n) eqn:Hok.
    + destruct (IH (S n) (ws_sent l ws c w)) as (H1 & H2 & H3 & H4 & H5 & H6 & k & H7 & H8 & H9).
      split_and!; try done. exists (S k). simpl. split_and!.
      * rewrite H7. simpl. by rewrite <- app_assoc.
      * intros Hr. by rewrite H8.
      * intros Hr. destruct (H9 Hr) as [Hk Hf]. split; [lia|].
        by replace (n + S k)%nat with (S n + k)%nat by lia.
    + simpl. split_and!; try done. exists 0%nat. simpl. rewrite app_nil_r.
      split_and!; try done. intros _. split; [lia|]. by rewrite Nat.add_0_r.
Qed.

Lemma pin_cwd_wf l s d w : wf w -> wf (pin_cwd l s d w).
Proof.
  intros Hw. unfold pin_cwd. destruct d as [d|]; [|done].
  destruct (truthy d && negb (cwdPinned s)); [|done].
  assert (Hp : wf (upd_session l (set_cwdPinned true) w)).
  { apply wf_upd; [done|]. session_facts. }
  destruct (negb (str_eqb d (cwd (info s)))); [|done].
  apply (wf_same (upd_session l (map_info (set_cwd d))
                    (upd_session l (set_cwdPinned true) w))); [done|done|].
  apply wf_upd; [done|]. session_facts.
Qed.

Lemma fanout_NoDup ready throws todo subs got open :
  NoDup subs -> NoDup (fanout ready throws todo subs got open).1.1.1.
Proof.
  intros H.
  destruct (fanout_spec ready throws todo subs got open) as (pre & post & _ & -> & _).
  by apply NoDup_filter.
Qed.

Lemma onData_wf l data ready throws w : wf w -> wf (onData l data ready throws w).1.
Proof.
  intros Hw. unfold onData. destruct (heap w !! l) as [s|] eqn:Hl; [|done].
  pose proof (fanout_NoDup ready throws (subscribers s) (subscribers s) [] false) as Hnd.
  destruct (fanout ready throws (subscribers s) (subscribers s) [] false)
    as [[[subs got] open] thrown].
  simpl in Hnd.
  assert (H3 : wf (upd_session l (set_subscribers subs)
                     (sent_all l got data (hear_all (listeners s) data w)))).
  { apply wf_upd; [exact Hw|]. intros s0 Hs0 [Hb Hn]. simpl in Hs0.
    rewrite Hl in Hs0. injection Hs0 as <-.
    repeat split; try done. by apply Hnd. }
  destruct thrown; [done|]. destruct open; [done|]. simpl.
  apply wf_upd; [done|]. session_facts.
Qed.

Lemma onExit_wf l c w : wf w -> wf (onExit l c w).
Proof.
  intros [Hs Ht]. unfold onExit. destruct (heap w !! l) as [s|] eqn:Hl; [|done].
  split; simpl.
  - apply Forall_alter; [done|]. by intros s0 _ [Hb Hn].
  - intros i l0 Hi. apply lookup_delete_Some in Hi as [Hne Hi].
    destruct (Ht i l0 Hi) as (s0 & Hl0 & Hid & Hst).
    exists s0. split; [|done].
    rewrite list_lookup_alter_ne; [done|]. intros ->. congruence.
Qed.

Lemma create_wf input i p sh d w : wf w -> wf (create input i p sh d w).1.
Proof.
  intros [Hs Ht]. unfold create. split; simpl.
  - apply Forall_app. split; [done|]. apply Forall_singleton.
    split; [|apply NoDup_nil_2]. unfold bounded. simpl. apply BUFFER_LIMIT_nonneg.
  - intros j l Hj. destruct (decide (i = j)) as [->|Hne].
    + rewrite lookup_insert_eq in Hj. injection Hj as <-.
      eexists. split; [apply list_lookup_middle; done|done].
    + rewrite lookup_insert_ne in Hj by done.
      destruct (Ht j l Hj) as (s & Hl & Hid & Hst).
      exists s. split; [|done]. by apply lookup_app_l_Some.
Qed.

Lemma lookup_session_Some i w l s :
  lookup_session i w = Some (l, s) <-> sessions w !! i = Some l ∧ heap w !! l = Some s.
Proof.
  unfold lookup_session. split.
  - destruct (sessions w !! i) as [l0|]; [|done].
    destruct (heap w !! l0) as [s0|] eqn:E; [|done].
    intros [= <- <-]. done.
  - intros [-> ->]. done.
Qed.

Lemma connect_wf i ws d send_ok w : wf w -> wf (connect i ws d send_ok w).1.
Proof.
  intros Hw. unfold connect. destruct (lookup_session i w) as [[l s]|] eqn:Hl; [|done].
  apply lookup_session_Some in Hl as [Hi Hl].
  set (w1 := upd_session l _ w).
  assert (H1 : wf w1).
  { apply wf_upd; [done|]. session_facts. }
  pose proof (pin_cwd_wf l s (option_map trim d) w1 H1) as H2.
  destruct (truthy (buffer s)); [|done].
  set (buf := if (zlen (buffer s) <=? BUFFER_LIMIT)%Z then _ else _).
  assert (Hbuf : (zlen buf <= BUFFER_LIMIT)%Z).
  { subst buf. destruct (Z.leb_spec (zlen (buffer s)) BUFFER_LIMIT); [done|].
    apply slice_last_length, BUFFER_LIMIT_nonneg. }
  set (w3 := upd_session l (set_buffer []) _).
  assert (H3 : wf w3).
  { apply wf_upd; [done|]. session_facts. }
  pose proof (send_chunks_frame l ws send_ok (flush_chunks buf) 0 w3) as (Hs & Hh & _).
  destruct (send_chunks l ws send_ok 0 (flush_chunks buf) w3) as [w4 thrown].
  simpl in Hs, Hh.
  assert (H4 : wf w4) by (by apply (wf_same w3)).
  destruct thrown; [|done]. simpl.
  apply (wf_same (upd_session l
           (fun s' => set_buffer buf
              (set_subscribers (set_delete ws (subscribers s')) s')) w4)); [done|done|].
  apply wf_upd; [done|]. session_facts.
Qed.

Lemma exec_wf o w : wf w -> wf (exec o w).
Proof.
  intros Hw. destruct o; simpl.
  - by apply create_wf.
  - by apply onData_wf.
  - by apply onExit_wf.
  - unfold update. destruct (lookup_session i w) as [[l s]|]; [|done].
    set (w1 := match new_title with Some _ => _ | None => _ end).
    assert (H1 : wf w1).
    { subst w1. destruct new_title as [t|]; [|done]. destruct (truthy t); [|done].
      apply wf_upd; [done|]. session_facts. }
    set (w2 := match size with Some _ => _ | None => _ end).
    assert (H2 : wf w2).
    { subst w2. destruct size as [[rows cols]|]; [|done]. done. }
    destruct (heap w2 !! l); done.
  - unfold remove. destruct (lookup_session i w) as [[l s]|]; [|done].
    apply (wf_same (set_sessions (delete i (sessions w)) w)); [done|done|].
    by apply wf_delete.
  - unfold resize. destruct (lookup_session i w) as [[l s]|]; [|done].
    by destruct (status (info s)).
  - unfold write. destruct (lookup_session i w) as [[l s]|]; [|done].
    by destruct (status (info s)).
  - unfold listen. destruct (lookup_session i w) as [[l s]|]; [|done].
    destruct (status (info s)); [|done]. simpl.
    apply wf_upd; [done|]. session_facts.
  - unfold unlisten. apply wf_upd; [done|]. session_facts.
  - by apply connect_wf.
  - done.
  - unfold onClose. apply wf_upd; [done|]. session_facts.
Qed.

Lemma init_wf : wf init.
Proof.
  split; [apply Forall_nil_2|]. intros i l Hi. cbn in Hi.
  by rewrite lookup_empty in Hi.
Qed.

Lemma run_app ops1 ops2 w : run (ops1 ++ ops2) w = run ops2 (run ops1 w).
Proof. apply foldl_app. Qed.

Lemma run_wf ops : ∀ w, wf w -> wf (run ops w).
Proof.
  induction ops as [|o ops IH]; intros w Hw; [done|].
  simpl. apply IH. by apply exec_wf.
Qed.

(** *** What one call does to one session *)

Lemma upd_lookup l0 f w l :
  heap (upd_session l0 f w) !! l
  = if decide (l0 = l) then f <$> heap w !! l else heap w !! l.
Proof.
  simpl. case_decide as Hd.
  - subst. apply list_lookup_alter_eq.
  - by apply list_lookup_alter_ne.
Qed.

Lemma existsb_filter (ready : nat -> Z) (ks : list nat) :
  existsb (fun x => ready x =? 1)%Z ks
  = match filter (fun x => ready x = 1%Z) ks with [] => false | _ => true end.
Proof.
  induction ks as [|k ks IH]; [done|]. simpl.
  destruct (Z.eqb_spec (ready k) 1) as [He|He].
  - by rewrite filter_cons_True.
  - by rewrite filter_cons_False.
Qed.

(** The output handler on its own session. *)
Lemma onData_at l data ready throws w s :
  heap w !! l = Some s ->
  let r := onData l data ready throws w in
  let f := fanout ready throws (subscribers s) (subscribers s) [] false in
  r.2 = f.2 ∧ sessions r.1 = sessions w ∧ closedSinks r.1 = closedSinks w
  ∧ bus r.1 = bus w
  ∧ sent r.1 = sent w ++ map (fun k => (l, k, data)) f.1.1.2
  ∧ heap r.1 !! l
    = Some (set_buffer (if f.2 || f.1.2 then buffer s
                        else append_bounded (buffer s) data)
              (set_subscribers f.1.1.1 s))
  ∧ ∀ l', l' ≠ l -> heap r.1 !! l' = heap w !! l'.
Proof.
  intros Hl. unfold onData. rewrite Hl.
  destruct (fanout ready throws (subscribers s) (subscribers s) [] false)
    as [[[subs got] open] thrown].
  destruct thrown; [|destruct open]; simpl;
    rewrite ?list_lookup_alter_eq, ?Hl; simpl;
    rewrite ?list_lookup_alter_eq, ?Hl; simpl; split_and!; try done;
    intros l' Hne; by rewrite !list_lookup_alter_ne.
Qed.

Lemma onData_none l data ready throws w :
  heap w !! l = None -> onData l data ready throws w = (w, false).
Proof. intros Hl. unfold onData. by rewrite Hl. Qed.

(** When the handler returns, the chunk went to exactly the open
    subscribers, the others were dropped, and the buffer grew only when
    nobody was open. *)
Lemma onData_returns l data ready throws w s :
  heap w !! l = Some s ->
  let r := onData l data ready throws w in
  let got := filter (fun k => ready k = 1%Z) (subscribers s) in
  r.2 = false ->
  sent r.1 = sent w ++ map (fun k => (l, k, data)) got
  ∧ heap r.1 !! l
    = Some (set_buffer (match got with
                        | [] => slice_last BUFFER_LIMIT (buffer s ++ data)
                        | _ => buffer s
                        end)
              (set_subscribers got s)).
Proof.
  intros Hl r got Hr.
  destruct (onData_at l data ready throws w s Hl) as (H2 & _ & _ & _ & Hsent & Hh & _).
  fold r in H2, Hsent, Hh.
  destruct (fanout_spec ready throws (subscribers s) (subscribers s) [] false)
    as (pre & post & Hpp & Hsubs & Hgot & Hop).
  simpl in Hsubs, Hgot, Hop. rewrite <- H2 in Hop.
  destruct (Hop Hr) as [-> Hopen]. rewrite app_nil_r in Hpp. subst pre.
  rewrite Hsent, Hh, Hgot, Hsubs, <- H2, Hr, Hopen. simpl.
  rewrite existsb_filter. fold got. split; [done|]. f_equal.
  assert (Hf : filter (fun x => ¬ (x ∈ subscribers s ∧ ready x ≠ 1%Z)) (subscribers s) = got).
  { subst got. apply filter_iff_in. intros x Hx. split.
    - intros Hn. destruct (decide (ready x = 1%Z)); [done|]. destruct Hn. done.
    - intros Hx1 [_ Hne]. done. }
  rewrite Hf. destruct got; [|done]. by rewrite append_bounded_eq.
Qed.

(** *** The flush of [connect] *)

Lemma BUFFER_CHUNK_pos : (0 < BUFFER_CHUNK)%nat.
Proof. unfold BUFFER_CHUNK. lia. Qed.

Lemma chunk_slices_concat (b : list N) : ∀ fuel i,
  (length b - i <= fuel)%nat -> concat (chunk_slices fuel i b) = drop i b.
Proof.
  induction fuel as [|f IH]; intros i Hf; cbn [chunk_slices].
  - rewrite drop_ge by lia. done.
  - destruct (Nat.ltb_spec i (length b)) as [Hi|Hi].
    + cbn [concat]. rewrite IH by (pose proof BUFFER_CHUNK_pos; lia).
      unfold slice_at. rewrite <- drop_drop. apply take_drop.
    + rewrite drop_ge by lia. done.
Qed.

Lemma chunk_slices_small (b : list N) : ∀ fuel i,
  Forall (fun c => (length c <= BUFFER_CHUNK)%nat) (chunk_slices fuel i b).
Proof.
  induction fuel as [|f IH]; intros i; cbn [chunk_slices]; [done|].
  destruct (i <? length b)%nat; [|done].
  constructor; [|apply IH]. unfold slice_at. rewrite length_take. lia.
Qed.

Lemma flush_chunks_concat (b : list N) : concat (flush_chunks b) = b.
Proof. unfold flush_chunks. rewrite chunk_slices_concat by lia. apply drop_0. Qed.

Lemma flush_chunks_small (b : list N) :
  Forall (fun c => (length c <= BUFFER_CHUNK)%nat) (flush_chunks b).
Proof. apply chunk_slices_small. Qed.

Lemma pin_cwd_effect l0 s0 d w :
  sessions (pin_cwd l0 s0 d w) = sessions w
  ∧ sent (pin_cwd l0 s0 d w) = sent w
  ∧ closedSinks (pin_cwd l0 s0 d w) = closedSinks w
  ∧ (∀ l, l ≠ l0 -> heap (pin_cwd l0 s0 d w) !! l = heap w !! l)
  ∧ ∃ g, keeps_core g ∧ heap (pin_cwd l0 s0 d w) !! l0 = g <$> heap w !! l0.
Proof.
  assert (Hid : ∃ g, keeps_core g ∧ heap w !! l0 = g <$> heap w !! l0).
  { exists (fun x => x). split; [by intros x|]. by rewrite option_fmap_id. }
  unfold pin_cwd. destruct d as [d|]; [|by split_and!].
  destruct (truthy d && negb (cwdPinned s0)); [|by split_and!].
  destruct (negb (str_eqb d (cwd (info s0)))); simpl; split_and!; try done.
  - intros l Hne. by rewrite !list_lookup_alter_ne.
  - exists (fun x => map_info (set_cwd d) (set_cwdPinned true x)).
    split; [by intros x|]. rewrite !list_lookup_alter_eq.
    by destruct (heap w !! l0).
  - intros l Hne. by rewrite !list_lookup_alter_ne.
  - exists (set_cwdPinned true). split; [by intros x|].
    by rewrite list_lookup_alter_eq.
Qed.

Lemma slice_last_nil n : slice_last n [] = [].
Proof. unfold slice_last. apply drop_nil. Qed.

Lemma truncate_eq (b : list N) :
  (if (zlen b <=? BUFFER_LIMIT)%Z then b else slice_last BUFFER_LIMIT b)
  = slice_last BUFFER_LIMIT b.
Proof.
  destruct (Z.leb_spec (zlen b) BUFFER_LIMIT); [|done].
  symmetry. by apply slice_last_short.
Qed.

(** [connect] on a session of the table. *)
Lemma connect_at i k dir send_ok w l s :
  sessions w !! i = Some l -> heap w !! l = Some s ->
  let r := connect i k dir send_ok w in
  let cs := flush_chunks (slice_last BUFFER_LIMIT (buffer s)) in
  sessions r.1 = sessions w
  ∧ (∀ l', l' ≠ l -> heap r.1 !! l' = heap w !! l')
  ∧ ∃ n s1,
      sent r.1 = sent w ++ map (fun c => (l, k, c)) (take n cs)
      ∧ heap r.1 !! l = Some s1
      ∧ ((r.2 = Some (mkHandlers l k) ∧ take n cs = cs ∧ buffer s1 = []
          ∧ subscribers s1 = set_add k (subscribers s)
          ∧ closedSinks r.1 = closedSinks w)
         ∨ (r.2 = None ∧ (n < length cs)%nat ∧ send_ok n = false
            ∧ buffer s1 = slice_last BUFFER_LIMIT (buffer s)
            ∧ subscribers s1 = set_delete k (set_add k (subscribers s))
            ∧ closedSinks r.1 = closedSinks w ++ [k])).
Proof.
  intros Hi Hl r cs. subst r. unfold connect.
  assert (Hls : lookup_session i w = Some (l, s)) by (by apply lookup_session_Some).
  rewrite Hls. rewrite truncate_eq. fold cs.
  set (w1 := upd_session l _ w).
  destruct (pin_cwd_effect l s (option_map trim dir) w1)
    as (Hp1 & Hp2 & Hp3 & Hp4 & g & Hg & Hp5).
  set (w2 := pin_cwd l s (option_map trim dir) w1) in *.
  assert (H2 : heap w2 !! l = Some (g (set_subscribers (set_add k (subscribers s)) s))).
  { rewrite Hp5. subst w1. simpl. by rewrite list_lookup_alter_eq, Hl. }
  assert (Hother : ∀ l', l' ≠ l -> heap w2 !! l' = heap w !! l').
  { intros l' Hne. rewrite Hp4 by done. subst w1. simpl.
    by rewrite list_lookup_alter_ne. }
  destruct (Hg (set_subscribers (set_add k (subscribers s)) s)) as (Hgb & Hgs & _).
  simpl in Hgb, Hgs.
  destruct (truthy (buffer s)) eqn:Htr.
  - set (w3 := upd_session l (set_buffer []) w2).
    pose proof (send_chunks_frame l k send_ok cs 0 w3)
      as (Hs1 & Hs2 & Hs3 & _ & _ & _ & n & Hs4 & Hs5 & Hs6).
    destruct (send_chunks l k send_ok 0 cs w3) as [w4 thrown].
    simpl in Hs1, Hs2, Hs3, Hs4, Hs5, Hs6.
    destruct thrown; simpl.
    + split_and!; [by rewrite Hs1|..].
      * intros l' Hne. rewrite list_lookup_alter_ne, Hs2 by done.
        rewrite list_lookup_alter_ne by done. by apply Hother.
      * eexists n, _. split_and!.
        -- by rewrite Hs4, Hp2.
        -- rewrite list_lookup_alter_eq, Hs2, list_lookup_alter_eq, H2. done.
        -- right. destruct (Hs6 eq_refl) as [Hn Hf]. simpl.
           split_and!; try done. by rewrite Hgs. by rewrite Hs3, Hp3.
    + split_and!; [by rewrite Hs1|..].
      * intros l' Hne. rewrite Hs2.
        rewrite list_lookup_alter_ne by done. by apply Hother.
      * eexists n, _. split_and!.
        -- by rewrite Hs4, Hp2.
        -- rewrite Hs2, list_lookup_alter_eq, H2. done.
        -- left. simpl. split_and!; try done. by apply Hs5. by rewrite Hs3, Hp3.
  - destruct (buffer s) as [|c b] eqn:Hb; [|done]. simpl.
    split_and!; [done|done|].
    exists 0%nat, (g (set_subscribers (set_add k (subscribers s)) s)).
    split_and!; try done; try (simpl; by rewrite app_nil_r).
    left. assert (Hcs : cs = []) by (subst cs; by rewrite slice_last_nil).
    rewrite Hcs. by split_and!.
Qed.

(** [connect] with an id that is not in the table. *)
Lemma connect_absent i k dir send_ok w :
  sessions w !! i = None -> connect i k dir send_ok w = (ws_close k w, None).
Proof. intros Hi. unfold connect, lookup_session. by rewrite Hi. Qed.

(** *** What was delivered *)

Lemma delivered_in_app l k es1 es2 :
  delivered_in l k (es1 ++ es2) = delivered_in l k es1 ++ delivered_in l k es2.
Proof. unfold delivered_in. by rewrite omap_app, concat_app. Qed.

Lemma delivered_in_other l k (es : list (nat * nat * list N)) :
  Forall (fun e => ¬ (e.1.1 = l ∧ e.1.2 = k)) es -> delivered_in l k es = [].
Proof.
  induction 1 as [|[[l0 k0] d] es He _ IH]; [done|].
  unfold delivered_in in *. simpl in *. case_decide; [done|]. apply IH.
Qed.

Lemma delivered_in_one l k (d : list N) : delivered_in l k [(l, k, d)] = d.
Proof.
  unfold delivered_in. simpl. case_decide as Hd; [|by destruct Hd].
  simpl. apply app_nil_r.
Qed.

Lemma delivered_in_chunks l k (cs : list (list N)) :
  delivered_in l k (map (fun c => (l, k, c)) cs) = concat cs.
Proof.
  induction cs as [|c cs IH]; [done|].
  change (map (fun c0 => (l, k, c0)) (c :: cs))
    with ([(l, k, c)] ++ map (fun c0 => (l, k, c0)) cs).
  by rewrite delivered_in_app, delivered_in_one, IH.
Qed.

Lemma delivered_in_fanout l k d (got : list nat) :
  NoDup got -> k ∈ got ->
  delivered_in l k (map (fun k0 => (l, k0, d)) got) = d.
Proof.
  induction 1 as [|k0 got Hk0 Hnd IH]; intros Hk.
  - by apply not_elem_of_nil in Hk.
  - change (map (fun k1 => (l, k1, d)) (k0 :: got))
      with ([(l, k0, d)] ++ map (fun k1 => (l, k1, d)) got).
    rewrite delivered_in_app. apply elem_of_cons in Hk as [->|Hk].
    + rewrite (delivered_in_other l k0 (map _ got)).
      * by rewrite delivered_in_one, app_nil_r.
      * apply Forall_map. apply Forall_forall. intros x Hx [_ Hxk]. simpl in Hxk.
        by subst.
    + rewrite IH by done. rewrite (delivered_in_other l k [_]); [done|].
      apply Forall_singleton. simpl. intros [_ ->]. done.
Qed.

Lemma delivered_sent l k w w' es :
  sent w' = sent w ++ es ->
  delivered l k w' = delivered l k w ++ delivered_in l k es.
Proof. unfold delivered. intros ->. apply delivered_in_app. Qed.

(** *** A subscriber that stays attached *)

Lemma attached_upd l k l0 g w :
  keeps_core g -> attached l k w -> attached l k (upd_session l0 g w).
Proof.
  intros Hg (s & Hl & Hk & Hb). unfold attached. rewrite upd_lookup.
  case_decide; [|by exists s]. exists (g s). rewrite Hl. simpl.
  destruct (Hg s) as (-> & -> & _). done.
Qed.

Lemma attached_same l k w w' :
  heap w' = heap w -> attached l k w -> attached l k w'.
Proof. unfold attached. by intros ->. Qed.

Lemma step_attached l k o w :
  wf w -> attached l k w -> step_ok l k o w ->
  attached l k (exec o w)
  ∧ delivered l k (exec o w) = delivered l k w ++ output_of l o.
Proof.
  intros Hw Ha Hok. pose proof Ha as (s & Hl & Hk & Hb).
  destruct o as [input i0 p sh d|l0 d ready throws|l0 c|i0 t sz|i0|i0 c r|i0 d
                |i0 f|l0 f|i0 k0 d send_ok|h m|h]; simpl.
  - (* create *)
    split; [|by rewrite app_nil_r]. exists s. split; [|done].
    simpl. by apply lookup_app_l_Some.
  - (* output handler *)
    case_decide as Hd.
    + subst l0. destruct (Hok eq_refl) as [Hr Hth].
      destruct (onData_returns l d ready throws w s Hl Hth) as [Hsent Hh].
      assert (Hin : k ∈ filter (fun k0 => ready k0 = 1%Z) (subscribers s)).
      { by apply list_elem_of_filter. }
      assert (Hnd : NoDup (filter (fun k0 => ready k0 = 1%Z) (subscribers s))).
      { apply NoDup_filter. destruct Hw as [Hs _].
        by destruct (Forall_lookup_1 _ _ _ _ Hs Hl). }
      split.
      * eexists. split; [exact Hh|]. simpl. split; [done|].
        destruct (filter _ (subscribers s)); [by apply not_elem_of_nil in Hin|done].
      * rewrite (delivered_sent l k w _ _ Hsent).
        by rewrite delivered_in_fanout.
    + rewrite app_nil_r. destruct (heap w !! l0) as [s0|] eqn:Hl0.
      * destruct (onData_at l0 d ready throws w s0 Hl0)
          as (_ & _ & _ & _ & Hsent & _ & Hfr).
        split.
        -- exists s. by rewrite Hfr.
        -- rewrite (delivered_sent l k w _ _ Hsent).
           rewrite delivered_in_other; [by rewrite app_nil_r|].
           apply Forall_map, Forall_forall. intros x _ [Hx _]. done.
      * by rewrite onData_none.
  - (* exit handler *)
    rewrite app_nil_r. unfold onExit. destruct (heap w !! l0); [|done].
    split; [|done].
    apply (attached_same l k (upd_session l0 (map_info (set_status exited)) w));
      [done|].
    (* the status changes, buffer and subscribers do not *)
    destruct Ha as (s' & Hl' & Hk' & Hb'). unfold attached. rewrite upd_lookup.
    case_decide; [|by exists s']. exists (map_info (set_status exited) s').
    by rewrite Hl'.
  - (* update *)
    rewrite app_nil_r. unfold update.
    destruct (lookup_session i0 w) as [[l1 s1]|]; [|done].
    set (w1 := match t with Some _ => _ | None => _ end).
    assert (H1 : attached l k w1 ∧ sent w1 = sent w).
    { subst w1. destruct t as [t|]; [|done]. destruct (truthy t); [|done].
      split; [|done]. by apply attached_upd. }
    set (w2 := match sz with Some _ => _ | None => _ end).
    assert (H2 : attached l k w2 ∧ sent w2 = sent w).
    { subst w2. by destruct sz as [[rows cols]|]. }
    destruct H2 as [H2 H2']. unfold delivered.
    destruct (heap w2 !! l1); simpl; by rewrite ?H2'.
  - (* remove *)
    rewrite app_nil_r. unfold remove.
    by destruct (lookup_session i0 w) as [[l1 s1]|].
  - (* resize *)
    rewrite app_nil_r. unfold resize.
    destruct (lookup_session i0 w) as [[l1 s1]|]; [|done].
    by destruct (status (info s1)).
  - (* write *)
    rewrite app_nil_r. unfold write.
    destruct (lookup_session i0 w) as [[l1 s1]|]; [|done].
    by destruct (status (info s1)).
  - (* listen *)
    rewrite app_nil_r. unfold listen.
    destruct (lookup_session i0 w) as [[l1 s1]|]; [|done].
    destruct (status (info s1)); [|done]. simpl. split; [|done].
    destruct Ha as (s' & Hl' & Hk' & Hb'). unfold attached. rewrite upd_lookup.
    case_decide; [|by exists s']. eexists. rewrite Hl'. simpl. done.
  - (* the closure returned by listen *)
    rewrite app_nil_r. unfold unlisten. split; [|done].
    destruct Ha as (s' & Hl' & Hk' & Hb'). unfold attached. rewrite upd_lookup.
    case_decide; [|by exists s']. eexists. rewrite Hl'. simpl. done.
  - (* connect *)
    rewrite app_nil_r. destruct (sessions w !! i0) as [l0|] eqn:Hi0.
    2:{ by rewrite connect_absent. }
    destruct Hw as [Hs Ht]. destruct (Ht i0 l0 Hi0) as (s0 & Hl0 & _).
    destruct (connect_at i0 k0 d send_ok w l0 s0 Hi0 Hl0)
      as (_ & Hfr & n & s1 & Hsent & Hh & Hcase).
    destruct (decide (l0 = l)) as [->|Hne].
    + rewrite Hl in Hl0. injection Hl0 as <-. rewrite Hb in *.
      rewrite slice_last_nil in *. change (flush_chunks []) with (@nil (list N)) in *.
      destruct Hcase as [(_ & _ & Hb1 & Hs1 & _)|(_ & Hn & _)]; [|simpl in Hn; lia].
      split.
      * exists s1. split; [done|]. split; [|done]. rewrite Hs1.
        by apply set_add_mono.
      * rewrite (delivered_sent l k w _ _ Hsent). rewrite take_nil. simpl.
        by rewrite app_nil_r.
    + split.
      * exists s. by rewrite Hfr.
      * rewrite (delivered_sent l k w _ _ Hsent).
        rewrite delivered_in_other; [by rewrite app_nil_r|].
        apply Forall_map, Forall_forall. intros x _ [Hx _]. done.
  - (* message handler *)
    by rewrite app_nil_r.
  - (* close handler *)
    rewrite app_nil_r. split; [|done]. unfold onClose.
    unfold attached. rewrite upd_lookup. case_decide as Hd; [|by exists s].
    eexists. rewrite Hl. simpl. split; [done|]. split; [|done].
    apply set_delete_elem. split; [|done]. intros ->. apply Hok.
    destruct h. simpl in *. by subst.
Qed.

Lemma run_attached l k ops : ∀ w,
  wf w -> attached l k w -> stays_attached l k ops w ->
  delivered l k (run ops w) = delivered l k w ++ child_output l ops.
Proof.
  induction ops as [|o ops IH]; intros w Hw Ha Hst.
  - unfold child_output. simpl. by rewrite app_nil_r.
  - destruct Hst as [Hok Hst].
    destruct (step_attached l k o w Hw Ha Hok) as [Ha' Hd'].
    simpl. rewrite IH by (try done; by apply exec_wf).
    rewrite Hd', <- app_assoc. f_equal.
    unfold child_output, output_of. simpl.
    destruct o; try done. case_decide; done.
Qed.

(** *** Properties of the multiplexer *)

Lemma reachable_wf ops : wf (run ops init).
Proof. apply run_wf, init_wf. Qed.

Lemma reachable_session ops l s :
  heap (run ops init) !! l = Some s -> session_ok s.
Proof.
  intros Hl. destruct (reachable_wf ops) as [Hs _].
  by apply (Forall_lookup_1 _ _ _ _ Hs Hl).
Qed.

(** Late-join replay. Let [w] be any state the multiplexer reaches,
    [s] the session of id [i] in it and [backlog] the trailing 2 MiB of its
    buffer (which is the whole buffer). When sink [k] connects:
    - if no send of the flush throws, [connect] returns the handlers;
    - if [connect] returns the handlers, the backlog was sent to [k] in
      chunks of at most 64 KiB each, in order and before anything else,
      and the buffer of the session is empty; whatever calls follow, as
      long as [k] stays open and attached and no output handler is left
      by a [ws.send] that throws, the code units the session delivered to
      [k] are the backlog followed by exactly the output of the child
      after the connect;
    - if a send of the flush throws, [connect] returns [undefined], the
      buffer is the backlog again, [k] is no longer a subscriber and is
      closed, and a sink that connects afterwards is sent the whole
      backlog. *)
Theorem late_join_replay (ops0 : list Op) (i : list N) (l : nat)
    (s : ActiveSession) (k : nat) (dir : option (list N))
    (send_ok : nat -> bool) :
  let w := run ops0 init in
  let backlog := slice_last BUFFER_LIMIT (buffer s) in
  let r := connect i k dir send_ok w in
  sessions w !! i = Some l -> heap w !! l = Some s ->
  backlog = buffer s
  ∧ ((∀ n, send_ok n = true) -> r.2 = Some (mkHandlers l k))
  ∧ match r.2 with
    | Some h =>
        h = mkHandlers l k
        ∧ (∃ cs, sent r.1 = sent w ++ map (fun c => (l, k, c)) cs
                 ∧ concat cs = backlog
                 ∧ Forall (fun c => (zlen c <= 64 * 1024)%Z) cs)
        ∧ (∃ s1, heap r.1 !! l = Some s1 ∧ buffer s1 = [])
        ∧ ∀ ops, stays_attached l k ops r.1 ->
            delivered l k (run ops r.1)
            = delivered l k w ++ backlog ++ child_output l ops
    | None =>
        (∃ n, send_ok n = false)
        ∧ (∃ s1, heap r.1 !! l = Some s1 ∧ buffer s1 = backlog
                 ∧ k ∉ subscribers s1)
        ∧ closedSinks r.1 = closedSinks w ++ [k]
        ∧ ∀ k' dir' send_ok',
            (connect i k' dir' send_ok' r.1).2 ≠ None ->
            delivered l k' (connect i k' dir' send_ok' r.1).1
            = delivered l k' r.1 ++ backlog
    end.
Proof.
  intros w backlog r Hi Hl.
  assert (Hw : wf w) by apply reachable_wf.
  destruct (reachable_session ops0 l s Hl) as [Hbound Hnd].
  assert (Hback : backlog = buffer s) by (by apply slice_last_short).
  destruct (connect_at i k dir send_ok w l s Hi Hl)
    as (Hses & _ & n & s1 & Hsent & Hh & Hcase).
  fold r in Hses, Hsent, Hh, Hcase. fold backlog in Hsent, Hcase.
  split; [done|]. split.
  { intros Hall. destruct Hcase as [(Hr & _)|(_ & _ & Hf & _)]; [done|].
    rewrite Hall in Hf. done. }
  destruct Hcase as [(Hr & Hn & Hb1 & Hs1 & _)|(Hr & _ & Hf & Hb1 & Hs1 & Hc)];
    rewrite Hr.
  - rewrite Hn in Hsent. split_and!.
    + done.
    + eexists. split_and!; [exact Hsent|apply flush_chunks_concat|].
      eapply Forall_impl; [apply flush_chunks_small|].
      intros c Hc. simpl in Hc. unfold zlen, BUFFER_CHUNK in *. lia.
    + by exists s1.
    + intros ops Hst.
      rewrite (run_attached l k ops).
      * rewrite (delivered_sent l k w _ _ Hsent), delivered_in_chunks.
        by rewrite flush_chunks_concat, <- app_assoc.
      * by apply connect_wf.
      * exists s1. split_and!; try done. rewrite Hs1. apply set_add_elem.
      * done.
  - split_and!.
    + by exists n.
    + exists s1. split_and!; try done. rewrite Hs1. intros Hin.
      apply set_delete_elem in Hin as [Hne _]. done.
    + done.
    + intros k' dir' send_ok' Hsome.
      assert (Hi' : sessions r.1 !! i = Some l) by (by rewrite Hses).
      destruct (connect_at i k' dir' send_ok' r.1 l s1 Hi' Hh)
        as (_ & _ & n' & s2 & Hsent' & _ & Hcase').
      destruct Hcase' as [(_ & Hn' & _)|(Hnone & _)]; [|done].
      rewrite Hn', Hb1 in Hsent'.
      rewrite (delivered_sent l k' r.1 _ _ Hsent'), delivered_in_chunks.
      rewrite flush_chunks_concat. f_equal. subst backlog.
      rewrite Hback. by apply slice_last_short.
Qed.

(** C1 on the input that breaks it. Sinks 1 and 2 are attached to the
    session, with nothing in the backlog, and stay open and subscribed.
    The child writes X: the loop over the subscribers calls [ws.send] of
    sink 1 outside any [try], it throws, and the handler is left before
    sink 2 is reached and before the chunk is buffered. The child then
    writes Y. The output of the child after the connects is XY, and what
    the session delivered to sink 2 is Y: the chunk X was neither sent
    to sink 2 nor kept for a replay. *)
Theorem throwing_send_loses_output :
  attached 0 2 (run (take 3 lost_chunk) init)
  ∧ stays_attached 0 2 (drop 4 lost_chunk) (run (take 4 lost_chunk) init)
  ∧ (onData 0 (js "X") all_open (throws_at 1) (run (take 3 lost_chunk) init)).2 = true
  ∧ child_output 0 (drop 3 lost_chunk) = js "XY"
  ∧ delivered 0 2 (run lost_chunk init) = js "Y"
  ∧ ∃ s, heap (run lost_chunk init) !! 0%nat = Some s
         ∧ buffer s = [] ∧ subscribers s = [1%nat; 2%nat].
Proof.
  split_and!.
  - eexists. split_and!; [vm_compute; reflexivity| |vm_compute; reflexivity].
    apply (bool_decide_unpack _). vm_compute. exact I.
  - simpl. split; [|done]. intros _. split; vm_compute; reflexivity.
  - vm_compute. reflexivity.
  - vm_compute. reflexivity.
  - vm_compute. reflexivity.
  - eexists. split_and!; vm_compute; reflexivity.
Qed.


(** C8, as the code has it. When the child of a session exits, the exit
    handler marks the session object exited, publishes the exited event
    with the id and the exit code and removes the id from the session
    table; it sends nothing, closes no sink and leaves the subscriber and
    listener sets of the session object as they were. In every state the
    multiplexer reaches, every session of the session table is running. *)
Theorem exit_handler_effect (ops : list Op) (l : nat) (s : ActiveSession)
    (exitCode : Z) :
  heap (run ops init) !! l = Some s ->
  let w := run ops init in
  let w' := onExit l exitCode w in
  heap w' !! l = Some (map_info (set_status exited) s)
  ∧ subscribers (map_info (set_status exited) s) = subscribers s
  ∧ listeners (map_info (set_status exited) s) = listeners s
  ∧ bus w' = bus w ++ [Exited (id (info s)) exitCode]
  ∧ sessions w' = delete (id (info s)) (sessions w)
  ∧ sent w' = sent w ∧ closedSinks w' = closedSinks w
  ∧ table_running w ∧ table_running w'.
Proof.
  intros Hl w w'. subst w'. unfold onExit. fold w in Hl. rewrite Hl. simpl.
  rewrite list_lookup_alter_eq, Hl. split_and!; try done.
  - intros i l0 s0 Hi Hl0. destruct (reachable_wf ops) as [_ Ht].
    destruct (Ht i l0 Hi) as (s1 & Hl1 & _ & Hst). fold w in Hl1. congruence.
  - assert (Hw' : wf (onExit l exitCode w)) by apply onExit_wf, reachable_wf.
    unfold onExit in Hw'. rewrite Hl in Hw'. destruct Hw' as [_ Ht].
    intros i l0 s0 Hi Hl0. destruct (Ht i l0 Hi) as (s1 & Hl1 & _ & Hst).
    simpl in Hl0, Hl1. congruence.
Qed.

(** C8 in the words of the specification does not hold: after a session
    with a subscriber and a listener exits, its status is exited while
    both sets are non-empty. *)
Lemma exit_keeps_subscribers : ¬ exited_detached (run exit_attached init).
Proof.
  intros H.
  assert (Hl : heap (run exit_attached init) !! 0%nat
               = Some (mkSession
                         (mkInfo (js "pty_0001") (js "Terminal 0001") (js "/bin/zsh")
                            [js "-l"] (js "/w") exited 42)
                         [] [1%nat] [7%nat] false))
    by (vm_compute; reflexivity).
  destruct (H _ _ Hl eq_refl) as [Hsub _]. discriminate Hsub.
Qed.

(** C10. [connect] with an id that is not in the session table closes the
    sink and returns [undefined]; the session table, every session object
    (buffers and subscriber sets included) and the other traces are left
    as they were. *)
Theorem connect_unknown_session (i : list N) (k : nat) (dir : option (list N))
    (send_ok : nat -> bool) (w : World) :
  sessions w !! i = None ->
  let r := connect i k dir send_ok w in
  r.2 = None
  ∧ closedSinks r.1 = closedSinks w ++ [k]
  ∧ sessions r.1 = sessions w ∧ heap r.1 = heap w ∧ sent r.1 = sent w
  ∧ bus r.1 = bus w ∧ procLog r.1 = procLog w ∧ heard r.1 = heard w.
Proof. intros Hi r. subst r. rewrite connect_absent by done. by split_and!. Qed.

Lemma backlog_ABC_table : sessions (run backlog_ABC init) !! js "pty_0001" = Some 0%nat.
Proof. vm_compute. reflexivity. Defined.

Lemma backlog_ABC_heap : heap (run backlog_ABC init) !! 0%nat = Some session_ABC.
Proof. vm_compute. reflexivity. Defined.

Lemma late_join_replay_witness :
  sessions (run backlog_ABC init) !! js "pty_0001" = Some 0%nat
  ∧ heap (run backlog_ABC init) !! 0%nat = Some session_ABC
  ∧ delivered 0 1
      (run [OpData 0 (js "DE") all_open never]
         (connect (js "pty_0001") 1 None always (run backlog_ABC init)).1)
    = js "ABCDE"
  ∧ closedSinks (connect (js "pty_0001") 1 None (fun _ => false) (run backlog_ABC init)).1
    = [1%nat].
Proof.
  split; [exact backlog_ABC_table|]. split; [exact backlog_ABC_heap|]. split.
  - pose proof (late_join_replay backlog_ABC (js "pty_0001") 0 session_ABC 1 None
                  always backlog_ABC_table backlog_ABC_heap) as (_ & Hsome & Hcase).
    rewrite (Hsome (fun _ => eq_refl)) in Hcase.
    destruct Hcase as (_ & _ & _ & Hrun).
    rewrite Hrun.
    + vm_compute. reflexivity.
    + split; [|exact I]. intros _. split; [reflexivity|]. vm_compute. reflexivity.
  - pose proof (late_join_replay backlog_ABC (js "pty_0001") 0 session_ABC 1 None
                  (fun _ => false) backlog_ABC_table backlog_ABC_heap) as (_ & _ & Hcase).
    assert (Hnone : (connect (js "pty_0001") 1 None (fun _ => false)
                       (run backlog_ABC init)).2 = None) by (vm_compute; reflexivity).
    rewrite Hnone in Hcase. destruct Hcase as (_ & _ & Hclosed & _).
    rewrite Hclosed. vm_compute. reflexivity.
Defined.


Lemma exit_handler_effect_witness :
  heap (run backlog_ABC init) !! 0%nat = Some session_ABC
  ∧ bus (onExit 0 5 (run backlog_ABC init))
    = bus (run backlog_ABC init) ++ [Exited (js "pty_0001") 5].
Proof.
  split; [exact backlog_ABC_heap|].
  destruct (exit_handler_effect backlog_ABC 0 session_ABC 5 backlog_ABC_heap)
    as (_ & _ & _ & Hbus & _).
  exact Hbus.
Defined.

Lemma backlog_ABC_absent : sessions (run backlog_ABC init) !! js "pty_9999" = None.
Proof. vm_compute. reflexivity. Defined.

Lemma connect_unknown_session_witness :
  sessions (run backlog_ABC init) !! js "pty_9999" = None
  ∧ (connect (js "pty_9999") 3 None always (run backlog_ABC init)).2 = None.
Proof.
  split; [exact backlog_ABC_absent|].
  destruct (connect_unknown_session (js "pty_9999") 3 None always
              (run backlog_ABC init) backlog_ABC_absent) as (Hr & _).
  exact Hr.
Defined.

End PtySpec.

(** ** The model of JSON.parse and JSON.stringify on examples *)

Module JsonExamples.
Import Json.

Example parse_tool_call :
  parse (jq "{'opencode':{'tool_calls':[{'name':'ide.hover','arguments':{'line':1}}]}}")
  = Some (JObj [(js "opencode",
                 JObj [(js "tool_calls",
                        JArr [JObj [(js "name", JStr (js "ide.hover"));
                                    (js "arguments", JObj [(js "line", JNum 1)])]])])]).
Proof. vm_compute. reflexivity. Qed.

Example parse_two_objects : parse (jq "{'a':1} {'b':2}") = None.
Proof. vm_compute. reflexivity. Qed.

Example parse_escapes :
  parse (jq "{'k':'a\nA\'b'}") = Some (JObj [(js "k", JStr (jq "a" ++ [10; 65; 34; 98]%N))]).
Proof. vm_compute. reflexivity. Qed.

Example parse_duplicate_and_index_keys :
  parse (jq "{'b':1,'2':2,'b':[true,null],'1':-3.5e2}")
  = Some (JObj [(js "1", JNumLex (js "-3.5e2")); (js "2", JNum 2);
                (js "b", JArr [JBool true; JNull])]).
Proof. vm_compute. reflexivity. Qed.

Example stringify_arguments :
  stringify (JObj [(js "uri", JStr (js "a.ts")); (js "line", JNum 1);
                   (js "character", JNum 0)])
  = jq "{'uri':'a.ts','line':1,'character':0}".
Proof. vm_compute. reflexivity. Qed.

Example stringify_negative : stringify (JArr [JNum (-120); JStr [10; 34]%N]) = jq "[-120,'\n\'']".
Proof. vm_compute. reflexivity. Qed.

(** Numbers are printed as the doubles they are. *)
Example stringify_numbers :
  option_map stringify
    (parse (js "[1.50,1e2,1e21,0.0000001,12345678901234567890,1e999,-0,0.1]"))
  = Some (js "[1.5,100,1e+21,1e-7,12345678901234567000,null,0,0.1]").
Proof. vm_compute. reflexivity. Qed.

Example tiny_number_is_falsy :
  truthy_value (parse (js "1e-400")) = false
  ∧ truthy_value (parse (js "0.50")) = true.
Proof. vm_compute. done. Qed.

End JsonExamples.

(** ** Prompt-mode tool calling *)

Module OllamaSpec.
Import Json Ollama.

(** Scenario 2 of the specification, with the line terminated. *)
Example stream_tool_call :
  doStream parse stringify true 200
    (Some [jq "{'message':{'content':'{\'opencode\':{\'tool_calls\':[{\'name\':\'ide.hover\',\'arguments\':{\'uri\':\'a.ts\',\'line\':1,\'character\':0}}]}}'},'done':true}"
           ++ [10]%N])
    false true 0
  = Ok ([StreamStart;
         ToolCallPart 0 (Some (JStr (js "ide.hover")))
           (jq "{'uri':'a.ts','line':1,'character':0}");
         Finish tool_calls], 1).
Proof. vm_compute. reflexivity. Qed.

(** Scenario 1 of the specification. *)
Example generate_hello :
  doGenerate parse stringify true 200
    (jq "{'message':{'content':'hello'},'prompt_eval_count':1,'eval_count':1,'done':true}")
    false 0
  = Ok (mkGenerated [Text (js "hello")] stop, 0).
Proof. vm_compute. reflexivity. Qed.

Example two_objects_text :
  response_text (parse two_objects_response) = two_objects.
Proof. vm_compute. reflexivity. Qed.

Example two_objects_spec :
  spec_extractJson parse two_objects
  = Some (JObj [(js "opencode", JObj [(js "final", JStr (js "a"))])]).
Proof. vm_compute. reflexivity. Qed.

Example two_objects_code : extractJson parse two_objects = None.
Proof. vm_compute. reflexivity. Qed.

(** Tool calls beside an [opencode] object are not looked at: the
    answer is one text part, the raw text. *)
Example opencode_hides_root_calls :
  response_text (parse shadowed_calls_response) = shadowed_calls
  ∧ doGenerate parse stringify true 200 shadowed_calls_response true 0
    = Ok (mkGenerated [Text shadowed_calls] stop, 0).
Proof. vm_compute. done. Qed.

#[local] Arguments opt_get : simpl never.

Section AdapterSpec.

Variable JSON_parse : list N -> option json.
Variable JSON_stringify : json -> list N.

(** *** The parser never throws *)

Lemma get_guarded v k : is_string (opt_get v k) = true -> get v k = Ok (opt_get v k).
Proof. by destruct v as [[]|]. Qed.

Lemma pick_string (v : option json) :
  (if is_string v then v else None) = option_map JStr (as_string v).
Proof. by destruct v as [[]|]. Qed.

Lemma string_prop_ok v k :
  string_prop v k = Ok (option_map JStr (as_string (opt_get v k))).
Proof.
  unfold string_prop. rewrite <- pick_string.
  destruct (is_string (opt_get v k)) eqn:E; [|done]. by apply get_guarded.
Qed.

Lemma call_entry_ok call :
  call_entry call
  = Ok (if truthy_value (entry_name call)
        then Some (mkCall (entry_name call) (entry_arguments call)) else None).
Proof.
  unfold call_entry, entry_name, entry_arguments.
  destruct (is_string (opt_get (Some call) "name")) eqn:E1.
  - rewrite get_guarded by done. cbn [bind].
    by destruct (truthy_value (opt_get (Some call) "name")).
  - destruct (is_string (opt_get (Some call) "tool")) eqn:E2.
    + rewrite get_guarded by done. cbn [bind].
      by destruct (truthy_value (opt_get (Some call) "tool")).
    + done.
Qed.

Lemma mapM_ok {A B} (f : A -> outcome B) (g : A -> B) (l : list A) :
  (∀ x, f x = Ok (g x)) -> mapM f l = Ok (map g l).
Proof.
  intros Hf. induction l as [|a l IH]; [done|].
  simpl. by rewrite Hf, IH.
Qed.

Lemma omap_id_map {A B} (g : A -> option B) (l : list A) :
  omap (fun x => x) (map g l) = omap g l.
Proof.
  induction l as [|a l IH]; [done|].
  cbn. destruct (g a); cbn; by rewrite <- IH.
Qed.

Lemma final_chain root :
  (a <- string_prop root "final" ;;
   coalesce_lazy a
     (b <- string_prop root "content" ;;
      coalesce_lazy b (string_prop root "text")))
  = Ok (option_map JStr (final_text root)).
Proof.
  unfold final_text. rewrite !string_prop_ok. simpl.
  destruct (as_string (opt_get root "final")); simpl; [done|].
  destruct (as_string (opt_get root "content")); simpl; done.
Qed.

(** The code computes the answer worded by [prompt_answer], and does not
    throw. *)
Lemma parsePromptToolCall_spec text :
  parsePromptToolCall JSON_parse text = Ok (prompt_answer JSON_parse text).
Proof.
  unfold parsePromptToolCall, prompt_answer.
  fold (root_of (extractJson JSON_parse text)).
  set (root := root_of (extractJson JSON_parse text)).
  fold (tool_calls_of root).
  assert (Hfinal :
    (finalText <- (a <- string_prop root "final" ;;
                   coalesce_lazy a
                     (b <- string_prop root "content" ;;
                      coalesce_lazy b (string_prop root "text"))) ;;
     match finalText with
     | Some (JStr t) => Ok (Final t)
     | _ => Ok (Final text)
     end) = Ok (Final (nullish (final_text root) text))).
  { rewrite final_chain. simpl. by destruct (final_text root). }
  destruct (tool_calls_of root) as [[| | | | |entries|]|]; cbn [bind];
    try exact Hfinal.
  destruct entries as [|c cs]; [exact Hfinal|].
  rewrite (mapM_ok call_entry _ (c :: cs) call_entry_ok).
  cbn [bind]. rewrite omap_id_map. unfold named_calls.
  destruct (omap _ (c :: cs)); [exact Hfinal|done].
Qed.

Lemma named_calls_named toolCalls :
  Forall (fun c => ∃ s, name c = Some (JStr s) ∧ s ≠ []) (named_calls toolCalls).
Proof.
  unfold named_calls. destruct toolCalls as [[| | | | |entries|]|]; try done.
  induction entries as [|e entries IH]; [done|]. simpl.
  destruct (truthy_value (entry_name e)) eqn:Ht; [|done].
  constructor; [|done]. simpl. revert Ht. unfold entry_name.
  destruct (is_string (opt_get (Some e) "name")) eqn:E1.
  - destruct (opt_get (Some e) "name") as [[| | | |s| |]|]; try done.
    intros Ht. exists s. split; [done|]. by destruct s.
  - destruct (is_string (opt_get (Some e) "tool")) eqn:E2; [|done].
    destruct (opt_get (Some e) "tool") as [[| | | |s| |]|]; try done.
    intros Ht. exists s. split; [done|]. by destruct s.
Qed.

Lemma named_calls_arguments toolCalls :
  Forall (fun c => coalesce_def (Some (arguments c)) (JObj []) = arguments c)
    (named_calls toolCalls).
Proof.
  unfold named_calls. destruct toolCalls as [[| | | | |entries|]|]; try done.
  induction entries as [|e entries IH]; [done|]. simpl.
  destruct (truthy_value (entry_name e)); [|done].
  constructor; [|done]. simpl. unfold entry_arguments.
  by destruct (coalesce _ _) as [[]|].
Qed.

(** *** Extraction *)

Lemma extractJson_span text (pre mid post : list N) :
  trim text = pre ++ 123%N :: mid ++ 125%N :: post ->
  123%N ∉ pre -> 125%N ∉ post ->
  extractJson JSON_parse text = JSON_parse (123%N :: mid ++ [125%N]).
Proof.
  intros Ht Hpre Hpost. unfold extractJson. rewrite Ht.
  assert (Htr : truthy (pre ++ 123%N :: mid ++ 125%N :: post) = true)
    by (by destruct pre).
  rewrite Htr. cbn [negb].
  rewrite indexOf_app by done.
  change (pre ++ 123%N :: mid ++ 125%N :: post)
    with (pre ++ [123%N] ++ mid ++ 125%N :: post).
  rewrite !app_assoc, lastIndexOf_app by done.
  rewrite !length_app. simpl.
  destruct (Nat.leb_spec (length pre + 1 + length mid) (length pre)); [lia|].
  f_equal. unfold slice.
  transitivity (take (length (123%N :: mid ++ [125%N]))
                  ((123%N :: mid ++ [125%N]) ++ post)); [|apply take_app_length].
  f_equal.
  - simpl. rewrite length_app. simpl. lia.
  - rewrite <- !app_assoc. rewrite drop_app_length. simpl.
    by rewrite <- app_assoc.
Qed.

(** *** The parts of a streamed answer *)

Lemma line_step_quiet b line st :
  ∃ q, Forall quiet_part q
       ∧ parts (line_step JSON_parse b true line st) = parts st ++ q.
Proof.
  unfold line_step.
  destruct (negb (truthy (trim line))).
  { exists []. by rewrite app_nil_r. }
  destruct (JSON_parse (trim line)) as [chunk|].
  - exists (if b then [Raw (trim line)] else []).
    split; [destruct b; by repeat constructor|].
    destruct (truthy_value _);
      destruct (opt_get (Some chunk) "done") as [[|[]| | | | |]|];
      destruct b; simpl; by rewrite ?app_nil_r.
  - exists ((if b then [Raw (trim line)] else []) ++ [ErrorPart]).
    split; [destruct b; by repeat constructor|].
    destruct b; simpl; by rewrite <- ?app_assoc.
Qed.

Lemma lines_loop_quiet b lines : ∀ st,
  ∃ q, Forall quiet_part q
       ∧ parts (lines_loop JSON_parse b true lines st) = parts st ++ q.
Proof.
  induction lines as [|line lines IH]; intros st; simpl.
  - exists []. by rewrite app_nil_r.
  - destruct (line_step_quiet b line st) as (q1 & Hq1 & H1).
    destruct (isDone (line_step JSON_parse b true line st)); [by exists q1|].
    destruct (IH (line_step JSON_parse b true line st)) as (q2 & Hq2 & H2).
    exists (q1 ++ q2). split; [by apply Forall_app|].
    by rewrite H2, H1, app_assoc.
Qed.

Lemma read_loop_quiet b chunks : ∀ buffer st,
  ∃ q, Forall quiet_part q
       ∧ parts (read_loop JSON_parse b true chunks buffer st) = parts st ++ q.
Proof.
  induction chunks as [|v chunks IH]; intros buffer st; simpl.
  - exists []. by rewrite app_nil_r.
  - destruct (lines_loop_quiet b (removelast (split 10 (buffer ++ v))) st)
      as (q1 & Hq1 & H1).
    destruct (isDone _); [by exists q1|].
    destruct (IH (List.last (split 10 (buffer ++ v)) [])
                (lines_loop JSON_parse b true
                   (removelast (split 10 (buffer ++ v))) st))
      as (q2 & Hq2 & H2).
    exists (q1 ++ q2). split; [by apply Forall_app|].
    by rewrite H2, H1, app_assoc.
Qed.

Lemma tool_call_parts_eq toolCalls n :
  tool_call_parts JSON_stringify (named_calls toolCalls) n
  = imap (fun i c => ToolCallPart (n + i) (name c) (JSON_stringify (arguments c)))
      (named_calls toolCalls).
Proof.
  unfold tool_call_parts. apply imap_ext. intros i c Hc. cbv beta.
  pose proof (named_calls_arguments toolCalls) as Hall.
  by rewrite (Forall_lookup_1 _ _ _ _ Hall Hc).
Qed.

Lemma tool_call_content_eq toolCalls n :
  tool_call_content JSON_stringify (named_calls toolCalls) n
  = imap (fun i c => ToolCall (n + i) (name c) (JSON_stringify (arguments c)))
      (named_calls toolCalls).
Proof.
  unfold tool_call_content. apply imap_ext. intros i c Hc. cbv beta.
  pose proof (named_calls_arguments toolCalls) as Hall.
  by rewrite (Forall_lookup_1 _ _ _ _ Hall Hc).
Qed.

(** *** Properties of prompt-mode tool calling *)

(** C3, as the code has it. In prompt mode the text of the response is
    trimmed and the span from its first opening brace to its last
    closing brace is parsed as JSON (nothing is extracted when that span
    is not valid JSON, as when the text holds several top-level
    objects). The answer is read from the root: the property [opencode]
    of the parsed object when that is neither [undefined] nor [null],
    and else the parsed object itself; tool calls that stand beside such
    an [opencode] are not looked at. If the root carries tool calls
    ([tool_calls], else [toolCalls], else [toolcalls]) with at least one
    named entry, [doGenerate] answers one tool-call part per named
    entry, in order, each with its own newly drawn UUID, the name of
    the entry and its serialized arguments, and finish reason
    tool-calls; otherwise it answers a single text part, made of the
    first string among [final], [content] and [text] of the root, or of
    the raw text, and finish reason stop. No UUID is drawn for a text
    part. *)
Theorem prompt_mode_generate (status : Z) (rawText : list N) (n : nat) :
  let text := response_text (JSON_parse rawText) in
  let root := root_of (extractJson JSON_parse text) in
  let calls := named_calls (tool_calls_of root) in
  (∀ pre mid post : list N,
     trim text = pre ++ 123%N :: mid ++ 125%N :: post ->
     123%N ∉ pre -> 125%N ∉ post ->
     extractJson JSON_parse text = JSON_parse (123%N :: mid ++ [125%N]))
  ∧ root = match extractJson JSON_parse text with
           | Some (JObj fields) =>
               match field (js "opencode") fields with
               | None | Some JNull => Some (JObj fields)
               | Some opencode => Some opencode
               end
           | parsed => parsed
           end
  ∧ Forall (fun c => ∃ s, name c = Some (JStr s) ∧ s ≠ []) calls
  ∧ doGenerate JSON_parse JSON_stringify true status rawText true n
    = Ok (match calls with
          | [] => (mkGenerated [Text (nullish (final_text root) text)] stop, n)
          | _ =>
              (mkGenerated
                 (imap (fun i c => ToolCall (n + i) (name c)
                                     (JSON_stringify (arguments c))) calls)
                 tool_calls,
               (n + length calls)%nat)
          end).
Proof.
  intros text root calls. split_and!.
  - apply extractJson_span.
  - subst root. unfold root_of, coalesce, opt_get.
    destruct (extractJson JSON_parse text) as [[| | | | | |fields]|]; try done.
    by destruct (field (js "opencode") fields) as [[]|].
  - apply named_calls_named.
  - unfold doGenerate. cbn [negb]. fold text.
    rewrite parsePromptToolCall_spec. cbn [bind]. unfold prompt_answer.
    fold root. fold calls. subst calls.
    rewrite <- tool_call_content_eq.
    by destruct (named_calls (tool_calls_of root)).
Qed.

(** C9. [parsePromptToolCall] returns on every text, with a tool-call
    result (of at least one call, each with a non-empty name) or a
    final-text result, and never throws; when no JSON object can be
    extracted from the text, and when the object extracted carries none
    of the tool-call and final-text fields, the result is the raw text,
    unchanged, as final text. *)
Theorem parsePromptToolCall_total (text : list N) :
  ∃ r, parsePromptToolCall JSON_parse text = Ok r
       ∧ match r with
         | Tool calls =>
             calls ≠ [] ∧ Forall (fun c => ∃ s, name c = Some (JStr s) ∧ s ≠ []) calls
         | Final _ => True
         end
       ∧ (extractJson JSON_parse text = None -> r = Final text)
       ∧ (carries_nothing (root_of (extractJson JSON_parse text)) -> r = Final text).
Proof.
  exists (prompt_answer JSON_parse text).
  split; [apply parsePromptToolCall_spec|].
  assert (Hn : carries_nothing (root_of (extractJson JSON_parse text)) ->
               prompt_answer JSON_parse text = Final text).
  { intros (H1 & H2 & H3 & H4 & H5 & H6). unfold prompt_answer.
    unfold tool_calls_of, final_text. by rewrite H1, H2, H3, H4, H5, H6. }
  split_and!.
  - unfold prompt_answer.
    pose proof (named_calls_named
                  (tool_calls_of (root_of (extractJson JSON_parse text)))) as Hall.
    by destruct (named_calls _).
  - intros Hx. apply Hn. by rewrite Hx.
  - done.
Qed.

End AdapterSpec.

(** C3 in the words of the specification does not hold: on an answer
    that holds two top-level objects the first balanced object is not
    used; nothing is extracted and the whole answer comes back as the text
    part. *)
Lemma first_object_not_used :
  spec_extractJson parse two_objects
  = Some (JObj [(js "opencode", JObj [(js "final", JStr (js "a"))])])
  ∧ extractJson parse two_objects = None
  ∧ doGenerate parse stringify true 200 two_objects_response true 0
    = Ok (mkGenerated [Text two_objects] stop, 0%nat)
  ∧ doGenerate parse stringify true 200 two_objects_response true 0
    ≠ Ok (mkGenerated [Text (js "a")] stop, 0%nat).
Proof.
  split_and!.
  - vm_compute. reflexivity.
  - vm_compute. reflexivity.
  - vm_compute. reflexivity.
  - vm_compute. discriminate.
Qed.

Lemma prompt_mode_generate_witness :
  trim (response_text (parse two_objects_response))
  = [] ++ 123%N :: jq "'opencode':{'final':'a'}} {'opencode':{'final':'b'}"
       ++ 125%N :: []
  ∧ (123%N ∉ @nil N) ∧ (125%N ∉ @nil N)
  ∧ extractJson parse (response_text (parse two_objects_response))
    = parse two_objects.
Proof.
  assert (Ht : trim (response_text (parse two_objects_response))
               = [] ++ 123%N :: jq "'opencode':{'final':'a'}} {'opencode':{'final':'b'}"
                    ++ 125%N :: []) by (vm_compute; reflexivity).
  split; [exact Ht|].
  split; [apply not_elem_of_nil|]. split; [apply not_elem_of_nil|].
  destruct (prompt_mode_generate parse stringify 200 two_objects_response 0)
    as (Hspan & _).
  rewrite (Hspan _ _ _ Ht (not_elem_of_nil _) (not_elem_of_nil _)).
  vm_compute. reflexivity.
Defined.

Lemma parsePromptToolCall_total_witness :
  extractJson parse (js "hello") = None
  ∧ carries_nothing (root_of (extractJson parse (jq "{'x':1}")))
  ∧ parsePromptToolCall parse (js "hello") = Ok (Final (js "hello"))
  ∧ parsePromptToolCall parse (jq "{'x':1}") = Ok (Final (jq "{'x':1}")).
Proof.
  assert (H1 : extractJson parse (js "hello") = None) by (vm_compute; reflexivity).
  assert (H2 : carries_nothing (root_of (extractJson parse (jq "{'x':1}"))))
    by (repeat split; vm_compute; reflexivity).
  split; [exact H1|]. split; [exact H2|]. split.
  - destruct (parsePromptToolCall_total parse (js "hello")) as (r & Hr & _ & Hnone & _).
    rewrite Hr. f_equal. by apply Hnone.
  - destruct (parsePromptToolCall_total parse (jq "{'x':1}")) as (r & Hr & _ & _ & Hcar).
    rewrite Hr. f_equal. by apply Hcar.
Defined.

End OllamaSpec.

(** ** The provider registry *)

Module RegistrySpec.
Import Registry.

Example demo_filtered :
  filter_pass demo_config false demo_registry
  = {[ js "acme" :=
         mkInfo (js "acme") (js "Acme") env
           {[ js "fast" :=
                mkModel (Some (js "fast")) (js "acme")
                  (mkApi (Some (js "fast")) (js "@ai-sdk/openai-compatible")) active ]} ]}.
Proof. vm_compute. reflexivity. Qed.

Example demo_suggestions :
  getModel demo_score own_keys own_keys demo_registry (js "acme") (js "f")
  = (demo_registry, ModelNotFoundError (js "acme") (js "f") [js "fast"]).
Proof. vm_compute. reflexivity. Qed.

(** The own keys of a finite map are its keys. *)
Lemma own_keys_spec {V} (o : gmap (list N) V) (k : list N) :
  k ∈ own_keys o <-> is_Some (o !! k).
Proof.
  unfold own_keys. rewrite list_elem_of_fmap. split.
  - intros ([k' v] & -> & H). apply elem_of_map_to_list in H. by exists v.
  - intros [v Hv]. exists (k, v). split; [done|]. by apply elem_of_map_to_list.
Qed.

(** *** Loops over the entries of an object *)

(** A loop over [Object.entries(o)] whose body only touches the key of
    its entry ends with each key holding what its own step made of it. *)
Lemma fold_own_key_list {V} (step : gmap (list N) V -> list N * V -> gmap (list N) V)
    (g : list N -> V -> option V) :
  (∀ acc k v k', k' ≠ k -> step acc (k, v) !! k' = acc !! k') ->
  (∀ acc k v, acc !! k = Some v -> step acc (k, v) !! k = g k v) ->
  ∀ (l : list (list N * V)) (acc : gmap (list N) V),
    NoDup l.*1 -> (∀ k v, (k, v) ∈ l -> acc !! k = Some v) ->
    ∀ k, (k ∉ l.*1 -> foldl step acc l !! k = acc !! k)
         ∧ (∀ v, (k, v) ∈ l -> foldl step acc l !! k = g k v).
Proof.
  intros H1 H2. induction l as [|[k0 v0] l IH]; intros acc Hnd Hacc k.
  - split; [done|]. intros v Hv. by apply not_elem_of_nil in Hv.
  - cbn [fmap list_fmap fst] in Hnd. apply NoDup_cons in Hnd as [Hk0 Hnd].
    assert (Hacc' : ∀ k' v', (k', v') ∈ l -> step acc (k0, v0) !! k' = Some v').
    { intros k' v' Hin. rewrite H1.
      - apply Hacc. by right.
      - intros ->. apply Hk0. apply list_elem_of_fmap. by exists (k0, v'). }
    destruct (IH (step acc (k0, v0)) Hnd Hacc' k) as [IH1 IH2].
    cbn [foldl]. split.
    + intros Hk. cbn [fmap list_fmap fst] in Hk.
      apply not_elem_of_cons in Hk as [Hne Hk].
      rewrite IH1 by done. by apply H1.
    + intros v Hv. apply elem_of_cons in Hv as [[= -> ->]|Hv].
      * rewrite (proj1 (IH (step acc (k0, v0)) Hnd Hacc' k0)) by done.
        apply H2, Hacc. by left.
      * by apply IH2.
Qed.

Lemma fold_own_key {V} (step : gmap (list N) V -> list N * V -> gmap (list N) V)
    (g : list N -> V -> option V) (m : gmap (list N) V) (k : list N) :
  (∀ acc k v k', k' ≠ k -> step acc (k, v) !! k' = acc !! k') ->
  (∀ acc k v, acc !! k = Some v -> step acc (k, v) !! k = g k v) ->
  foldl step m (map_to_list m) !! k = m !! k ≫= g k.
Proof.
  intros H1 H2.
  destruct (fold_own_key_list step g H1 H2 (map_to_list m) m
              (NoDup_fst_map_to_list m)
              (fun k v Hin => proj1 (elem_of_map_to_list m k v) Hin) k) as [Hn Hs].
  destruct (m !! k) as [v|] eqn:Hk; simpl.
  - apply Hs. by apply elem_of_map_to_list.
  - rewrite Hn; [done|]. intros Hin. apply list_elem_of_fmap in Hin as ([k' v'] & -> & Hin).
    apply elem_of_map_to_list in Hin. simpl in Hk. congruence.
Qed.

(** *** The filter pass *)

Lemma model_step_other flag pid cp acc k (v : Model) k' :
  k' ≠ k -> model_step flag pid cp acc (k, v) !! k' = acc !! k'.
Proof.
  intros Hne. unfold model_step.
  repeat case_match; rewrite ?lookup_delete_ne by done;
    by rewrite lookup_alter_ne.
Qed.

Lemma model_step_own flag pid cp acc k (v : Model) :
  acc !! k = Some v ->
  model_step flag pid cp acc (k, v) !! k = model_fate flag pid cp k v.
Proof.
  intros Hk. unfold model_step, model_fate.
  repeat case_match; simpl in *; try done;
    rewrite ?lookup_delete_eq; try done;
    rewrite ?lookup_delete_ne by done;
    rewrite ?lookup_alter_eq, ?Hk; try done.
  all: repeat match goal with
              | H : _ || _ = false |- _ => apply orb_false_iff in H as [? ?]
              | H : _ || _ = true |- _ => apply orb_true_iff in H as [?|?]
              end; congruence.
Qed.

Lemma filter_models_lookup (flag : bool) (pid : list N) (cp : option ProviderConfig)
    (ms : gmap (list N) Model) (k : list N) :
  filter_models flag pid cp ms !! k = ms !! k ≫= model_fate flag pid cp k.
Proof.
  unfold filter_models. apply fold_own_key.
  - intros. by apply model_step_other.
  - intros. by apply model_step_own.
Qed.

Lemma provider_step_other cfg flag acc k (v : Info) k' :
  k' ≠ k -> provider_step cfg flag acc (k, v) !! k' = acc !! k'.
Proof.
  intros Hne. unfold provider_step.
  repeat case_match; by rewrite ?lookup_delete_ne, ?lookup_insert_ne by done.
Qed.

Lemma provider_step_own cfg flag acc k (v : Info) :
  provider_step cfg flag acc (k, v) !! k = provider_fate cfg flag k v.
Proof.
  unfold provider_step, provider_fate.
  repeat case_match; by rewrite ?lookup_delete_eq, ?lookup_insert_eq.
Qed.

Lemma filter_pass_lookup (cfg : Config) (flag : bool)
    (providers : gmap (list N) Info) (k : list N) :
  filter_pass cfg flag providers !! k = providers !! k ≫= provider_fate cfg flag k.
Proof.
  unfold filter_pass. apply fold_own_key.
  - intros. by apply provider_step_other.
  - intros. by apply provider_step_own.
Qed.

Lemma model_fate_kept cfg flag pid mid m0 m :
  model_fate flag pid (config_provider cfg !! pid) mid m0 = Some m ->
  kept cfg flag pid mid m.
Proof.
  unfold model_fate. case_match eqn:Hc; [done|]. intros [= <-].
  repeat (apply orb_false_iff in Hc as [Hc ?]).
  unfold kept. simpl. split_and!.
  - intros Hd. by rewrite Hd in *.
  - intros Ha. rewrite Ha in *. by destruct flag.
  - intros c b Hcp Hb Hin. unfold listed_out in *. rewrite Hcp, Hb in *.
    unfold array_includes in *. by rewrite bool_decide_eq_true_2 in * by done.
  - intros c wl Hcp Hwl. unfold listed_out in *. rewrite Hcp, Hwl in *.
    unfold array_includes in *.
    destruct (decide (mid ∈ wl)) as [|Hn]; [done|].
    rewrite (bool_decide_eq_false_2 _ Hn) in *. simpl in *.
    by rewrite orb_true_r in *.
Qed.

(** C6. After the filter pass that ends the construction of the
    registry, every provider of the registry is allowed by the
    configuration and has at least one model, and each of its models is
    not deprecated, is alpha only if the experimental-models flag is set,
    is not on the black list configured for the provider and is on its
    white list when one is configured. *)
Theorem filter_pass_prunes (cfg : Config) (flag : bool)
    (providers : gmap (list N) Info) (providerID : list N) (p : Info) :
  filter_pass cfg flag providers !! providerID = Some p ->
  isProviderAllowed cfg providerID = true
  ∧ models p ≠ ∅
  ∧ ∀ modelID m, models p !! modelID = Some m -> kept cfg flag providerID modelID m.
Proof.
  rewrite filter_pass_lookup. destruct (providers !! providerID) as [p0|]; [|done].
  simpl. unfold provider_fate.
  destruct (isProviderAllowed cfg providerID); [|done]. simpl.
  case_bool_decide as Hempty; [done|]. intros [= <-]. simpl.
  split; [done|]. split; [done|]. intros modelID m.
  rewrite filter_models_lookup.
  destruct (_ !! modelID) as [m0|]; [|done]. simpl.
  apply model_fate_kept.
Qed.

Lemma filter_pass_prunes_witness :
  filter_pass demo_config false demo_registry !! js "acme"
  = Some (mkInfo (js "acme") (js "Acme") env
            {[ js "fast" :=
                 mkModel (Some (js "fast")) (js "acme")
                   (mkApi (Some (js "fast")) (js "@ai-sdk/openai-compatible")) active ]})
  ∧ isProviderAllowed demo_config (js "acme") = true.
Proof.
  assert (H : filter_pass demo_config false demo_registry !! js "acme"
              = Some (mkInfo (js "acme") (js "Acme") env
                        {[ js "fast" :=
                             mkModel (Some (js "fast")) (js "acme")
                               (mkApi (Some (js "fast")) (js "@ai-sdk/openai-compatible"))
                               active ]}))
    by (vm_compute; reflexivity).
  split; [exact H|].
  destruct (filter_pass_prunes demo_config false demo_registry (js "acme") _ H)
    as (Hallowed & _).
  exact Hallowed.
Defined.

(** *** [getModel] *)

Section FuzzySpec.

Variable score : list N -> list N -> option Z.






Variable provider_keys : gmap (list N) Info -> list (list N).
Variable model_keys : gmap (list N) Model -> list (list N).

(** [Object.keys] gives the own keys of the object, in some order. *)
Hypothesis provider_keys_own : ∀ ps k, k ∈ provider_keys ps <-> is_Some (ps !! k).
Hypothesis model_keys_own : ∀ ms k, k ∈ model_keys ms <-> is_Some (ms !! k).



End FuzzySpec.



End RegistrySpec.

(** ** More facts about strings: [trim], [split], [indexOf] *)

Module JsStringMore.

#[local] Open Scope N_scope.

Lemma elem_take {A} (l : list A) n x : x ∈ take n l -> x ∈ l.
Proof. intros H. rewrite <- (take_drop n l). apply elem_of_app. by left. Qed.

Lemma elem_drop {A} (l : list A) n x : x ∈ drop n l -> x ∈ l.
Proof. intros H. rewrite <- (take_drop n l). apply elem_of_app. by right. Qed.

(** *** [trim] *)

Lemma trimStart_suffix (s : jsstring) :
  ∃ p, s = p ++ trimStart s ∧ forallb is_space p = true.
Proof.
  induction s as [|c s (p & Hp & Hsp)]; [by exists []|]. simpl.
  destruct (is_space c) eqn:Hc.
  - exists (c :: p). simpl. rewrite Hc, Hsp. by rewrite <- Hp.
  - by exists [].
Qed.

Lemma trimStart_head (s : jsstring) c r :
  trimStart s = c :: r -> is_space c = false.
Proof.
  induction s as [|x s IH]; simpl; [done|].
  destruct (is_space x) eqn:Hx; [done|]. intros [= -> _]. done.
Qed.

Lemma trimStart_id (s : jsstring) :
  match s with c :: _ => is_space c = false | [] => True end -> trimStart s = s.
Proof. destruct s as [|c s]; [done|]. simpl. by intros ->. Qed.

Lemma trimStart_idem (s : jsstring) : trimStart (trimStart s) = trimStart s.
Proof.
  apply trimStart_id. destruct (trimStart s) as [|c r] eqn:H; [done|].
  by apply trimStart_head in H.
Qed.

Lemma trimStart_elem (s : jsstring) c : c ∈ trimStart s -> c ∈ s.
Proof.
  destruct (trimStart_suffix s) as (p & Hp & _). intros H.
  rewrite Hp. apply elem_of_app. by right.
Qed.

Lemma elem_of_rev {A} (l : list A) x : x ∈ rev l <-> x ∈ l.
Proof. rewrite !list_elem_of_In. symmetry. apply in_rev. Qed.

Lemma trim_elem (s : jsstring) c : c ∈ trim s -> c ∈ s.
Proof.
  unfold trim, trimEnd. rewrite elem_of_rev. intros H.
  apply trimStart_elem in H. rewrite elem_of_rev in H.
  by apply trimStart_elem.
Qed.

(** A string has clean ends when it neither starts nor ends with white
    space. *)
Lemma trim_id (s : jsstring) :
  trimStart s = s -> trimStart (rev s) = rev s -> trim s = s.
Proof.
  intros H1 H2. unfold trim, trimEnd. by rewrite H1, H2, rev_involutive.
Qed.

Lemma trim_ends (s : jsstring) :
  trimStart (trim s) = trim s ∧ trimStart (rev (trim s)) = rev (trim s).
Proof.
  unfold trim, trimEnd. rewrite rev_involutive. split; [|apply trimStart_idem].
  destruct (trimStart_suffix (rev (trimStart s))) as (p & Hp & _).
  set (u := trimStart (rev (trimStart s))) in *.
  apply trimStart_id.
  destruct (rev u) as [|c r] eqn:Hu; [done|].
  apply (f_equal (@rev _)) in Hp. rewrite rev_involutive, rev_app_distr, Hu in Hp.
  simpl in Hp. by apply trimStart_head in Hp.
Qed.

Lemma trim_idem (s : jsstring) : trim (trim s) = trim s.
Proof. destruct (trim_ends s). by apply trim_id. Qed.

Lemma trim_fix_ends (s : jsstring) :
  trim s = s -> trimStart s = s ∧ trimStart (rev s) = rev s.
Proof. intros H. rewrite <- H. apply trim_ends. Qed.

Lemma trimStart_app (a b : jsstring) :
  a ≠ [] -> trimStart a = a -> trimStart (a ++ b) = a ++ b.
Proof.
  destruct a as [|c a]; [done|]. intros _ H. simpl in *.
  destruct (is_space c); [|done].
  destruct (trimStart_suffix a) as (p & Hp & _).
  apply (f_equal length) in H. apply (f_equal length) in Hp.
  rewrite length_app in Hp. simpl in H. lia.
Qed.

Lemma join_cons2 (sep : jsstring) (p q : jsstring) (r : list jsstring) :
  Json.join_with sep (p :: q :: r) = p ++ sep ++ Json.join_with sep (q :: r).
Proof. simpl. by rewrite <- app_assoc. Qed.

(** Pieces with clean ends, joined, have clean ends. *)
Lemma join_ends (sep : jsstring) (parts : list jsstring) :
  parts ≠ [] ->
  Forall (fun p => p ≠ [] ∧ trimStart p = p ∧ trimStart (rev p) = rev p) parts ->
  Json.join_with sep parts ≠ []
  ∧ trimStart (Json.join_with sep parts) = Json.join_with sep parts
  ∧ trimStart (rev (Json.join_with sep parts)) = rev (Json.join_with sep parts).
Proof.
  destruct parts as [|p parts]; [done|]. intros _.
  revert p. induction parts as [|q parts IH]; intros p H.
  - apply Forall_cons in H as [(Hp & H1 & H2) _]. simpl. by rewrite app_nil_r.
  - apply Forall_cons in H as [(Hp & H1 & H2) H].
    destruct (IH q H) as (Hj & Hj1 & Hj2).
    rewrite join_cons2. split_and!.
    + by destruct p.
    + by apply trimStart_app.
    + rewrite !rev_app_distr, <- app_assoc. apply trimStart_app; [|done].
      intros Hr. apply (f_equal (@rev _)) in Hr. rewrite rev_involutive in Hr.
      done.
Qed.

(** *** [split] *)

Lemma split_nonempty sep (s : jsstring) : split sep s ≠ [].
Proof.
  destruct s as [|c s]; simpl; [done|].
  destruct (N.eqb c sep); [done|]. by destruct (split sep s).
Qed.

Lemma split_one sep (s : jsstring) : sep ∉ s -> split sep s = [s].
Proof.
  induction s as [|c s IH]; intros Hs; simpl; [done|].
  apply not_elem_of_cons in Hs as [Hne Hs].
  destruct (N.eqb_spec c sep) as [->|_]; [done|]. by rewrite IH.
Qed.

Lemma split_app_sep sep (a b : jsstring) :
  sep ∉ a -> split sep (a ++ sep :: b) = a :: split sep b.
Proof.
  induction a as [|c a IH]; intros Ha; simpl.
  - by rewrite N.eqb_refl.
  - apply not_elem_of_cons in Ha as [Hne Ha].
    destruct (N.eqb_spec c sep) as [->|_]; [done|]. by rewrite IH.
Qed.

Lemma split_no_sep sep (s p : jsstring) : p ∈ split sep s -> sep ∉ p.
Proof.
  revert p. induction s as [|c s IH]; intros p; simpl.
  - rewrite list_elem_of_singleton. intros ->. apply not_elem_of_nil.
  - destruct (N.eqb_spec c sep) as [->|Hne].
    + rewrite elem_of_cons. intros [->|H]; [apply not_elem_of_nil|by apply IH].
    + destruct (split sep s) as [|h t] eqn:Hs.
      * rewrite list_elem_of_singleton. intros ->.
        rewrite not_elem_of_cons. split; [done|apply not_elem_of_nil].
      * rewrite elem_of_cons. intros [->|H].
        -- rewrite not_elem_of_cons. split; [done|]. apply IH. by left.
        -- apply IH. by right.
Qed.

Lemma split_elem sep (s p : jsstring) c : p ∈ split sep s -> c ∈ p -> c ∈ s.
Proof.
  revert p. induction s as [|x s IH]; intros p; simpl.
  - rewrite list_elem_of_singleton. by intros ->.
  - destruct (N.eqb_spec x sep) as [->|Hne].
    + rewrite elem_of_cons. intros [->|H] Hc; [by apply elem_of_nil in Hc|].
      right. by apply (IH p).
    + destruct (split sep s) as [|h t] eqn:Hs.
      * rewrite list_elem_of_singleton. intros ->.
        rewrite list_elem_of_singleton. intros ->. by left.
      * rewrite elem_of_cons. intros [->|H] Hc.
        -- apply elem_of_cons in Hc as [->|Hc]; [by left|].
           right. apply (IH h); [by left|done].
        -- right. apply (IH p); [by right|done].
Qed.

(** The pieces of a text that was joined with a separator which the
    pieces do not contain are the pieces. *)
Lemma split_join sep (parts : list jsstring) :
  parts ≠ [] -> Forall (fun p => sep ∉ p) parts ->
  split sep (Json.join_with [sep] parts) = parts.
Proof.
  destruct parts as [|p parts]; [done|]. intros _ H.
  apply Forall_cons in H as [Hp H]. simpl.
  revert p Hp. induction parts as [|q parts IH]; intros p Hp; simpl.
  - rewrite app_nil_r. by apply split_one.
  - apply Forall_cons in H as [Hq H].
    rewrite split_app_sep by done. f_equal. by apply IH.
Qed.

Lemma split_last_no_sep sep (s : jsstring) : sep ∉ List.last (split sep s) [].
Proof.
  apply (split_no_sep sep s).
  pose proof (split_nonempty sep s) as Hne.
  destruct (split sep s) as [|h t] using rev_ind; [done|].
  rewrite last_last. apply elem_of_app. right. by left.
Qed.

(** Splitting a text that is read in two parts: the lines that are
    complete after the first part stay, and the unfinished line goes on
    with the second part. *)
Lemma split_app sep (x y : jsstring) :
  split sep (x ++ y)
  = removelast (split sep x) ++ split sep (List.last (split sep x) [] ++ y).
Proof.
  induction x as [|c x IH]; simpl; [done|].
  destruct (N.eqb_spec c sep) as [->|Hne].
  - rewrite IH. pose proof (split_nonempty sep x) as Hx.
    by destruct (split sep x).
  - rewrite IH. pose proof (split_nonempty sep x) as Hx.
    destruct (split sep x) as [|h t] eqn:Hs; [done|].
    destruct t as [|h' t]; simpl.
    + by destruct (N.eqb_spec c sep).
    + done.
Qed.

(** *** [indexOf] *)

Lemma indexOf_Some c (s : jsstring) i :
  indexOf c s = Some i -> (c ∉ take i s) ∧ s !! i = Some c.
Proof.
  revert i. induction s as [|x s IH]; intros i; simpl; [done|].
  destruct (N.eqb_spec x c) as [->|Hne].
  - intros [= <-]. split; [apply not_elem_of_nil|done].
  - destruct (indexOf c s) as [j|]; [|done]. simpl. intros [= <-].
    destruct (IH j eq_refl) as [H1 H2]. simpl. split; [|done].
    rewrite not_elem_of_cons. by split.
Qed.

Lemma indexOf_None c (s : jsstring) : indexOf c s = None <-> c ∉ s.
Proof.
  induction s as [|x s IH]; simpl.
  - split; [intros _; apply not_elem_of_nil|done].
  - destruct (N.eqb_spec x c) as [->|Hne].
    + split; [done|]. intros H. destruct H. by left.
    + destruct (indexOf c s); simpl.
      * split; [done|]. intros H. apply not_elem_of_cons in H as [_ H].
        by apply IH in H.
      * split; [|done]. intros _. apply not_elem_of_cons. split; [done|].
        by apply IH.
Qed.

End JsStringMore.
Import JsStringMore.

(** ** The [mcp] command *)

Module McpCliSpec.
Import Json McpCli.

(** *** Objects as lists of own properties *)

Lemma field_elem (k : list N) (o : list (list N * json)) v :
  field k o = Some v -> (k, v) ∈ o.
Proof.
  induction o as [|[k' v'] o IH]; simpl; [done|].
  case_bool_decide as Hk.
  - intros [= ->]. subst. by left.
  - intros H. right. by apply IH.
Qed.

Lemma field_None (k : list N) (o : list (list N * json)) :
  field k o = None <-> k ∉ o.*1.
Proof.
  induction o as [|[k' v'] o IH]; simpl.
  - split; [intros _; apply not_elem_of_nil|done].
  - case_bool_decide as Hk.
    + subst. split; [done|]. intros H. destruct H. by left.
    + rewrite IH, not_elem_of_cons. split; [by intros ?|by intros [_ ?]].
Qed.

Lemma field_replace_eq (k : list N) v (o : list (list N * json)) :
  is_Some (field k o) -> field k (replace_field k v o) = Some v.
Proof.
  induction o as [|[k' v'] o IH]; simpl.
  - by intros [? ?].
  - case_bool_decide as Hk; simpl.
    + by rewrite bool_decide_eq_true_2.
    + intros H. by rewrite bool_decide_eq_false_2, IH.
Qed.

Lemma field_replace_ne (k k' : list N) v (o : list (list N * json)) :
  k' ≠ k -> field k' (replace_field k v o) = field k' o.
Proof.
  intros Hne. induction o as [|[k0 v0] o IH]; simpl; [done|].
  case_bool_decide as Hk; simpl.
  - subst. by rewrite !bool_decide_eq_false_2 by done.
  - by rewrite IH.
Qed.

Lemma field_insert_index_ne n (k k' : list N) v (o : list (list N * json)) :
  k' ≠ k -> field k' (insert_index n k v o) = field k' o.
Proof.
  intros Hne. induction o as [|[k0 v0] o IH]; simpl.
  - by rewrite bool_decide_eq_false_2 by done.
  - destruct (array_index k0) as [m|]; [destruct (m <? n)%Z|]; simpl;
      rewrite ?IH; try done.
    all: by rewrite (bool_decide_eq_false_2 (k = k')) by done.
Qed.

Lemma field_insert_index_eq n (k : list N) v (o : list (list N * json)) :
  field k o = None -> field k (insert_index n k v o) = Some v.
Proof.
  induction o as [|[k0 v0] o IH]; simpl.
  - by rewrite bool_decide_eq_true_2.
  - case_bool_decide as Hk; [done|]. intros H.
    destruct (array_index k0) as [m|]; [destruct (m <? n)%Z|]; simpl.
    + by rewrite bool_decide_eq_false_2, IH.
    + by rewrite bool_decide_eq_true_2.
    + by rewrite bool_decide_eq_true_2.
Qed.

Lemma field_app (k : list N) (o o' : list (list N * json)) :
  field k (o ++ o') = match field k o with Some v => Some v | None => field k o' end.
Proof.
  induction o as [|[k0 v0] o IH]; simpl; [done|]. by case_bool_decide.
Qed.

(** Reading a property just written gives the value written. *)
Lemma field_set_field_eq (k : list N) v (o : list (list N * json)) :
  field k (set_field k v o) = Some v.
Proof.
  unfold set_field. destruct (field k o) as [x|] eqn:Hk.
  - apply field_replace_eq. by rewrite Hk.
  - destruct (array_index k).
    + by apply field_insert_index_eq.
    + rewrite field_app, Hk. simpl. by rewrite bool_decide_eq_true_2.
Qed.

(** Writing a property leaves the others as they were. *)
Lemma field_set_field_ne (k k' : list N) v (o : list (list N * json)) :
  k' ≠ k -> field k' (set_field k v o) = field k' o.
Proof.
  intros Hne. unfold set_field. destruct (field k o) as [x|] eqn:Hk.
  - by apply field_replace_ne.
  - destruct (array_index k).
    + by apply field_insert_index_ne.
    + rewrite field_app. simpl. rewrite bool_decide_eq_false_2 by done.
      by destruct (field k' o).
Qed.

Lemma field_assign_under_ne p (k k' : list N) v (o : list (list N * json)) :
  k' ≠ k -> field k' (assign_under p k v o) = field k' o.
Proof.
  intros Hne. unfold assign_under. destruct (reaches_setter p k o); [done|].
  by apply field_set_field_ne.
Qed.

Lemma field_assign_under_eq p (k : list N) v (o : list (list N * json)) :
  k ≠ js "__proto__" -> field k (assign_under p k v o) = Some v.
Proof.
  intros Hne. unfold assign_under, reaches_setter, str_eqb.
  rewrite bool_decide_eq_false_2 by done. apply field_set_field_eq.
Qed.

Lemma field_assign_ne (k k' : list N) v (o : list (list N * json)) :
  k' ≠ k -> field k' (assign k v o) = field k' o.
Proof. apply field_assign_under_ne. Qed.

Lemma field_assign_eq (k : list N) v (o : list (list N * json)) :
  k ≠ js "__proto__" -> field k (assign k v o) = Some v.
Proof. apply field_assign_under_eq. Qed.

Lemma elem_replace_field (k : list N) v (o : list (list N * json)) x :
  x ∈ replace_field k v o -> x = (k, v) ∨ x ∈ o.
Proof.
  induction o as [|[k0 v0] o IH]; simpl; [by right|].
  case_bool_decide; rewrite !elem_of_cons; tauto.
Qed.

Lemma elem_insert_index n (k : list N) v (o : list (list N * json)) x :
  x ∈ insert_index n k v o -> x = (k, v) ∨ x ∈ o.
Proof.
  induction o as [|[k0 v0] o IH]; simpl.
  - rewrite list_elem_of_singleton. by left.
  - destruct (array_index k0) as [m|]; [destruct (m <? n)%Z|];
      rewrite !elem_of_cons; tauto.
Qed.

Lemma elem_set_field (k : list N) v (o : list (list N * json)) x :
  x ∈ set_field k v o -> x = (k, v) ∨ x ∈ o.
Proof.
  unfold set_field. destruct (field k o); [apply elem_replace_field|].
  destruct (array_index k); [apply elem_insert_index|].
  rewrite elem_of_app, list_elem_of_singleton. tauto.
Qed.

Lemma elem_assign (k : list N) v (o : list (list N * json)) x :
  x ∈ assign k v o -> x = (k, v) ∨ x ∈ o.
Proof.
  unfold assign, assign_under. destruct (reaches_setter None k o); [by right|].
  apply elem_set_field.
Qed.

(** An object made by assignments has no own property [__proto__]. *)
Lemma elem_assign_fresh (k : list N) v (o : list (list N * json)) x :
  field (js "__proto__") o = None ->
  x ∈ assign k v o -> (x = (k, v) ∧ k ≠ js "__proto__") ∨ x ∈ o.
Proof.
  intros Ho. unfold assign, assign_under, reaches_setter, has_own, str_eqb.
  case_bool_decide as Hk.
  - subst k. rewrite Ho. rewrite bool_decide_eq_false_2 by (by intros [? ?]).
    by right.
  - intros Hx. apply elem_set_field in Hx. tauto.
Qed.

Lemma keys_replace_field (k : list N) v (o : list (list N * json)) :
  (replace_field k v o).*1 = o.*1.
Proof.
  induction o as [|[k0 v0] o IH]; [done|]. cbn [replace_field].
  case_bool_decide; [by subst|]. rewrite !fmap_cons. by rewrite IH.
Qed.

Lemma keys_insert_index n (k : list N) v (o : list (list N * json)) :
  (insert_index n k v o).*1 ≡ₚ k :: o.*1.
Proof.
  induction o as [|[k0 v0] o IH]; [done|]. cbn [insert_index].
  destruct (array_index k0) as [m|]; [destruct (m <? n)%Z|]; try done.
  rewrite !fmap_cons, IH. apply Permutation_swap.
Qed.

(** An object keeps distinct keys when a property is written. *)
Lemma NoDup_set_field (k : list N) v (o : list (list N * json)) :
  NoDup o.*1 -> NoDup (set_field k v o).*1.
Proof.
  intros Hnd. unfold set_field. destruct (field k o) eqn:Hk.
  - by rewrite keys_replace_field.
  - apply field_None in Hk. destruct (array_index k).
    + rewrite keys_insert_index. by apply NoDup_cons.
    + rewrite fmap_app. simpl. apply NoDup_app. split_and!; [done| |apply NoDup_singleton].
      intros x Hx Hx'. apply list_elem_of_singleton in Hx'. by subst.
Qed.

Lemma NoDup_assign (k : list N) v (o : list (list N * json)) :
  NoDup o.*1 -> NoDup (assign k v o).*1.
Proof.
  intros. unfold assign, assign_under. destruct (reaches_setter None k o); [done|].
  by apply NoDup_set_field.
Qed.

(** *** [parseCommandLine] *)

(** What the loop keeps: no word pushed is empty, and the words pushed
    followed by the word being read are code units of the input read so
    far, in their order. *)
Lemma push_keeps st (read : list N) :
  Forall (fun t => t ≠ []) (out st) ->
  concat (out st) ++ cur st `sublist_of` read ->
  Forall (fun t => t ≠ []) (out (push st))
  ∧ concat (out (push st)) ++ cur (push st) `sublist_of` read.
Proof.
  intros Hne Hsub. unfold push. destruct (cur st) as [|c r] eqn:Hc; simpl.
  - by rewrite Hc.
  - split.
    + apply Forall_app. split; [done|]. by apply Forall_singleton.
    + rewrite concat_app. simpl. by rewrite !app_nil_r.
Qed.

Lemma lex_step_keeps st ch (read : list N) :
  Forall (fun t => t ≠ []) (out st) ->
  concat (out st) ++ cur st `sublist_of` read ->
  Forall (fun t => t ≠ []) (out (lex_step st ch))
  ∧ concat (out (lex_step st ch)) ++ cur (lex_step st ch) `sublist_of` read ++ [ch].
Proof.
  intros Hne Hsub.
  assert (Hskip : concat (out st) ++ cur st `sublist_of` read ++ [ch])
    by (by apply sublist_inserts_r).
  assert (Htake : concat (out st) ++ cur st ++ [ch] `sublist_of` read ++ [ch])
    by (rewrite app_assoc; by apply sublist_app).
  unfold lex_step.
  destruct (escaped st); [done|].
  destruct (N.eqb ch 92); [done|].
  destruct (quote st) as [q|].
  - by destruct (N.eqb ch q).
  - destruct (N.eqb ch 39 || N.eqb ch 34); [done|].
    destruct (is_space ch); [|done].
    by apply push_keeps.
Qed.

Lemma lex_keeps (input : list N) : ∀ st (read : list N),
  Forall (fun t => t ≠ []) (out st) ->
  concat (out st) ++ cur st `sublist_of` read ->
  Forall (fun t => t ≠ []) (out (foldl lex_step st input))
  ∧ concat (out (foldl lex_step st input)) ++ cur (foldl lex_step st input)
    `sublist_of` read ++ input.
Proof.
  induction input as [|ch input IH]; intros st read Hne Hsub; simpl.
  - by rewrite app_nil_r.
  - destruct (lex_step_keeps st ch read Hne Hsub) as [Hne' Hsub'].
    destruct (IH _ _ Hne' Hsub') as [H1 H2].
    split; [done|]. by rewrite <- app_assoc in H2.
Qed.

(** The words of a command line are never empty, and their code units are
    code units of the command line, in the order they have there: the
    parser drops code units (white space, quotes, backslashes) and adds
    none. *)
Theorem parseCommandLine_words (input : list N) :
  Forall (fun t => t ≠ []) (parseCommandLine input)
  ∧ concat (parseCommandLine input) `sublist_of` input.
Proof.
  unfold parseCommandLine.
  destruct (lex_keeps input (mkLexer [] [] None false) []) as [H1 H2];
    [done|done|].
  destruct (push_keeps _ _ H1 H2) as [H3 H4]. split; [done|].
  simpl in H4. etrans; [|exact H4]. by apply sublist_inserts_r.
Qed.

Lemma lex_plain (w : list N) : ∀ o c,
  forallb plain_unit w = true ->
  foldl lex_step (mkLexer o c None false) w = mkLexer o (c ++ w) None false.
Proof.
  induction w as [|x w IH]; intros o c Hw; simpl.
  - by rewrite app_nil_r.
  - simpl in Hw. apply andb_true_iff in Hw as [Hx Hw].
    unfold plain_unit in Hx.
    repeat (apply andb_true_iff in Hx as [Hx ?]).
    unfold lex_step at 2. simpl.
    destruct (N.eqb x 92); [done|]. destruct (N.eqb x 39); [done|].
    destruct (N.eqb x 34); [done|]. destruct (is_space x); [done|]. simpl.
    rewrite IH by done. by rewrite <- app_assoc.
Qed.

Lemma lex_inside (q : N) (w : list N) : ∀ o c,
  forallb (fun x => negb (N.eqb x q) && negb (N.eqb x 92)) w = true ->
  foldl lex_step (mkLexer o c (Some q) false) w = mkLexer o (c ++ w) (Some q) false.
Proof.
  induction w as [|x w IH]; intros o c Hw; simpl.
  - by rewrite app_nil_r.
  - simpl in Hw. apply andb_true_iff in Hw as [Hx Hw].
    apply andb_true_iff in Hx as [Hq Hb].
    unfold lex_step at 2. simpl.
    destruct (N.eqb x 92); [done|]. destruct (N.eqb x q); [done|]. simpl.
    rewrite IH by done. by rewrite <- app_assoc.
Qed.

Lemma lex_writes (a w : list N) o c :
  writes a w ->
  foldl lex_step (mkLexer o c None false) a = mkLexer o (c ++ w) None false.
Proof.
  intros [Hne [[-> Hp]|(q & Hq & -> & Hw)]].
  - by apply lex_plain.
  - rewrite !foldl_app. simpl.
    assert (Hopen : lex_step (mkLexer o c None false) q = mkLexer o c (Some q) false).
    { unfold lex_step. simpl. by destruct Hq as [-> | ->]. }
    rewrite Hopen, lex_inside by done.
    unfold lex_step. simpl. rewrite N.eqb_refl.
    by destruct Hq as [-> | ->].
Qed.

Lemma lex_more (args ws : list (list N)) :
  Forall2 writes args ws -> ∀ o c, c ≠ [] ->
  out (push (foldl lex_step (mkLexer o c None false)
               (flat_map (fun y => [32%N] ++ y) args)))
  = o ++ [c] ++ ws.
Proof.
  induction 1 as [|a w args ws Ha _ IH]; intros o c Hc; simpl.
  - unfold push. simpl. by destruct c.
  - rewrite foldl_app.
    assert (Hsp : lex_step (mkLexer o c None false) 32 = mkLexer (o ++ [c]) [] None false).
    { unfold lex_step, push. simpl. by destruct c. }
    rewrite Hsp, (lex_writes a w) by done. simpl.
    rewrite IH by apply Ha. by rewrite <- app_assoc.
Qed.

(** Round trip: words written one after the other with a space between
    them, each as it is or between quotes, are the words the parser
    gives back. *)
Theorem parseCommandLine_join (args ws : list (list N)) :
  Forall2 writes args ws ->
  parseCommandLine (join_with [32%N] args) = ws.
Proof.
  intros H. unfold parseCommandLine. destruct H as [|a w args ws Ha H]; [done|].
  simpl. rewrite foldl_app, (lex_writes a w) by done. simpl.
  exact (lex_more args ws H [] w (proj1 Ha)).
Qed.

(** *** [parseEnvironmentPairs] *)

Lemma env_step_keeps (o : list (list N * json)) (part : list N) :
  NoDup o.*1 ->
  Forall (fun kv => ∃ s, kv.2 = JStr s ∧ clean_key kv.1 ∧ clean_value s) o ->
  44%N ∉ part ->
  NoDup (env_step o part).*1
  ∧ Forall (fun kv => ∃ s, kv.2 = JStr s ∧ clean_key kv.1 ∧ clean_value s)
      (env_step o part).
Proof.
  intros Hnd Hall Hpart. unfold env_step.
  destruct (truthy part); simpl; [|done].
  destruct (indexOf 61 part) as [[|n]|] eqn:Hi; [done| |done].
  set (key := trim (slice 0 (S n) part)).
  set (value := trim (drop (S n + 1) part)).
  destruct (truthy key) eqn:Hkey; simpl; [|done].
  split; [by apply NoDup_assign|].
  assert (Hown : field (js "__proto__") o = None).
  { apply field_None. intros Hin. apply list_elem_of_fmap in Hin as (kv & Hkv & Hin).
    apply (proj1 (Forall_forall _ _) Hall) in Hin as (_ & _ & Hclean & _).
    by destruct Hclean as (_ & _ & _ & _ & Hp). }
  apply Forall_forall. intros x Hx.
  apply elem_assign_fresh in Hx as [[-> Hproto]|Hx]; [| |done].
  - exists value. split; [done|]. simpl.
    apply indexOf_Some in Hi as [Hi _].
    assert (Hsub : ∀ c, c ∈ key -> c ∈ take (S n) part).
    { intros c Hc. apply trim_elem in Hc. unfold slice in Hc.
      by rewrite drop_0, Nat.sub_0_r in Hc. }
    split; [split_and!|split].
    + by destruct key.
    + apply trim_idem.
    + intros Hc. apply Hsub in Hc. apply Hpart. by eapply elem_take.
    + intros Hc. by apply Hsub in Hc.
    + done.
    + apply trim_idem.
    + intros Hc. apply trim_elem in Hc. apply Hpart. by eapply elem_drop.
  - by apply (proj1 (Forall_forall _ _) Hall).
Qed.

Lemma env_loop_keeps (parts : list (list N)) : ∀ o : list (list N * json),
  NoDup o.*1 ->
  Forall (fun kv => ∃ s, kv.2 = JStr s ∧ clean_key kv.1 ∧ clean_value s) o ->
  Forall (fun p => 44%N ∉ p) parts ->
  NoDup (foldl env_step o parts).*1
  ∧ Forall (fun kv => ∃ s, kv.2 = JStr s ∧ clean_key kv.1 ∧ clean_value s)
      (foldl env_step o parts).
Proof.
  induction parts as [|p parts IH]; intros o Hnd Hall Hparts; simpl; [done|].
  apply Forall_cons in Hparts as [Hp Hparts].
  destruct (env_step_keeps o p Hnd Hall Hp) as [H1 H2]. by apply IH.
Qed.

(** Whatever the text, the result is an object with distinct keys, each
    of them not empty, without comma and equals sign, without white space
    at its ends and not [__proto__], and each value a string without
    comma and without white space at its ends. *)
Theorem parseEnvironmentPairs_clean (input : list N) :
  NoDup (parseEnvironmentPairs input).*1
  ∧ Forall (fun kv => ∃ s, kv.2 = JStr s ∧ clean_key kv.1 ∧ clean_value s)
      (parseEnvironmentPairs input).
Proof.
  unfold parseEnvironmentPairs.
  destruct (truthy (trim input)); simpl; [|split; [apply NoDup_nil_2|done]].
  apply env_loop_keeps; [apply NoDup_nil_2|done|].
  apply Forall_forall. intros p Hp. apply list_elem_of_fmap in Hp as (q & -> & Hq).
  intros Hc. apply trim_elem in Hc. by apply split_no_sep in Hq.
Qed.

Lemma pair_text_ends (k v : list N) :
  clean_key k -> clean_value v ->
  pair_text (k, v) ≠ []
  ∧ trimStart (pair_text (k, v)) = pair_text (k, v)
  ∧ trimStart (rev (pair_text (k, v))) = rev (pair_text (k, v)).
Proof.
  intros (Hk & Hkt & _) (Hvt & _). unfold pair_text. simpl.
  apply trim_fix_ends in Hkt as [Hk1 Hk2].
  apply trim_fix_ends in Hvt as [Hv1 Hv2].
  split_and!.
  - by destruct k.
  - by apply trimStart_app.
  - rewrite rev_app_distr. simpl. rewrite <- app_assoc.
    destruct (decide (v = [])) as [->|Hv]; [done|].
    apply trimStart_app; [|done].
    intros Hr. apply (f_equal (@rev _)) in Hr. by rewrite rev_involutive in Hr.
Qed.

Lemma pair_text_no_comma (k v : list N) :
  clean_key k -> clean_value v -> 44%N ∉ pair_text (k, v).
Proof.
  intros (_ & _ & Hk & _) (_ & Hv). unfold pair_text. simpl.
  rewrite elem_of_app, elem_of_cons. intros [?|[?|?]]; done.
Qed.

Lemma env_step_pair (o : list (list N * json)) (k v : list N) :
  clean_key k -> clean_value v ->
  env_step o (pair_text (k, v)) = set_field k (JStr v) o.
Proof.
  intros (Hk & Hkt & Hk44 & Hk61 & Hproto) (Hvt & Hv44).
  unfold env_step, pair_text. simpl.
  assert (Ht : truthy (k ++ 61%N :: v) = true) by (by destruct k).
  rewrite Ht. simpl. rewrite indexOf_app by done.
  destruct (length k) as [|n] eqn:Hlen; [by destruct k|].
  unfold slice. rewrite drop_0, Nat.sub_0_r, <- Hlen, take_app_length, Hkt.
  assert (Hd : drop (length k + 1) (k ++ 61%N :: v) = v).
  { rewrite drop_app_add. simpl. apply drop_0. }
  rewrite Hd, Hvt.
  assert (Ht' : truthy k = true) by (by destruct k).
  rewrite Ht'. simpl. unfold assign, assign_under, reaches_setter, str_eqb.
  by rewrite bool_decide_eq_false_2.
Qed.

Lemma env_loop_pairs (l : list (list N * list N)) : ∀ o : list (list N * json),
  Forall (fun kv => clean_key kv.1 ∧ clean_value kv.2) l ->
  foldl env_step o (map pair_text l)
  = foldl (fun o kv => set_field kv.1 (JStr kv.2) o) o l.
Proof.
  induction l as [|[k v] l IH]; intros o H; simpl; [done|].
  apply Forall_cons in H as [[Hk Hv] H]. simpl in *.
  rewrite <- IH by done. f_equal. by apply env_step_pair.
Qed.

Lemma parseEnvironmentPairs_fold (l : list (list N * list N)) :
  Forall (fun kv => clean_key kv.1 ∧ clean_value kv.2) l ->
  parseEnvironmentPairs (join_with [44%N] (map pair_text l))
  = foldl (fun o kv => set_field kv.1 (JStr kv.2) o) [] l.
Proof.
  intros H. destruct l as [|kv0 l0] eqn:Hl; [done|]. rewrite <- Hl in *.
  assert (Hparts : map pair_text l ≠ []) by (by rewrite Hl).
  assert (Hends : Forall (fun p => p ≠ [] ∧ trimStart p = p
                                   ∧ trimStart (rev p) = rev p) (map pair_text l)).
  { apply Forall_fmap. eapply Forall_impl; [exact H|].
    intros [k v] [Hk Hv]. by apply pair_text_ends. }
  destruct (join_ends [44%N] _ Hparts Hends) as (Hne & H1 & H2).
  unfold parseEnvironmentPairs. rewrite (trim_id _ H1 H2).
  assert (Ht : truthy (join_with [44%N] (map pair_text l)) = true)
    by (by destruct (join_with [44%N] (map pair_text l))).
  rewrite Ht. simpl. rewrite split_join; [|done|].
  - assert (Hid : map trim (map pair_text l) = map pair_text l).
    { rewrite <- (map_id (map pair_text l)) at 2. apply map_ext_Forall.
      eapply Forall_impl; [exact Hends|]. intros p (_ & ? & ?). by apply trim_id. }
    rewrite Hid. by apply env_loop_pairs.
  - apply Forall_fmap. eapply Forall_impl; [exact H|].
    intros [k v] [Hk Hv]. by apply pair_text_no_comma.
Qed.

(** Round trip: the text [k1=v1,k2=v2,...] of clean keys and values is
    read back as the object that holds, for each key, the value of the
    last pair with that key, and nothing else. *)
Theorem parseEnvironmentPairs_join (l : list (list N * list N)) (k : list N) :
  Forall (fun kv => clean_key kv.1 ∧ clean_value kv.2) l ->
  field k (parseEnvironmentPairs (join_with [44%N] (map pair_text l)))
  = JStr <$> (list_to_map (rev l) : gmap (list N) (list N)) !! k.
Proof.
  intros H. rewrite parseEnvironmentPairs_fold by done. clear H.
  induction l as [|[k0 v0] l IH] using rev_ind; [done|].
  rewrite foldl_app, rev_unit. simpl.
  destruct (decide (k = k0)) as [->|Hne].
  - by rewrite field_set_field_eq, lookup_insert_eq.
  - by rewrite field_set_field_ne, lookup_insert_ne, IH.
Qed.

(** *** [extractMcpImportMap] *)

(** An import that names a server gives at most that server: for a name
    that [Object.prototype] does not define, the result is [undefined] or
    an object whose only key is the name, and its value is
    [input.mcp[name]], the input itself or [input[name]]. *)
Theorem extractMcpImportMap_named (input : value) (n : list N)
    (m : list (list N * json)) :
  truthy n = true ->
  inherited n = false ->
  extractMcpImportMap input (Some n) = Some m ->
  ∃ fields v, input = Some (JObj fields) ∧ m = [(n, v)]
    ∧ (v = JObj fields
       ∨ field n fields = Some v
       ∨ ∃ mcp, field (js "mcp") fields = Some (JObj mcp) ∧ field n mcp = Some v).
Proof.
  intros Hn _. unfold extractMcpImportMap.
  destruct input as [[| | | | | |fields]|]; try done. rewrite Hn.
  destruct (field (js "mcp") fields) as [[| | | | | |mcp]|] eqn:Hmcp.
  7: destruct (field n mcp) as [v|] eqn:Hv;
       [intros [= <-]; exists fields, v; split_and!; [done|done|];
        right; right; by exists mcp|].
  all: destruct (typed_object (JObj fields));
    [intros [= <-]; exists fields, (JObj fields); split_and!; [done|done|by left]|].
  all: destruct (field n fields) as [v|] eqn:Hv'; [|done].
  all: intros [= <-]; exists fields, v; split_and!; [done|done|by right; left].
Qed.

(** *** [redactForPrint] *)

Lemma same_but_refl k (o : list (list N * json)) : same_but k o o.
Proof. by split. Qed.

Lemma same_but_set_field k v (o : list (list N * json)) :
  is_Some (field k o) -> same_but k o (set_field k v o).
Proof.
  intros [x Hx]. split.
  - unfold set_field. rewrite Hx. apply keys_replace_field.
  - intros f Hf. by apply field_set_field_ne.
Qed.

Lemma redact_entry_same (e : list (list N * json)) :
  same_but_secret e (redact_entry e).
Proof.
  unfold redact_entry, same_but_secret.
  destruct (remote_with_oauth e).
  2: { split; [apply same_but_refl|].
       destruct (field (js "oauth") e) as [[]|]; try done. }
  destruct (field (js "oauth") e) as [o|] eqn:Ho.
  2: { split; [apply same_but_refl|]. by rewrite ?Ho. }
  destruct o as [| | | | | |oauth].
  1-6: split; [apply same_but_refl|]; by rewrite ?Ho.
  destruct (truthy_value (field (js "clientSecret") oauth)) eqn:Hs.
  - split.
    + apply same_but_set_field. by rewrite Ho.
    + rewrite ?Ho, field_set_field_eq. apply same_but_set_field.
      by destruct (field (js "clientSecret") oauth).
  - split; [apply same_but_refl|]. rewrite ?Ho. apply same_but_refl.
Qed.

Lemma redact_entry_hides (e : list (list N * json)) s :
  shown_secret (JObj (redact_entry e)) = Some s -> s = JStr (js "REDACTED").
Proof.
  unfold redact_entry.
  destruct (remote_with_oauth e) eqn:Hr; [|simpl; by rewrite Hr].
  destruct (field (js "oauth") e) as [o|] eqn:Ho; [|simpl; by rewrite Hr, Ho].
  destruct o as [| | | | | |oauth]; try (simpl; by rewrite Hr, Ho).
  destruct (truthy_value (field (js "clientSecret") oauth)) eqn:Hs.
  - unfold shown_secret. rewrite !field_set_field_eq. simpl.
    case_match; [|done]. by intros [= <-].
  - simpl. by rewrite Hr, Ho, Hs.
Qed.

Lemma redact_loop_elems (mcp : list (list N * list (list N * json))) :
  ∀ (o : list (list N * json)) k v,
    (k, v) ∈ foldl (fun out e => assign e.1 (JObj (redact_entry e.2)) out) o mcp ->
    (k, v) ∈ o ∨ ∃ e, (k, e) ∈ mcp ∧ v = JObj (redact_entry e).
Proof.
  induction mcp as [|[k0 e0] mcp IH]; intros o k v; simpl; [by left|].
  intros H. apply IH in H as [H|(e & He & ->)].
  - apply elem_assign in H as [[= -> ->]|H]; [|by left].
    right. exists e0. split; [by left|done].
  - right. exists e. split; [by right|done].
Qed.

Lemma redact_loop_keys (mcp : list (list N * list (list N * json))) :
  ∀ (o : list (list N * json)) k,
    k ≠ js "__proto__" -> (k ∈ mcp.*1 ∨ is_Some (field k o)) ->
    is_Some (field k (foldl (fun out e => assign e.1 (JObj (redact_entry e.2)) out)
                        o mcp)).
Proof.
  induction mcp as [|[k0 e0] mcp IH]; intros o k Hk; simpl.
  - intros [H|H]; [by apply elem_of_nil in H|done].
  - intros H. apply IH; [done|].
    destruct (decide (k = k0)) as [->|Hne].
    + right. by rewrite field_assign_eq.
    + rewrite field_assign_ne by done.
      destruct H as [H|H]; [|by right].
      apply elem_of_cons in H as [H|H]; [done|by left].
Qed.

(** No client secret is printed: an entry of the result that is a remote
    server with an [oauth] object shows no client secret, or the text
    [REDACTED]. *)
Theorem redactForPrint_hides (mcp : list (list N * list (list N * json)))
    (k : list N) (v s : json) :
  (k, v) ∈ redactForPrint mcp ->
  shown_secret v = Some s -> s = JStr (js "REDACTED").
Proof.
  intros H. apply redact_loop_elems in H as [H|(e & _ & ->)].
  - by apply elem_of_nil in H.
  - apply redact_entry_hides.
Qed.

(** Nothing else is touched: every entry of the result is an entry of the
    input with the same keys and the same values, but for the client
    secret of its [oauth] object, and every server of the input, but one
    called [__proto__], is in the result. *)
Theorem redactForPrint_keeps (mcp : list (list N * list (list N * json))) :
  (∀ k v, (k, v) ∈ redactForPrint mcp ->
     ∃ e e', (k, e) ∈ mcp ∧ v = JObj e' ∧ same_but_secret e e')
  ∧ (∀ k, k ∈ mcp.*1 -> k ≠ js "__proto__" ->
       is_Some (field k (redactForPrint mcp))).
Proof.
  split.
  - intros k v H. apply redact_loop_elems in H as [H|(e & He & ->)].
    + by apply elem_of_nil in H.
    + exists e, (redact_entry e). split_and!; [done|done|apply redact_entry_same].
  - intros k Hk Hp. apply redact_loop_keys; [done|by left].
Qed.

(** *** [upsertMcpsIntoFile] *)

Lemma upsert_step_cases overwrite isTTY confirm st e st' :
  upsert_step overwrite isTTY confirm st e = Some st' ->
  (st' = skip e.1 st ∧ overwrite = false)
  ∨ st' = take_entry (defined_in st e.1) e.1 e.2 st.
Proof.
  unfold upsert_step.
  destruct (defined_in st e.1), overwrite; simpl; try (intros [= <-]; by right).
  destruct isTTY; simpl; [|intros [= <-]; by left].
  destruct (confirm e.1); intros [= <-]; [by right|by left].
Qed.

(** What the loop does to its variables: the names it went through are
    shared out between [added], [overwritten] and [skipped]; [changed]
    is set when a name was added or overwritten; and [nextMcp] holds the
    entries of the names added or overwritten, and is as it was for the
    other names. *)
Lemma upsert_loop_spec overwrite isTTY confirm
    (entries : list (list N * list (list N * json))) : ∀ st st',
  upsert_loop overwrite isTTY confirm entries st = Some st' ->
  ∃ a b s,
    added st' = added st ++ a ∧ overwritten st' = overwritten st ++ b
    ∧ skipped st' = skipped st ++ s
    ∧ entries.*1 ≡ₚ a ++ b ++ s
    ∧ changed st' = changed st || negb (bool_decide (a ++ b = []))
    ∧ (overwrite = true -> s = [])
    ∧ (NoDup entries.*1 -> ∀ name, name ≠ js "__proto__" ->
         (name ∈ a ++ b ->
            ∃ e, (name, e) ∈ entries ∧ field name (nextMcp st') = Some (JObj e))
         ∧ (name ∉ a ++ b -> field name (nextMcp st') = field name (nextMcp st))).
Proof.
  induction entries as [|[n0 e0] entries IH]; intros st st'; simpl.
  - intros [= <-]. exists [], [], []. rewrite !app_nil_r. split_and!; try done.
    + by destruct (changed st).
    + intros _ name _. split; [|done]. intros H. by apply elem_of_nil in H.
  - destruct (upsert_step overwrite isTTY confirm st (n0, e0)) as [st1|] eqn:Hstep;
      [|done].
    intros Hloop. destruct (IH _ _ Hloop) as (a & b & s & Ha & Hb & Hs & Hperm
                                                & Hch & Hov & Hcontent).
    apply upsert_step_cases in Hstep as [[-> Hover]| ->]; simpl in *.
    + exists a, b, (n0 :: s). rewrite Ha, Hb, Hs, <- app_assoc. split_and!; try done.
      * rewrite Hperm. by rewrite !Permutation_middle.
      * intros Ho. by rewrite Ho in Hover.
      * intros Hnd. apply NoDup_cons in Hnd as [Hn0 Hnd]. intros name Hname.
        destruct (Hcontent Hnd name Hname) as [H1 H2]. split; [|done].
        intros Hin. destruct (H1 Hin) as (e & He & Hf). exists e. split; [by right|done].
    + assert (Hfresh : NoDup (n0 :: entries.*1) -> n0 ∉ a ++ b).
      { intros Hnd. apply NoDup_cons in Hnd as [Hn0 _]. intros Hin. apply Hn0.
        rewrite Hperm, app_assoc. apply elem_of_app. by left. }
      assert (Hcont : NoDup (n0 :: entries.*1) -> ∀ name, name ≠ js "__proto__" ->
                (name = n0 ∨ name ∈ a ++ b ->
                   ∃ e, (name, e) ∈ (n0, e0) :: entries
                        ∧ field name (nextMcp st') = Some (JObj e))
                ∧ (name ≠ n0 -> name ∉ a ++ b ->
                   field name (nextMcp st') = field name (nextMcp st))).
      { intros Hnd name Hname. pose proof (Hfresh Hnd) as Hn0.
        apply NoDup_cons in Hnd as [_ Hnd].
        destruct (Hcontent Hnd name Hname) as [H1 H2]. split.
        - intros [->|Hin].
          + exists e0. split; [by left|]. rewrite H2 by done. by apply field_assign_under_eq.
          + destruct (H1 Hin) as (e & He & Hf). exists e. split; [by right|done].
        - intros Hne Hin. rewrite H2 by done. by apply field_assign_under_ne. }
      destruct (defined_in st n0).
      * exists a, (n0 :: b), s. rewrite Ha, Hb, Hs, <- !app_assoc. split_and!; try done.
        -- rewrite Hperm. by rewrite Permutation_middle.
        -- rewrite Hch, (bool_decide_eq_false_2 (a ++ n0 :: b = []))
             by (by destruct a).
           by rewrite orb_true_r.
        -- intros Hnd name Hname. destruct (Hcont Hnd name Hname) as [H1 H2]. split.
           ++ intros Hin. apply H1. rewrite elem_of_app, elem_of_cons in Hin.
              rewrite elem_of_app. tauto.
           ++ intros Hin. rewrite elem_of_app, elem_of_cons in Hin.
              apply H2; [tauto|]. rewrite elem_of_app. tauto.
      * exists (n0 :: a), b, s. rewrite Ha, Hb, Hs, <- !app_assoc. split_and!; try done.
        -- by rewrite Hperm.
        -- rewrite Hch, (bool_decide_eq_false_2 ((n0 :: a) ++ b = [])) by done.
           by rewrite orb_true_r.
        -- intros Hnd name Hname. destruct (Hcont Hnd name Hname) as [H1 H2]. split.
           ++ intros Hin. apply H1. simpl in Hin. rewrite elem_of_cons in Hin. tauto.
           ++ intros Hin. simpl in Hin. rewrite elem_of_cons in Hin.
              apply H2; tauto.
Qed.

(** The account of an import that was not cancelled: every name of the
    entries is reported once, as added, overwritten or skipped; the file
    is written exactly when a name was added or overwritten; and with
    [overwrite] no name is skipped. *)
Theorem upsertMcpsIntoFile_accounts (existing : list (list N * json))
    (entries : list (list N * list (list N * json))) (overwrite isTTY : bool)
    (confirm : list N -> Answer) (r : UpsertResult) :
  upsertMcpsIntoFile existing entries overwrite isTTY confirm = Some r ->
  entries.*1 ≡ₚ r_added r ++ r_overwritten r ++ r_skipped r
  ∧ (written r = true <-> r_added r ++ r_overwritten r ≠ [])
  ∧ (is_Some (file r) <-> written r = true)
  ∧ (overwrite = true -> r_skipped r = []).
Proof.
  unfold upsertMcpsIntoFile.
  destruct (upsert_loop _ _ _ _ _) as [st|] eqn:Hloop; [|done].
  destruct (upsert_loop_spec _ _ _ _ _ _ Hloop)
    as (a & b & s & Ha & Hb & Hs & Hperm & Hch & Hov & _).
  simpl in *. subst a b s.
  destruct (changed st) eqn:Hc; simpl; intros [= <-]; simpl.
  - split_and!; [done| |done|done].
    split; [|done]. intros _. symmetry in Hch. apply negb_true_iff in Hch.
    by apply bool_decide_eq_false_1 in Hch.
  - split_and!; [done| | |done].
    + split; [done|]. intros Hne. symmetry in Hch. apply negb_false_iff in Hch.
      by apply bool_decide_eq_true_1 in Hch.
    + split; [by intros [? ?]|done].
Qed.

(** What an import writes: the file keeps its other properties, gets
    [$schema] if it had none, and its [mcp] object holds the entry of
    every name added or overwritten and, for every other name, what it
    held before. *)
Theorem upsertMcpsIntoFile_writes (existing : list (list N * json))
    (entries : list (list N * list (list N * json))) (overwrite isTTY : bool)
    (confirm : list N -> Answer) (r : UpsertResult) :
  NoDup entries.*1 ->
  upsertMcpsIntoFile existing entries overwrite isTTY confirm = Some r ->
  written r = true ->
  ∃ F next,
    file r = Some F ∧ field (js "mcp") F = Some (JObj next)
    ∧ (∀ name, name ≠ js "__proto__" ->
         (name ∈ r_added r ++ r_overwritten r ->
            ∃ e, (name, e) ∈ entries ∧ field name next = Some (JObj e))
         ∧ (name ∉ r_added r ++ r_overwritten r ->
            field name next = field name (currentMcp existing)))
    ∧ (∀ k, k ≠ js "mcp" -> k ≠ js "$schema" -> field k F = field k existing)
    ∧ field (js "$schema") F
      = (if truthy_value (field (js "$schema") existing)
         then field (js "$schema") existing
         else Some (JStr (js "https://opencode.ai/config.json"))).
Proof.
  intros Hnd. unfold upsertMcpsIntoFile.
  destruct (upsert_loop _ _ _ _ _) as [st|] eqn:Hloop; [|done].
  destruct (upsert_loop_spec _ _ _ _ _ _ Hloop)
    as (a & b & s & Ha & Hb & Hs & _ & _ & _ & Hcontent).
  simpl in *. subst a b s.
  destruct (changed st); simpl; intros [= <-]; simpl; [|done]. intros _.
  eexists _, (nextMcp st). split_and!.
  - done.
  - by apply field_assign_eq.
  - by apply Hcontent.
  - intros k Hk1 Hk2. rewrite field_assign_ne by done.
    destruct (truthy_value (field (js "$schema") existing)); simpl; [done|].
    by apply field_assign_ne.
  - rewrite field_assign_ne by done.
    destruct (truthy_value (field (js "$schema") existing)); simpl; [done|].
    by apply field_assign_eq.
Qed.

(** *** Examples *)

Example parseCommandLine_quotes :
  parseCommandLine (js "npx -y 'my server' --name='a b' x\ y  ")
  = [js "npx"; js "-y"; js "my server"; js "--name=a b"; js "x y"].
Proof. vm_compute. reflexivity. Qed.

Example parseEnvironmentPairs_text :
  parseEnvironmentPairs (js " A=1, B = x y ,=z,C,A=2=3 ")
  = [ (js "A", JStr (js "2=3")); (js "B", JStr (js "x y")) ].
Proof. vm_compute. reflexivity. Qed.

Lemma parseCommandLine_join_witness :
  Forall2 writes [js "npx"; js "'my server'"; js "--port"] [js "npx"; js "my server"; js "--port"]
  ∧ parseCommandLine (join_with [32%N] [js "npx"; js "'my server'"; js "--port"])
    = [js "npx"; js "my server"; js "--port"].
Proof.
  assert (H : Forall2 writes [js "npx"; js "'my server'"; js "--port"]
                [js "npx"; js "my server"; js "--port"]).
  { apply Forall2_cons_2; [split; [done|left; split; reflexivity]|].
    apply Forall2_cons_2.
    - split; [done|]. right. exists 39%N. split; [by left|]. split; reflexivity.
    - apply Forall2_cons_2; [split; [done|left; split; reflexivity]|].
      apply Forall2_nil_2. }
  split; [exact H|]. exact (parseCommandLine_join _ _ H).
Defined.

Lemma demo_pairs_clean :
  Forall (fun kv => clean_key kv.1 ∧ clean_value kv.2) demo_pairs.
Proof.
  repeat constructor; try reflexivity; try done;
    apply (bool_decide_unpack _); vm_compute; exact I.
Defined.

Lemma parseEnvironmentPairs_join_witness :
  Forall (fun kv => clean_key kv.1 ∧ clean_value kv.2) demo_pairs
  ∧ field (js "API_KEY")
      (parseEnvironmentPairs (join_with [44%N] (map pair_text demo_pairs)))
    = JStr <$> (list_to_map (rev demo_pairs) : gmap (list N) (list N)) !! js "API_KEY".
Proof.
  split; [exact demo_pairs_clean|].
  exact (parseEnvironmentPairs_join demo_pairs (js "API_KEY") demo_pairs_clean).
Defined.

Lemma extractMcpImportMap_named_witness :
  truthy (js "files") = true
  ∧ inherited (js "files") = false
  ∧ extractMcpImportMap (Some demo_document) (Some (js "files"))
    = Some [ (js "files",
              JObj demo_files) ]
  ∧ ∃ fields v, Some demo_document = Some (JObj fields)
      ∧ [ (js "files",
           JObj demo_files) ]
        = [(js "files", v)]
      ∧ (v = JObj fields
         ∨ field (js "files") fields = Some v
         ∨ ∃ mcp, field (js "mcp") fields = Some (JObj mcp)
                  ∧ field (js "files") mcp = Some v).
Proof.
  split; [reflexivity|]. split; [vm_compute; reflexivity|].
  split; [vm_compute; reflexivity|].
  apply (extractMcpImportMap_named (Some demo_document) (js "files"));
    [reflexivity|vm_compute; reflexivity|].
  vm_compute. reflexivity.
Defined.

Lemma redactForPrint_hides_witness :
  (js "search",
   JObj [ (js "type", JStr (js "remote")); (js "url", JStr (js "https://example.com/mcp"));
          (js "oauth", JObj [ (js "clientId", JStr (js "opencode"));
                              (js "clientSecret", JStr (js "REDACTED")) ]) ])
  ∈ redactForPrint demo_servers
  ∧ ∀ s, shown_secret
           (JObj [ (js "type", JStr (js "remote"));
                   (js "url", JStr (js "https://example.com/mcp"));
                   (js "oauth", JObj [ (js "clientId", JStr (js "opencode"));
                                       (js "clientSecret", JStr (js "REDACTED")) ]) ])
         = Some s -> s = JStr (js "REDACTED").
Proof.
  assert (H : (js "search",
               JObj [ (js "type", JStr (js "remote"));
                      (js "url", JStr (js "https://example.com/mcp"));
                      (js "oauth", JObj [ (js "clientId", JStr (js "opencode"));
                                          (js "clientSecret", JStr (js "REDACTED")) ]) ])
              ∈ redactForPrint demo_servers).
  { vm_compute. apply list_elem_of_here. }
  split; [exact H|]. intros s. exact (redactForPrint_hides demo_servers _ _ s H).
Defined.

Lemma demo_import :
  upsertMcpsIntoFile demo_file demo_servers false false decline
  = Some (mkUpsertResult true [js "search"; js "docs"] [] [js "files"]
            (Some [ (js "theme", JStr (js "dark"));
                    (js "mcp",
                     JObj [ (js "files", JObj [ (js "type", JStr (js "local")) ]);
                            (js "search", JObj demo_search);
                            (js "docs", JObj demo_docs) ]);
                    (js "$schema", JStr (js "https://opencode.ai/config.json")) ])).
Proof. vm_compute. reflexivity. Defined.

Lemma upsertMcpsIntoFile_accounts_witness :
  upsertMcpsIntoFile demo_file demo_servers false false decline
  = Some (mkUpsertResult true [js "search"; js "docs"] [] [js "files"]
            (Some [ (js "theme", JStr (js "dark"));
                    (js "mcp",
                     JObj [ (js "files", JObj [ (js "type", JStr (js "local")) ]);
                            (js "search", JObj demo_search);
                            (js "docs", JObj demo_docs) ]);
                    (js "$schema", JStr (js "https://opencode.ai/config.json")) ]))
  ∧ demo_servers.*1 ≡ₚ [js "search"; js "docs"] ++ [] ++ [js "files"].
Proof.
  split; [exact demo_import|].
  exact (proj1 (upsertMcpsIntoFile_accounts _ _ _ _ _ _ demo_import)).
Defined.

Lemma demo_servers_NoDup : NoDup demo_servers.*1.
Proof. apply (bool_decide_unpack _). vm_compute. exact I. Defined.

Lemma upsertMcpsIntoFile_writes_witness :
  NoDup demo_servers.*1
  ∧ ∃ F next,
      Some [ (js "theme", JStr (js "dark"));
             (js "mcp",
              JObj [ (js "files", JObj [ (js "type", JStr (js "local")) ]);
                     (js "search", JObj demo_search);
                     (js "docs", JObj demo_docs) ]);
             (js "$schema", JStr (js "https://opencode.ai/config.json")) ]
      = Some F
      ∧ field (js "mcp") F = Some (JObj next)
      ∧ field (js "files") next = field (js "files") (currentMcp demo_file)
      ∧ field (js "theme") F = field (js "theme") demo_file.
Proof.
  split; [exact demo_servers_NoDup|].
  destruct (upsertMcpsIntoFile_writes _ _ _ _ _ _ demo_servers_NoDup demo_import eq_refl)
    as (F & next & HF & Hmcp & Hnames & Hkeep & _).
  exists F, next. split_and!; [exact HF|exact Hmcp| |].
  - apply (Hnames (js "files")); apply (bool_decide_unpack _); vm_compute; exact I.
  - apply Hkeep; apply (bool_decide_unpack _); vm_compute; exact I.
Defined.

End McpCliSpec.

(** ** The stream of a response *)

Module OllamaStreamSpec.
Import Json Ollama OllamaStream.

#[local] Arguments opt_get : simpl never.

Example two_lines_text :
  doStream parse stringify true 200
    (Some [take 20 (unlines two_lines); drop 20 (unlines two_lines)]) false false 0
  = Ok ([StreamStart; TextStart (js "ollama-text");
         TextDelta (js "ollama-text") (js "Hel"); TextDelta (js "ollama-text") (js "lo");
         TextEnd (js "ollama-text"); Finish stop], 0).
Proof. vm_compute. reflexivity. Qed.

Section StreamSpec.

Variable JSON_parse : list N -> option json.
Variable JSON_stringify : json -> list N.

(** *** The reads of the body *)

Lemma lines_loop_app raw pm (l1 l2 : list (list N)) : ∀ st,
  isDone st = false ->
  lines_loop JSON_parse raw pm (l1 ++ l2) st
  = (let st' := lines_loop JSON_parse raw pm l1 st in
     if isDone st' then st' else lines_loop JSON_parse raw pm l2 st').
Proof.
  induction l1 as [|line l1 IH]; intros st Hst; simpl.
  - by rewrite Hst.
  - destruct (isDone (line_step JSON_parse raw pm line st)) eqn:Hd.
    + by rewrite Hd.
    + by apply IH.
Qed.

(** The loop over the reads sees the lines of the text read so far,
    however the text was cut into reads. *)
Lemma read_loop_lines raw pm (chunks : list (list N)) : ∀ buffer st,
  10%N ∉ buffer -> isDone st = false ->
  read_loop JSON_parse raw pm chunks buffer st
  = lines_loop JSON_parse raw pm (removelast (split 10 (buffer ++ concat chunks))) st.
Proof.
  induction chunks as [|v chunks IH]; intros buffer st Hb Hst; simpl.
  - rewrite app_nil_r, split_one by done. done.
  - rewrite (app_assoc buffer v), (split_app 10 (buffer ++ v) (concat chunks)).
    set (lines := split 10 (buffer ++ v)).
    rewrite removelast_app by apply split_nonempty.
    rewrite lines_loop_app by done. cbv zeta.
    destruct (isDone (lines_loop JSON_parse raw pm (removelast lines) st)) eqn:Hd;
      [done|].
    apply IH; [apply split_last_no_sep|done].
Qed.

(** The parts of a stream depend on the text of the body only, not on
    how the transport cut it into reads. *)
Theorem doStream_reads (ok : bool) (status : Z) (chunks : list (list N))
    (includeRawChunks prompt_mode : bool) (n : nat) :
  doStream JSON_parse JSON_stringify ok status (Some chunks)
    includeRawChunks prompt_mode n
  = doStream JSON_parse JSON_stringify ok status (Some [concat chunks])
      includeRawChunks prompt_mode n.
Proof.
  unfold doStream. destruct ok; [|done]. cbn [negb].
  assert (H : read_loop JSON_parse includeRawChunks prompt_mode chunks [] stream_started
              = read_loop JSON_parse includeRawChunks prompt_mode [concat chunks] []
                  stream_started).
  { rewrite !read_loop_lines by (done || apply not_elem_of_nil).
    simpl. by rewrite app_nil_r. }
  by rewrite H.
Qed.

(** *** Prompt mode *)

(** What one line does in prompt mode, in terms of the line alone. *)
Lemma line_step_prompt raw (line : list N) st :
  parts (line_step JSON_parse raw true line st)
  = parts st ++ line_quiet JSON_parse raw line
  ∧ fullText (line_step JSON_parse raw true line st)
    = fullText st ++ line_text JSON_parse line
  ∧ isDone (line_step JSON_parse raw true line st)
    = isDone st || says_done JSON_parse line.
Proof.
  unfold line_step, line_quiet, line_text, says_done, line_chunk.
  destruct (truthy (trim line)); cbn [negb].
  2: { by rewrite !app_nil_r, orb_false_r. }
  destruct (JSON_parse (trim line)) as [chunk|].
  2: { destruct raw; simpl; by rewrite ?app_nil_r, ?orb_false_r, <- ?app_assoc. }
  assert (Hparts : parts (if raw then enqueue (Raw (trim line)) st else st)
                   = parts st ++ (if raw then [Raw (trim line)] else []) ++ [])
    by (destruct raw; simpl; by rewrite ?app_nil_r).
  assert (Htext : fullText (if raw then enqueue (Raw (trim line)) st else st)
                  = fullText st) by (by destruct raw).
  assert (Hdone : isDone (if raw then enqueue (Raw (trim line)) st else st)
                  = isDone st) by (by destruct raw).
  set (st1 := if raw then enqueue (Raw (trim line)) st else st) in *.
  set (delta := coalesce _ _).
  assert (Hdelta : string_or delta []
                   = match chunk with
                     | JObj fields =>
                         match field (js "message") fields with
                         | Some (JObj message) =>
                             match field (js "content") message with
                             | Some (JStr s) => s
                             | _ => response_string fields
                             end
                         | _ => response_string fields
                         end
                     | _ => []
                     end).
  { subst delta. unfold message_content, response_string, opt_get.
    destruct chunk as [| | | | | |fields]; try done.
    destruct (field (js "message") fields) as [[| | | | | |message]|]; simpl;
      try (by destruct (field (js "response") fields) as [[]|]).
    - destruct b; simpl; by destruct (field (js "response") fields) as [[]|].
    - destruct (negb (z =? 0)%Z); simpl;
        by destruct (field (js "response") fields) as [[]|].
    - destruct (negb (lexeme_is_zero lexeme)); simpl;
        by destruct (field (js "response") fields) as [[]|].
    - destruct (truthy s); simpl; by destruct (field (js "response") fields) as [[]|].
    - destruct (field (js "content") message) as [[]|]; simpl;
        by destruct (field (js "response") fields) as [[]|]. }
  assert (H2 : ∀ st2,
            st2 = (if truthy_value delta
                   then set_fullText (fullText st1 ++ string_or delta []) st1
                   else st1) ->
            parts st2 = parts st1 ∧ fullText st2 = fullText st1 ++ string_or delta []
            ∧ isDone st2 = isDone st1).
  { intros st2 ->. destruct (truthy_value delta) eqn:Ht; [done|].
    split_and!; [done| |done].
    destruct delta as [[| | | | s| |]|]; simpl; rewrite ?app_nil_r; try done.
    simpl in Ht. destruct s; [by rewrite app_nil_r|done]. }
  destruct (H2 _ eq_refl) as (Hp2 & Ht2 & Hd2).
  set (st2 := if truthy_value delta then _ else _) in *.
  assert (Hsays : match opt_get (Some chunk) "done" with
                  | Some (JBool true) => true
                  | _ => false
                  end
                  = match chunk with
                    | JObj fields =>
                        match field (js "done") fields with
                        | Some (JBool true) => true
                        | _ => false
                        end
                    | _ => false
                    end).
  { unfold opt_get. by destruct chunk. }
  rewrite <- Hsays, <- Hdelta.
  destruct (opt_get (Some chunk) "done") as [[|[|]| | | | |]|]; simpl;
    rewrite ?Hp2, ?Ht2, ?Hd2, ?Hparts, ?Htext, ?Hdone, ?orb_false_r, ?orb_true_r;
    done.
Qed.

Lemma lines_loop_prompt raw (lines : list (list N)) : ∀ st,
  isDone st = false ->
  parts (lines_loop JSON_parse raw true lines st)
  = parts st ++ concat (map (line_quiet JSON_parse raw) (until_done JSON_parse lines))
  ∧ fullText (lines_loop JSON_parse raw true lines st)
    = fullText st ++ concat (map (line_text JSON_parse) (until_done JSON_parse lines)).
Proof.
  induction lines as [|line lines IH]; intros st Hst; simpl.
  - by rewrite !app_nil_r.
  - destruct (line_step_prompt raw line st) as (Hp & Ht & Hd).
    rewrite Hst in Hd. simpl in Hd. rewrite Hd.
    destruct (says_done JSON_parse line); simpl.
    + by rewrite Hp, Ht, !app_nil_r.
    + destruct (IH _ Hd) as [Hp' Ht']. by rewrite Hp', Ht', Hp, Ht, <- !app_assoc.
Qed.

Lemma line_quiet_quiet raw (line : list N) :
  Forall quiet_part (line_quiet JSON_parse raw line).
Proof.
  unfold line_quiet. destruct (truthy (trim line)); [|done].
  apply Forall_app. split.
  - destruct raw; [by apply Forall_singleton|done].
  - destruct (JSON_parse (trim line)); [done|by apply Forall_singleton].
Qed.

(** C4, as the code has it. In streaming prompt mode the adapter reads
    the lines of the body that a line feed ends, up to the first that
    says [done: true]; what follows the last line feed is not read.
    While it reads it enqueues, after stream-start, nothing but raw
    parts (when raw chunks are asked for) and error parts (for lines
    that are not JSON), and it gathers the text of the lines: the
    string [message.content] of each, else its string [response]. When
    the stream ends it parses the text gathered once, and enqueues one
    tool-call part per named call, each with its own new UUID, followed
    by finish with reason tool-calls, or one text-start, text-delta,
    text-end trio followed by finish with reason stop; finish is
    last. *)
Theorem prompt_mode_stream (status : Z) (chunks : list (list N))
    (includeRawChunks : bool) (n : nat) :
  let text := stream_text JSON_parse (concat chunks) in
  let quiet := stream_quiet JSON_parse includeRawChunks (concat chunks) in
  let root := root_of (extractJson JSON_parse text) in
  let calls := named_calls (tool_calls_of root) in
  Forall quiet_part quiet
  ∧ doStream JSON_parse JSON_stringify true status (Some chunks)
      includeRawChunks true n
    = Ok (match calls with
          | [] =>
              (StreamStart :: quiet
                 ++ [TextStart (js "ollama-text");
                     TextDelta (js "ollama-text") (nullish (final_text root) text);
                     TextEnd (js "ollama-text")]
                 ++ [Finish stop], n)
          | _ =>
              (StreamStart :: quiet
                 ++ imap (fun i c => ToolCallPart (n + i) (name c)
                                       (JSON_stringify (arguments c))) calls
                 ++ [Finish tool_calls],
               (n + length calls)%nat)
          end).
Proof.
  intros text quiet root calls. split.
  - subst quiet. unfold stream_quiet. apply Forall_concat, Forall_fmap.
    apply Forall_forall. intros line _. apply line_quiet_quiet.
  - unfold doStream. cbn [negb].
    rewrite read_loop_lines by (done || apply not_elem_of_nil). cbn [app].
    destruct (lines_loop_prompt includeRawChunks (complete_lines (concat chunks))
                stream_started eq_refl) as [Hp Ht].
    unfold complete_lines in Hp, Ht. rewrite Hp, Ht. cbn [fullText stream_started app].
    fold (complete_lines (concat chunks)). fold (stream_text JSON_parse (concat chunks)).
    fold (stream_quiet JSON_parse includeRawChunks (concat chunks)).
    fold text. fold quiet.
    rewrite OllamaSpec.parsePromptToolCall_spec. cbn [bind]. unfold prompt_answer.
    fold root. fold calls. subst calls.
    rewrite <- OllamaSpec.tool_call_parts_eq.
    by destruct (named_calls (tool_calls_of root)).
Qed.

(** *** The line that says [done] *)

Lemma split_unlines (ls : list (list N)) (r : list N) :
  Forall (fun l => 10%N ∉ l) ls -> split 10 (unlines ls ++ r) = ls ++ split 10 r.
Proof.
  induction 1 as [|l ls Hl _ IH]; [done|].
  cbn [unlines flat_map]. rewrite <- !app_assoc. cbn [app].
  rewrite split_app_sep by done. by rewrite <- IH.
Qed.

Lemma line_step_done raw pm (d : list N) st :
  done_line JSON_parse d -> isDone (line_step JSON_parse raw pm d st) = true.
Proof.
  intros (Hd & chunk & Hp & Hdone). unfold line_step.
  assert (Ht : truthy (trim d) = true) by (by destruct (trim d)).
  rewrite Ht, Hp, Hdone. done.
Qed.

Lemma lines_loop_done raw pm (ls : list (list N)) (d : list N) st :
  done_line JSON_parse d -> isDone st = false ->
  isDone (lines_loop JSON_parse raw pm (ls ++ [d]) st) = true.
Proof.
  intros Hd Hst. rewrite lines_loop_app by done. cbv zeta.
  destruct (isDone (lines_loop JSON_parse raw pm ls st)) eqn:E; [done|].
  cbn [lines_loop]. rewrite (line_step_done raw pm d _ Hd).
  by apply line_step_done.
Qed.

(** Nothing of the body is looked at after the line that says
    [done: true]: what follows it changes nothing. *)
Theorem doStream_done (ok : bool) (status : Z) (ls : list (list N))
    (d post : list N) (includeRawChunks prompt_mode : bool) (n : nat) :
  Forall (fun l => 10%N ∉ l) ls -> 10%N ∉ d -> done_line JSON_parse d ->
  doStream JSON_parse JSON_stringify ok status (Some [unlines (ls ++ [d]) ++ post])
    includeRawChunks prompt_mode n
  = doStream JSON_parse JSON_stringify ok status (Some [unlines (ls ++ [d])])
      includeRawChunks prompt_mode n.
Proof.
  intros Hls Hd Hdone. unfold doStream. destruct ok; [|done]. cbn [negb].
  assert (Hall : Forall (fun l => 10%N ∉ l) (ls ++ [d])).
  { apply Forall_app. split; [done|]. by apply Forall_singleton. }
  assert (H : read_loop JSON_parse includeRawChunks prompt_mode
                [unlines (ls ++ [d]) ++ post] [] stream_started
              = read_loop JSON_parse includeRawChunks prompt_mode
                  [unlines (ls ++ [d])] [] stream_started).
  { rewrite !read_loop_lines by (done || apply not_elem_of_nil).
    cbn [concat app]. rewrite !app_nil_r.
    rewrite <- (app_nil_r (unlines (ls ++ [d]))) at 2.
    rewrite !split_unlines by done.
    rewrite !removelast_app by (done || apply split_nonempty).
    pose proof (lines_loop_done includeRawChunks prompt_mode ls d stream_started
                  Hdone eq_refl) as Hstop.
    set (l := ls ++ [d]) in *.
    rewrite !(lines_loop_app _ _ l) by done. cbv zeta.
    by rewrite Hstop. }
  by rewrite H.
Qed.

(** *** Plain mode *)

Lemma text_body_quiet (p : StreamPart) : quiet_part p -> text_body p.
Proof. by destruct p. Qed.

Lemma plain_state_enqueue (p : StreamPart) st :
  quiet_part p -> plain_state st -> plain_state (enqueue p st).
Proof.
  intros Hq [[Hc (q1 & Hp & Hq1)]|[Hc (q1 & d & q2 & Hp & Hq1 & Hq2)]].
  - left. split; [done|]. exists (q1 ++ [p]). simpl. rewrite Hp.
    split; [done|]. apply Forall_app. by split; [|apply Forall_singleton].
  - right. split; [done|]. exists q1, d, (q2 ++ [p]). simpl. rewrite Hp.
    split_and!; [simpl; by rewrite <- app_assoc|done|].
    apply Forall_app. split; [done|]. by apply Forall_singleton, text_body_quiet.
Qed.

Lemma plain_state_delta (delta : list N) st :
  plain_state st ->
  let st' := match currentTextId st with
             | Some _ => st
             | None => enqueue (TextStart (js "ollama-text"))
                         (set_currentTextId (Some (js "ollama-text")) st)
             end in
  plain_state (enqueue (TextDelta (nullish (currentTextId st') []) delta) st').
Proof.
  intros [[Hc (q1 & Hp & Hq1)]|[Hc (q1 & d & q2 & Hp & Hq1 & Hq2)]];
    cbv zeta; rewrite Hc; right; simpl.
  - split; [done|]. exists q1, delta, []. rewrite Hp. simpl.
    split_and!; [|done|done]. by rewrite <- app_assoc.
  - rewrite Hc. split; [done|].
    exists q1, d, (q2 ++ [TextDelta (js "ollama-text") delta]).
    rewrite Hp. simpl. split_and!; [simpl; by rewrite <- app_assoc|done|].
    apply Forall_app. by split; [|apply Forall_singleton].
Qed.

Lemma line_step_plain raw (line : list N) st :
  plain_state st -> plain_state (line_step JSON_parse raw false line st).
Proof.
  intros Hst. unfold line_step.
  destruct (truthy (trim line)); [|done]. cbn [negb].
  set (st1 := if raw then enqueue (Raw (trim line)) st else st).
  assert (Hst1 : plain_state st1).
  { unfold st1. destruct raw; [|done]. by apply plain_state_enqueue. }
  clearbody st1. clear Hst.
  destruct (JSON_parse (trim line)) as [chunk|].
  - set (delta := coalesce _ _).
    destruct (truthy_value delta).
    + pose proof (plain_state_delta (string_or delta []) st1 Hst1) as Hst2.
      cbv zeta in Hst2.
      by destruct (opt_get (Some chunk) "done") as [[|[]| | | | |]|].
    + by destruct (opt_get (Some chunk) "done") as [[|[]| | | | |]|].
  - by apply (plain_state_enqueue ErrorPart).
Qed.

Lemma lines_loop_plain raw (lines : list (list N)) : ∀ st,
  plain_state st -> plain_state (lines_loop JSON_parse raw false lines st).
Proof.
  induction lines as [|line lines IH]; intros st Hst; simpl; [done|].
  pose proof (line_step_plain raw line st Hst) as H1.
  destruct (isDone _); [done|]. by apply IH.
Qed.

Lemma read_loop_plain raw (chunks : list (list N)) : ∀ buffer st,
  plain_state st -> plain_state (read_loop JSON_parse raw false chunks buffer st).
Proof.
  induction chunks as [|v chunks IH]; intros buffer st Hst; simpl; [done|].
  pose proof (lines_loop_plain raw (removelast (split 10 (buffer ++ v))) st Hst) as H1.
  destruct (isDone _); [done|]. by apply IH.
Qed.

(** Without prompt-mode tool calling, the stream of a response with a
    body is [stream-start], raw chunks and errors, then nothing or the
    text ([text-start], a first delta, deltas, raw chunks and errors,
    [text-end]), and [finish] with the reason [stop], also after an
    error part; no UUID is drawn. *)
Theorem doStream_plain (status : Z) (chunks : list (list N))
    (includeRawChunks : bool) (n : nat) :
  ∃ q text,
    doStream JSON_parse JSON_stringify true status (Some chunks)
      includeRawChunks false n
    = Ok (StreamStart :: q ++ text ++ [Finish stop], n)
    ∧ Forall quiet_part q ∧ text_block text.
Proof.
  unfold doStream. cbn [negb].
  assert (H0 : plain_state stream_started).
  { left. split; [done|]. by exists []. }
  pose proof (read_loop_plain includeRawChunks chunks [] _ H0) as Hst.
  set (st := read_loop _ _ _ _ _ _) in *. clearbody st.
  destruct Hst as [[Hc (q1 & Hp & Hq1)]|[Hc (q1 & d & q2 & Hp & Hq1 & Hq2)]];
    rewrite Hc, Hp.
  - exists q1, []. split_and!; [done|done|by left].
  - exists q1, (TextStart (js "ollama-text") :: TextDelta (js "ollama-text") d :: q2
                ++ [TextEnd (js "ollama-text")]).
    split_and!; [|done|].
    + simpl. by rewrite <- !app_assoc.
    + right. by exists d, q2.
Qed.

(** *** Prompt mode and plain mode on the same body *)

Lemma text_deltas_snoc (ps : list StreamPart) (p : StreamPart) :
  text_deltas (ps ++ [p])
  = text_deltas ps ++ match p with TextDelta _ delta => delta | _ => [] end.
Proof.
  unfold text_deltas. rewrite omap_app, concat_app.
  destruct p; simpl; by rewrite ?app_nil_r.
Qed.

Lemma same_text_enqueue (p : StreamPart) sp sn :
  match p with TextDelta _ _ => False | _ => True end ->
  same_text sp sn -> same_text sp (enqueue p sn).
Proof.
  intros Hp [Ht Hd]. split; [|done]. simpl. rewrite text_deltas_snoc, <- Ht.
  destruct p; by rewrite ?app_nil_r.
Qed.

Lemma same_text_delta (delta : list N) sp sn :
  same_text sp sn ->
  let st' := match currentTextId sn with
             | Some _ => sn
             | None => enqueue (TextStart (js "ollama-text"))
                         (set_currentTextId (Some (js "ollama-text")) sn)
             end in
  same_text (set_fullText (fullText sp ++ delta) sp)
    (enqueue (TextDelta (nullish (currentTextId st') []) delta) st').
Proof.
  intros [Ht Hd]. cbv zeta. split.
  - simpl. rewrite text_deltas_snoc, Ht. f_equal.
    destruct (currentTextId sn); [done|]. simpl.
    by rewrite text_deltas_snoc, app_nil_r.
  - by destruct (currentTextId sn).
Qed.

Lemma line_step_same raw raw' (line : list N) sp sn :
  same_text sp sn ->
  same_text (line_step JSON_parse raw true line sp)
    (line_step JSON_parse raw' false line sn).
Proof.
  intros H. unfold line_step.
  destruct (truthy (trim line)); [|done]. cbn [negb].
  set (sp1 := if raw then enqueue (Raw (trim line)) sp else sp).
  set (sn1 := if raw' then enqueue (Raw (trim line)) sn else sn).
  assert (H1 : same_text sp1 sn1).
  { assert (Hp : same_text sp1 sn).
    { unfold sp1. destruct raw; [|done]. destruct H as [Ht Hd]. by split. }
    unfold sn1. destruct raw'; [|done]. by apply same_text_enqueue. }
  clearbody sp1 sn1. clear H.
  destruct (JSON_parse (trim line)) as [chunk|].
  - set (delta := coalesce _ _).
    destruct (truthy_value delta).
    + pose proof (same_text_delta (string_or delta []) sp1 sn1 H1) as [Ht2 Hd2].
      cbv zeta in Ht2, Hd2.
      destruct (opt_get (Some chunk) "done") as [[|[]| | | | |]|]; by split.
    + destruct H1 as [Ht1 Hd1].
      destruct (opt_get (Some chunk) "done") as [[|[]| | | | |]|]; by split.
  - apply (same_text_enqueue ErrorPart); [done|]. destruct H1 as [Ht1 Hd1]. by split.
Qed.

Lemma lines_loop_same raw raw' (lines : list (list N)) : ∀ sp sn,
  same_text sp sn ->
  same_text (lines_loop JSON_parse raw true lines sp)
    (lines_loop JSON_parse raw' false lines sn).
Proof.
  induction lines as [|line lines IH]; intros sp sn H; simpl; [done|].
  pose proof (line_step_same raw raw' line sp sn H) as H1.
  rewrite <- (proj2 H1).
  by destruct (isDone (line_step JSON_parse raw true line sp)); [|apply IH].
Qed.

(** The text that prompt mode gathers and parses is the text that
    plain mode streams for the same body. *)
Theorem prompt_text_is_streamed_text (chunks : list (list N))
    (includeRawChunks includeRawChunks' : bool) :
  fullText (read_loop JSON_parse includeRawChunks true chunks [] stream_started)
  = text_deltas
      (parts (read_loop JSON_parse includeRawChunks' false chunks [] stream_started)).
Proof.
  rewrite !read_loop_lines by (done || apply not_elem_of_nil).
  by apply lines_loop_same.
Qed.

End StreamSpec.

(** C4 in the words of the specification does not hold: the adapter
    reads lines, and a chunk that no line feed ends is never read. On the
    chunk of scenario 2 as the specification writes it, the text of the
    response is the JSON text of the tool call, yet nothing of it is
    gathered: the stream is stream-start, a text trio with an empty delta
    and finish with reason stop, not the tool call with finish
    tool-calls. The same chunk with a line feed at its end gives the tool
    call. *)
Lemma unterminated_line_not_read :
  response_text (parse hover_chunk) = hover_text
  ∧ stream_text parse hover_chunk = []
  ∧ doStream parse stringify true 200 (Some [hover_chunk]) false true 0
    = Ok ([StreamStart; TextStart (js "ollama-text"); TextDelta (js "ollama-text") [];
           TextEnd (js "ollama-text"); Finish stop], 0)
  ∧ doStream parse stringify true 200 (Some [hover_chunk]) false true 0
    ≠ Ok ([StreamStart;
           ToolCallPart 0 (Some (JStr (js "ide.hover")))
             (jq "{'uri':'a.ts','line':1,'character':0}");
           Finish tool_calls], 1)
  ∧ doStream parse stringify true 200 (Some [hover_chunk ++ [10%N]]) false true 0
    = Ok ([StreamStart;
           ToolCallPart 0 (Some (JStr (js "ide.hover")))
             (jq "{'uri':'a.ts','line':1,'character':0}");
           Finish tool_calls], 1).
Proof.
  split_and!.
  - vm_compute. reflexivity.
  - vm_compute. reflexivity.
  - vm_compute. reflexivity.
  - vm_compute. discriminate.
  - vm_compute. reflexivity.
Qed.

Lemma doStream_done_witness :
  Forall (fun l => 10%N ∉ l) [first_line] ∧ (10%N ∉ last_line)
  ∧ done_line parse last_line
  ∧ doStream parse stringify true 200
      (Some [unlines ([first_line] ++ [last_line]) ++ js "{'message':"]) false false 0
    = doStream parse stringify true 200
        (Some [unlines ([first_line] ++ [last_line])]) false false 0.
Proof.
  assert (H1 : Forall (fun l => 10%N ∉ l) [first_line]).
  { apply Forall_singleton. apply (bool_decide_unpack _). vm_compute. exact I. }
  assert (H2 : 10%N ∉ last_line).
  { apply (bool_decide_unpack _). vm_compute. exact I. }
  assert (H3 : done_line parse last_line).
  { split; [done|]. eexists. split; vm_compute; reflexivity. }
  split_and!; [exact H1|exact H2|exact H3|].
  exact (doStream_done parse stringify true 200 [first_line] last_line
           (js "{'message':") false false 0 H1 H2 H3).
Defined.

End OllamaStreamSpec.

(** ** The discovery of models *)

Module OllamaLoaderSpec.
Import Json OllamaLoader.

Example extractModelNames_tags :
  extractModelNames
    (parse (jq "{'models':[{'name':'llama3:8b','model':'llama3:8b'},{'name':'','model':'ghost'},{'model':'qwen2.5'},'phi3',{'name':'llama3:8b'},7,'']}"))
  = [js "llama3:8b"; js "qwen2.5"; js "phi3"].
Proof. vm_compute. reflexivity. Qed.

Lemma startsWith_nonempty (s p : list N) :
  p ≠ [] -> startsWith s p = true -> s ≠ [].
Proof. destruct p; [done|]. by destruct s. Qed.

(** The base URL always names its scheme, [http://] or [https://], and
    a base URL that comes out is left as it is when it goes in again. *)
Theorem baseURL_scheme (raw : value) :
  (startsWith (baseURL raw) (js "http://") = true
   ∨ startsWith (baseURL raw) (js "https://") = true)
  ∧ baseURL (Some (JStr (baseURL raw))) = baseURL raw.
Proof.
  assert (H : startsWith (baseURL raw) (js "http://") = true
              ∨ startsWith (baseURL raw) (js "https://") = true).
  { unfold baseURL. destruct raw as [[| | | |s| |]|]; try (by left).
    destruct (length s =? 0)%nat; [by left|].
    destruct (startsWith s (js "http://")) eqn:E1; [by left|].
    destruct (startsWith s (js "https://")) eqn:E2; [by right|].
    left. apply startsWith_app. }
  split; [done|].
  set (u := baseURL raw) in *. clearbody u. unfold baseURL.
  assert (Hu : u ≠ []).
  { destruct H as [H|H]; by apply startsWith_nonempty in H. }
  destruct u as [|c u]; [done|]. cbn [length Nat.eqb].
  destruct H as [-> | ->]; [done|]. by rewrite orb_true_r.
Qed.

Lemma unique_spec (out : list (list N)) : ∀ seen,
  NoDup (unique seen out)
  ∧ ∀ x, x ∈ unique seen out <-> x ∈ out ∧ x ∉ seen.
Proof.
  induction out as [|y out IH]; intros seen; simpl.
  - split; [apply NoDup_nil_2|]. intros x. rewrite elem_of_nil. tauto.
  - case_bool_decide as Hy.
    + destruct (IH seen) as [Hnd Hin]. split; [done|]. intros x.
      rewrite Hin, elem_of_cons. split; [tauto|].
      intros [[->|?] ?]; [done|tauto].
    + destruct (IH (y :: seen)) as [Hnd Hin]. split.
      * apply NoDup_cons. split; [|done]. rewrite Hin, elem_of_cons. tauto.
      * intros x. rewrite !elem_of_cons, Hin, not_elem_of_cons.
        destruct (decide (x = y)) as [->|Hne]; tauto.
Qed.

(** The names discovered are distinct and not empty, and they are the
    names that the items of the list give: an item that is a string, or
    the first of [name], [model] and [id] that is a string. *)
Theorem extractModelNames_names (payload : value) :
  NoDup (extractModelNames payload)
  ∧ ∀ x, x ∈ extractModelNames payload
         <-> x ≠ [] ∧ ∃ item, item ∈ model_list payload ∧ item_name item = Some x.
Proof.
  unfold extractModelNames.
  destruct (unique_spec (omap item_name (model_list payload)) []) as [Hnd Hin].
  split; [by apply NoDup_filter|]. intros x.
  rewrite list_elem_of_filter, Hin, list_elem_of_omap.
  assert (Ht : truthy x = true <-> x ≠ []) by (by destruct x).
  rewrite Ht. split; [tauto|]. intros [? ?]. split_and!; [done|done|].
  apply not_elem_of_nil.
Qed.

End OllamaLoaderSpec.

(** ** The loaders of [opencode] and [owiseman] *)

Module LoadersSpec.
Import Loaders.

Example owiseman_urls :
  baseURLInference (baseURLNormalized (js "https://host/api/v1/")) = js "https://host/api/v1"
  ∧ baseURLV1 (baseURLNormalized (js "https://host/api/v1/")) = js "https://host/v1"
  ∧ baseURLInference (baseURLNormalized (js "https://host")) = js "https://host/v1".
Proof. vm_compute. done. Qed.

(** *** [opencode] *)

Section OpencodeSpec.

Variable M : Type.
Variable free : M -> bool.

Lemma opencode_loop_lookup (models : gmap (list N) M) (k : list N) :
  foldl (opencode_step M free) models (map_to_list models) !! k
  = models !! k ≫= (fun m => if free m then Some m else None).
Proof.
  apply (RegistrySpec.fold_own_key _ (fun _ m => if free m then Some m else None)).
  - intros acc k0 v k' Hne. unfold opencode_step. simpl.
    destruct (free v); [done|]. by rewrite lookup_delete_ne.
  - intros acc k0 v Hk. unfold opencode_step. simpl.
    destruct (free v); [done|]. by rewrite lookup_delete_eq.
Qed.

(** Without a key, the loader leaves exactly the models that are free
    of charge, loads the provider when there is one, and sets the API
    key [public]. *)
Theorem opencode_without_key (models : gmap (list N) M)
    (input_env : list (list N)) (env : list N -> option (list N))
    (auth configKey : bool) :
  hasKey input_env env auth configKey = false ->
  ∃ models' autoload,
    opencode M free models input_env env auth configKey
    = (models', autoload, Some (js "public"))
    ∧ (∀ k m, models' !! k = Some m <-> models !! k = Some m ∧ free m = true)
    ∧ (autoload = true <-> ∃ k m, models !! k = Some m ∧ free m = true).
Proof.
  intros Hkey. unfold opencode. rewrite Hkey. cbn [negb].
  set (models' := foldl _ _ _).
  assert (Hl : ∀ k m, models' !! k = Some m <-> models !! k = Some m ∧ free m = true).
  { intros k m. unfold models'. rewrite opencode_loop_lookup.
    destruct (models !! k) as [m0|]; simpl; [|by split; [|intros [? _]]].
    destruct (free m0) eqn:Hf.
    - split; [by intros [= <-]|by intros [[= <-] _]].
    - split; [done|]. intros [[= <-] ?]. congruence. }
  eexists _, _. split_and!; [reflexivity|exact Hl|].
  rewrite negb_true_iff, bool_decide_eq_false. split.
  - intros Hne. apply map_choose in Hne as (k & m & Hk). exists k, m. by apply Hl.
  - intros (k & m & Hk) He. apply Hl in Hk. by rewrite He, lookup_empty in Hk.
Qed.

End OpencodeSpec.

Lemma opencode_without_key_witness :
  hasKey [js "OPENCODE_API_KEY"] no_env false false = false
  ∧ ∃ models' autoload,
      opencode Z (Z.eqb 0) demo_prices [js "OPENCODE_API_KEY"] no_env false false
      = (models', autoload, Some (js "public"))
      ∧ models' !! js "big-pickle" = Some 0%Z.
Proof.
  split; [reflexivity|].
  destruct (opencode_without_key Z (Z.eqb 0) demo_prices [js "OPENCODE_API_KEY"]
              no_env false false eq_refl) as (models' & autoload & Heq & Hl & _).
  exists models', autoload. split; [exact Heq|].
  apply Hl. split; [|reflexivity]. vm_compute. reflexivity.
Defined.

(** *** The URLs of [owiseman] *)

Lemma startsWith_true (s p : list N) :
  startsWith s p = true -> s = p ++ drop (length p) s.
Proof.
  revert s. induction p as [|c p IH]; intros s; simpl; [done|].
  destruct s as [|d s]; [done|]. intros H.
  apply andb_true_iff in H as [Hc H]. apply N.eqb_eq in Hc as ->.
  simpl. f_equal. by apply IH.
Qed.

Lemma endsWith_true (s p : list N) :
  endsWith s p = true -> s = slice_off (length p) s ++ p.
Proof.
  unfold endsWith, slice_off. intros H. apply startsWith_true in H.
  apply (f_equal (@rev _)) in H.
  rewrite rev_involutive, rev_app_distr, rev_involutive, length_rev in H.
  set (a := rev (drop (length p) (rev s))) in H. clearbody a. subst s.
  rewrite length_app, Nat.add_sub. by rewrite take_app_length.
Qed.

Lemma endsWith_app (a p : list N) : endsWith (a ++ p) p = true.
Proof. unfold endsWith. rewrite rev_app_distr. apply startsWith_app. Qed.

(** The URL of the inference endpoint is the base URL, without a slash at
    its end, when that ends with [/v1] (as it does when it ends with
    [/api/v1]), and else the base URL followed by [/v1]. *)
Theorem owiseman_inference_url (baseURL : list N) :
  let b := baseURLNormalized baseURL in
  baseURLInference b = (if endsWith b (js "/v1") then b else b ++ js "/v1").
Proof.
  cbv zeta. set (b := baseURLNormalized baseURL). clearbody b.
  unfold baseURLInference, baseURLV1, baseRoot.
  destruct (endsWith b (js "/api/v1")) eqn:H1.
  - apply endsWith_true in H1. change (length (js "/api/v1")) with 7%nat in H1.
    assert (H2 : endsWith b (js "/v1") = true).
    { rewrite H1. change (js "/api/v1") with (js "/api" ++ js "/v1").
      rewrite app_assoc. apply endsWith_app. }
    by rewrite H2, <- H1.
  - destruct (endsWith b (js "/v1")) eqn:H2; [|done].
    apply endsWith_true in H2. change (length (js "/v1")) with 3%nat in H2.
    by rewrite <- H2.
Qed.

End LoadersSpec.

(** ** [parseModel], [closest] and [getSmallModel] *)

Module QueriesSpec.
Import Registry Queries.

Example parseModel_nested :
  parseModel (js "openrouter/openai/gpt-5") = (js "openrouter", js "openai/gpt-5")
  ∧ parseModel (js "gpt-5") = (js "gpt-5", [])
  ∧ parseModel (js "/gpt-5") = ([], js "gpt-5").
Proof. vm_compute. done. Qed.

(** *** [parseModel] *)

Lemma join_split sep (s : list N) : Json.join_with [sep] (split sep s) = s.
Proof.
  induction s as [|c s IH]; [done|]. simpl.
  pose proof (split_nonempty sep s) as Hne.
  destruct (split sep s) as [|h t] eqn:Hs; [done|].
  destruct (N.eqb_spec c sep) as [->|_].
  - rewrite join_cons2, IH. done.
  - rewrite <- IH. done.
Qed.

(** [parseModel] takes apart what a slash puts together: the provider is
    the text before the first slash, and the model all that follows it. *)
Theorem parseModel_inverse :
  (∀ providerID modelID, 47%N ∉ providerID ->
     parseModel (providerID ++ [47%N] ++ modelID) = (providerID, modelID))
  ∧ (∀ model,
       (47%N ∉ (parseModel model).1)
       ∧ (47%N ∉ model -> parseModel model = (model, []))
       ∧ (47%N ∈ model ->
          model = (parseModel model).1 ++ [47%N] ++ (parseModel model).2)).
Proof.
  split.
  - intros p m Hp. unfold parseModel. simpl. rewrite split_app_sep by done.
    by rewrite join_split.
  - intros model. unfold parseModel.
    pose proof (join_split 47 model) as Hj.
    pose proof (split_no_sep 47 model) as Hn.
    destruct (split 47 model) as [|p rest] eqn:Hs; [by apply split_nonempty in Hs|].
    simpl. split_and!.
    + apply Hn. by left.
    + intros Hm. rewrite split_one in Hs by done. by injection Hs as <- <-.
    + intros Hm. destruct rest as [|q rest].
      * simpl in Hj. rewrite app_nil_r in Hj. subst p.
        destruct (Hn model); [by left|done].
      * rewrite <- Hj at 1. apply join_cons2.
Qed.

(** *** [closest] *)

Lemma find_including_Some item keys k :
  find_including item keys = Some k -> k ∈ keys ∧ includes k item = true.
Proof.
  induction keys as [|k0 keys IH]; simpl; [done|].
  destruct (includes k0 item) eqn:E.
  - intros [= <-]. split; [by left|done].
  - intros H. destruct (IH H). split; [by right|done].
Qed.

Lemma find_including_None item keys :
  find_including item keys = None -> ∀ k, k ∈ keys -> includes k item = false.
Proof.
  induction keys as [|k0 keys IH]; simpl; intros H k Hk.
  - by apply elem_of_nil in Hk.
  - destruct (includes k0 item) eqn:E; [done|].
    apply elem_of_cons in Hk as [->|Hk]; [done|by apply IH].
Qed.

(** The two loops give a key that includes an item of the query, and no
    key includes an item that comes before it in the query; they give
    nothing only when no key includes any item. *)
Lemma first_match_spec keys query :
  match first_match keys query with
  | Some k =>
      k ∈ keys
      ∧ ∃ before item after, query = before ++ item :: after
          ∧ includes k item = true
          ∧ ∀ item' k', item' ∈ before -> k' ∈ keys -> includes k' item' = false
  | None => ∀ item k, item ∈ query -> k ∈ keys -> includes k item = false
  end.
Proof.
  induction query as [|item query IH]; simpl.
  - intros item k H. by apply elem_of_nil in H.
  - destruct (find_including item keys) as [k|] eqn:Hf.
    + apply find_including_Some in Hf as [Hk Hi]. split; [done|].
      exists [], item, query. split_and!; [done|done|].
      intros item' k' H. by apply elem_of_nil in H.
    + pose proof (find_including_None _ _ Hf) as Hnone.
      destruct (first_match keys query) as [k|].
      * destruct IH as (Hk & before & it & after & -> & Hi & Hb). split; [done|].
        exists (item :: before), it, after. split_and!; [done|done|].
        intros item' k' H Hk'. apply elem_of_cons in H as [->|H]; [by apply Hnone|].
        by apply (Hb item').
      * intros it k H Hk. apply elem_of_cons in H as [->|H]; [by apply Hnone|].
        by apply IH.
Qed.

Section LookupsSpec.

Variable provider_keys : gmap (list N) Info -> list (list N).
Variable enumerate : gmap (list N) Model -> list (list N).
Variable score : list N -> list N -> option Z.

(** [Object.keys] gives the keys of the object, in some order. *)
Hypothesis enumerate_keys : ∀ ms k, k ∈ enumerate ms <-> is_Some (ms !! k).

(** [closest] answers a model of the provider asked for whose id
    includes an item of the query, the first item of the query that any
    model id of the provider includes; it answers nothing when the
    provider has no model id that includes an item, and when the
    provider is missing; but for a provider id that is missing and that
    [Object.prototype] defines it throws a [TypeError], unless the
    query is empty. *)
Theorem closest_first_item (providers : gmap (list N) Info)
    (providerID : list N) (query : list (list N)) :
  match closest enumerate providers providerID query with
  | Pair p modelID =>
      p = providerID
      ∧ is_Some (models_of providers providerID !! modelID)
      ∧ ∃ before item after, query = before ++ item :: after
          ∧ includes modelID item = true
          ∧ ∀ item' k, item' ∈ before ->
              is_Some (models_of providers providerID !! k) -> includes k item' = false
  | Undefined =>
      (∀ item k, item ∈ query ->
         is_Some (models_of providers providerID !! k) -> includes k item = false)
      ∧ (providers !! providerID = None -> JsObject.inherited providerID = true ->
         query = [])
  | ClosestTypeError =>
      providers !! providerID = None ∧ JsObject.inherited providerID = true
      ∧ query ≠ []
  end.
Proof using enumerate_keys.
  unfold closest, models_of. destruct (providers !! providerID) as [provider|].
  - pose proof (first_match_spec (enumerate (models provider)) query) as H.
    destruct (first_match _ _) as [k|].
    + destruct H as (Hk & before & item & after & -> & Hi & Hb).
      split; [done|]. split; [by apply enumerate_keys|].
      exists before, item, after. split_and!; [done|done|].
      intros item' k' Hin Hk'. apply (Hb item'); [done|by apply enumerate_keys].
    + split; [|done]. intros item k Hin Hk.
      apply (H item); [done|by apply enumerate_keys].
  - assert (Hnone : ∀ item k : list N, item ∈ query ->
              is_Some ((∅ : gmap (list N) Model) !! k) -> includes k item = false).
    { intros item k _ [m Hm]. by rewrite lookup_empty in Hm. }
    destruct (JsObject.inherited providerID); [|done].
    destruct query as [|item query]; done.
Qed.

Lemma getModel_found (providers : gmap (list N) Info) providerID modelID p m :
  providers !! providerID = Some p -> models p !! modelID = Some m ->
  getModel score provider_keys enumerate providers providerID modelID
  = (providers, Returned m).
Proof. intros Hp Hm. unfold getModel. by rewrite Hp, Hm. Qed.

Lemma opencode_nano_spec (providers : gmap (list N) Info) :
  match opencode_nano provider_keys enumerate score providers with
  | Some (Returned m) => models_of providers (js "opencode") !! js "gpt-5-nano" = Some m
  | Some _ => False
  | None => True
  end.
Proof.
  unfold opencode_nano, models_of.
  destruct (providers !! js "opencode") as [op|] eqn:Ho; [|done].
  destruct (models op !! js "gpt-5-nano") as [m|] eqn:Hm; [|done].
  by rewrite (getModel_found _ _ _ _ _ Ho Hm).
Qed.

(** Without [small_model] in the configuration, [getSmallModel] never
    throws [ModelNotFoundError]: it answers a model of the provider
    whose id includes one of the priority names, or else the model
    [gpt-5-nano] of the provider [opencode], or nothing. It throws, a
    [TypeError], only for a provider id that is not in the registry and
    that [Object.prototype] defines, and then always. *)
Theorem getSmallModel_default (providers : gmap (list N) Info)
    (providerID : list N) :
  match getSmallModel provider_keys enumerate score None providers providerID with
  | Some (Returned m) =>
      ((∃ k item, models_of providers providerID !! k = Some m
                  ∧ item ∈ small_priority providerID ∧ includes k item = true)
       ∨ models_of providers (js "opencode") !! js "gpt-5-nano" = Some m)
      ∧ (providers !! providerID = None -> JsObject.inherited providerID = false)
  | Some TypeError =>
      providers !! providerID = None ∧ JsObject.inherited providerID = true
  | Some (ModelNotFoundError _ _ _) => False
  | Some (ReturnedInherited _) => False
  | None => providers !! providerID = None -> JsObject.inherited providerID = false
  end.
Proof using enumerate_keys.
  unfold getSmallModel. cbn [nullish truthy].
  pose proof (opencode_nano_spec providers) as Hnano.
  destruct (providers !! providerID) as [provider|] eqn:Hp.
  - pose proof (first_match_spec (enumerate (models provider))
                  (small_priority providerID)) as H.
    destruct (first_match _ _) as [k|].
    + destruct H as (Hk & before & item & after & Hq & Hi & _).
      apply enumerate_keys in Hk as [m Hm].
      rewrite (getModel_found _ _ _ _ _ Hp Hm). simpl. split; [|done]. left.
      exists k, item. unfold models_of. rewrite Hp. split_and!; [done| |done].
      rewrite Hq. apply elem_of_app. right. by left.
    + destruct (opencode_nano _ _ _ _) as [[m| | |]|]; try done.
      split; [by right|done].
  - destruct (JsObject.inherited providerID) eqn:Hin.
    + assert (Hne : small_priority providerID ≠ []).
      { unfold small_priority.
        destruct (startsWith providerID (js "github-copilot")); [done|].
        by destruct (startsWith providerID (js "opencode")). }
      destruct (small_priority providerID); [done|]. done.
    + destruct (opencode_nano _ _ _ _) as [[m| | |]|]; try done.
      split; [by right|done].
Qed.

End LookupsSpec.

Example closest_inherited :
  closest own_keys small_registry (js "constructor") [js "haiku"] = ClosestTypeError
  ∧ closest own_keys small_registry (js "constructor") [] = Undefined
  ∧ closest own_keys small_registry (js "openai") [js "haiku"] = Undefined
  ∧ getSmallModel own_keys own_keys demo_score None small_registry (js "toString")
    = Some TypeError.
Proof. vm_compute. done. Qed.

Lemma closest_first_item_witness :
  closest own_keys small_registry (js "anthropic") [js "opus"; js "haiku"]
  = Pair (js "anthropic") (js "claude-3-5-haiku-latest")
  ∧ is_Some (models_of small_registry (js "anthropic") !! js "claude-3-5-haiku-latest").
Proof.
  assert (E : closest own_keys small_registry (js "anthropic") [js "opus"; js "haiku"]
              = Pair (js "anthropic") (js "claude-3-5-haiku-latest"))
    by (vm_compute; reflexivity).
  split; [exact E|].
  pose proof (closest_first_item own_keys
                (fun ms k => RegistrySpec.own_keys_spec ms k)
                small_registry (js "anthropic") [js "opus"; js "haiku"]) as H.
  rewrite E in H. exact (proj1 (proj2 H)).
Defined.

Lemma getSmallModel_default_witness :
  getSmallModel own_keys own_keys demo_score None small_registry (js "anthropic")
  = Some (Returned (demo_model "anthropic" "claude-3-5-haiku-latest" active))
  ∧ ((∃ k item,
        models_of small_registry (js "anthropic") !! k
        = Some (demo_model "anthropic" "claude-3-5-haiku-latest" active)
        ∧ item ∈ small_priority (js "anthropic") ∧ includes k item = true)
     ∨ models_of small_registry (js "opencode") !! js "gpt-5-nano"
       = Some (demo_model "anthropic" "claude-3-5-haiku-latest" active)).
Proof.
  assert (E : getSmallModel own_keys own_keys demo_score None small_registry
                (js "anthropic")
              = Some (Returned (demo_model "anthropic" "claude-3-5-haiku-latest" active)))
    by (vm_compute; reflexivity).
  split; [exact E|].
  pose proof (getSmallModel_default own_keys own_keys demo_score
                (fun ms k => RegistrySpec.own_keys_spec ms k)
                small_registry (js "anthropic")) as H.
  rewrite E in H. exact (proj1 H).
Defined.

End QueriesSpec.

(** ** More on the filter pass and on Bedrock *)

Module RegistryMoreSpec.
Import Registry Queries RegistrySpec.

Lemma kept_not_listed cfg flag pid mid m :
  kept cfg flag pid mid m -> listed_out (config_provider cfg !! pid) mid = false.
Proof.
  intros (_ & _ & Hb & Hw). unfold listed_out.
  destruct (config_provider cfg !! pid) as [c|] eqn:Hc; [|done].
  apply orb_false_iff. split.
  - destruct (blacklist c) as [b|] eqn:E; [|done].
    unfold array_includes. apply bool_decide_eq_false. by apply (Hb c b).
  - destruct (whitelist c) as [wl|] eqn:E; [|done].
    unfold array_includes. apply negb_false_iff, bool_decide_eq_true.
    by apply (Hw c wl).
Qed.

Lemma model_fate_Some flag pid cp mid m0 m :
  model_fate flag pid cp mid m0 = Some m ->
  m = set_api_id (Some (nullish (api_id (api m0)) (nullish (model_id m0) mid))) m0.
Proof. unfold model_fate. case_match; [done|]. by intros [= <-]. Qed.

(** The filter pass removes nothing else: a model of an allowed provider
    that is not deprecated, is alpha only with the flag, is not listed
    out by the configuration and is not one of the two ids that are
    always removed, is in the registry after the pass, with its [api.id]
    set. *)
Theorem filter_pass_complete (cfg : Config) (flag : bool)
    (providers : gmap (list N) Info) (providerID modelID : list N)
    (p0 : Info) (m0 : Model) :
  providers !! providerID = Some p0 ->
  models p0 !! modelID = Some m0 ->
  isProviderAllowed cfg providerID = true ->
  always_removed providerID modelID = false ->
  kept cfg flag providerID modelID m0 ->
  ∃ p m, filter_pass cfg flag providers !! providerID = Some p
         ∧ models p !! modelID = Some m
         ∧ status m = status m0 ∧ model_id m = model_id m0
         ∧ api_id (api m)
           = Some (nullish (api_id (api m0)) (nullish (model_id m0) modelID)).
Proof.
  intros Hp Hm Hallowed Hnever Hkept.
  rewrite filter_pass_lookup, Hp. simpl. unfold provider_fate. rewrite Hallowed. simpl.
  match goal with
  | |- context [filter_models _ _ _ ?ms] => set (models1 := ms)
  end.
  assert (H1 : ∃ m1, models1 !! modelID = Some m1 ∧ status m1 = status m0
                     ∧ model_id m1 = model_id m0 ∧ api_id (api m1) = api_id (api m0)).
  { unfold models1. destruct (_ || _).
    - exists (set_api_npm (js "@ai-sdk/github-copilot") m0).
      by rewrite lookup_fmap, Hm.
    - by exists m0. }
  destruct H1 as (m1 & Hm1 & Hst & Hid & Hapi).
  assert (Hfate : model_fate flag providerID (config_provider cfg !! providerID)
                    modelID m1
                  = Some (set_api_id
                            (Some (nullish (api_id (api m1)) (nullish (model_id m1) modelID)))
                            m1)).
  { unfold model_fate. unfold always_removed in Hnever. rewrite Hnever.
    rewrite (kept_not_listed _ _ _ _ _ Hkept), Hst.
    destruct Hkept as (Hdep & Halpha & _).
    rewrite (bool_decide_eq_false_2 (status m0 = deprecated)) by done.
    destruct (decide (status m0 = alpha)) as [Ha|Ha].
    - rewrite (Halpha Ha). by rewrite andb_false_r.
    - by rewrite (bool_decide_eq_false_2 (status m0 = alpha)). }
  assert (Hl : filter_models flag providerID (config_provider cfg !! providerID) models1
               !! modelID
               = Some (set_api_id
                         (Some (nullish (api_id (api m1)) (nullish (model_id m1) modelID)))
                         m1)).
  { by rewrite filter_models_lookup, Hm1. }
  rewrite bool_decide_eq_false_2.
  2: { intros He. by rewrite He, lookup_empty in Hl. }
  eexists _, _. split; [reflexivity|]. simpl. split; [exact Hl|].
  simpl. by rewrite Hapi, Hid.
Qed.

(** The filter pass adds nothing: a provider and a model that are in the
    registry after the pass were there before it, the model with the same
    status and id, and after the pass its [api.id] is set. *)
Theorem filter_pass_conservative (cfg : Config) (flag : bool)
    (providers : gmap (list N) Info) (providerID modelID : list N)
    (p : Info) (m : Model) :
  filter_pass cfg flag providers !! providerID = Some p ->
  models p !! modelID = Some m ->
  ∃ p0 m0, providers !! providerID = Some p0 ∧ models p0 !! modelID = Some m0
           ∧ info_id p = info_id p0 ∧ info_name p = info_name p0 ∧ source p = source p0
           ∧ status m = status m0 ∧ model_id m = model_id m0
           ∧ api_id (api m)
             = Some (nullish (api_id (api m0)) (nullish (model_id m0) modelID)).
Proof.
  rewrite filter_pass_lookup. destruct (providers !! providerID) as [p0|]; [|done].
  simpl. unfold provider_fate.
  destruct (isProviderAllowed cfg providerID); [|done]. simpl.
  match goal with
  | |- context [filter_models _ _ _ ?ms] => set (models1 := ms)
  end.
  case_bool_decide; [done|]. intros [= <-]. simpl.
  rewrite filter_models_lookup.
  destruct (models1 !! modelID) as [m1|] eqn:Hm1; [|done]. simpl.
  intros Hfate. apply model_fate_Some in Hfate as ->.
  assert (H1 : ∃ m0, models p0 !! modelID = Some m0 ∧ status m1 = status m0
                     ∧ model_id m1 = model_id m0 ∧ api_id (api m1) = api_id (api m0)).
  { unfold models1 in Hm1. destruct (_ || _).
    - rewrite lookup_fmap in Hm1. destruct (models p0 !! modelID) as [m0|]; [|done].
      injection Hm1 as <-. by exists m0.
    - by exists m1. }
  destruct H1 as (m0 & Hm0 & Hst & Hid & Hapi).
  exists p0, m0. simpl. rewrite Hapi, Hid. by split_and!.
Qed.

Lemma demo_acme_listed : demo_registry !! js "acme" = Some demo_acme.
Proof. vm_compute. reflexivity. Defined.

Lemma demo_fast_listed :
  models demo_acme !! js "fast" = Some (demo_model "acme" "fast" active).
Proof. vm_compute. reflexivity. Defined.

Lemma demo_fast_kept :
  kept demo_config false (js "acme") (js "fast") (demo_model "acme" "fast" active).
Proof.
  split_and!; [done|done| |].
  - intros c b Hc Hb. vm_compute in Hc. injection Hc as <-. injection Hb as <-.
    apply (bool_decide_unpack _). vm_compute. exact I.
  - intros c wl Hc Hwl. vm_compute in Hc. injection Hc as <-. done.
Defined.

Lemma filter_pass_complete_witness :
  demo_registry !! js "acme" = Some demo_acme
  ∧ models demo_acme !! js "fast" = Some (demo_model "acme" "fast" active)
  ∧ isProviderAllowed demo_config (js "acme") = true
  ∧ always_removed (js "acme") (js "fast") = false
  ∧ kept demo_config false (js "acme") (js "fast") (demo_model "acme" "fast" active)
  ∧ ∃ p m, filter_pass demo_config false demo_registry !! js "acme" = Some p
           ∧ models p !! js "fast" = Some m
           ∧ status m = active.
Proof.
  split_and!; [exact demo_acme_listed|exact demo_fast_listed|reflexivity|reflexivity
              |exact demo_fast_kept|].
  destruct (filter_pass_complete demo_config false demo_registry (js "acme") (js "fast")
              demo_acme (demo_model "acme" "fast" active) demo_acme_listed
              demo_fast_listed eq_refl eq_refl demo_fast_kept)
    as (p & m & H1 & H2 & H3 & _).
  exists p, m. split; [exact H1|]. split; [exact H2|exact H3].
Defined.

Lemma filter_pass_conservative_witness :
  ∃ p m, filter_pass demo_config false demo_registry !! js "acme" = Some p
         ∧ models p !! js "fast" = Some m
         ∧ ∃ p0 m0, demo_registry !! js "acme" = Some p0
                    ∧ models p0 !! js "fast" = Some m0 ∧ status m = status m0.
Proof.
  assert (H1 : filter_pass demo_config false demo_registry !! js "acme"
               = Some (mkInfo (js "acme") (js "Acme") env
                         {[ js "fast" :=
                              mkModel (Some (js "fast")) (js "acme")
                                (mkApi (Some (js "fast")) (js "@ai-sdk/openai-compatible"))
                                active ]}))
    by (vm_compute; reflexivity).
  eexists _, _. split; [exact H1|].
  assert (H2 : models (mkInfo (js "acme") (js "Acme") env
                         {[ js "fast" :=
                              mkModel (Some (js "fast")) (js "acme")
                                (mkApi (Some (js "fast")) (js "@ai-sdk/openai-compatible"))
                                active ]}) !! js "fast"
               = Some (mkModel (Some (js "fast")) (js "acme")
                         (mkApi (Some (js "fast")) (js "@ai-sdk/openai-compatible")) active))
    by (vm_compute; reflexivity).
  split; [exact H2|].
  destruct (filter_pass_conservative _ _ _ _ _ _ _ H1 H2)
    as (p0 & m0 & Hp0 & Hm0 & _ & _ & _ & Hst & _).
  exists p0, m0. by split_and!.
Defined.

End RegistryMoreSpec.

Module BedrockMoreSpec.
Import Bedrock.

(** The model id handed to the SDK is the model id asked for, as it is or
    behind one of the prefixes [us.], [eu.], [au.], [jp.] and [apac.],
    and the prefix goes with the first part of the region: [us.] with
    [us], [eu.] with [eu], and [au.], [jp.] and [apac.] with [ap]. A
    region that starts otherwise leaves every model id as it is. *)
Theorem getModel_prefixes (optRegion : option (list N)) (def modelID : list N) :
  let region := nullish optRegion def in
  getModel optRegion def modelID = modelID
  ∨ (regionPrefixOf region = js "us"
     ∧ getModel optRegion def modelID = js "us." ++ modelID)
  ∨ (regionPrefixOf region = js "eu"
     ∧ getModel optRegion def modelID = js "eu." ++ modelID)
  ∨ (regionPrefixOf region = js "ap"
     ∧ (getModel optRegion def modelID = js "au." ++ modelID
        ∨ getModel optRegion def modelID = js "jp." ++ modelID
        ∨ getModel optRegion def modelID = js "apac." ++ modelID)).
Proof.
  cbv zeta. remember (getModel optRegion def modelID) as g eqn:Hg.
  unfold getModel in Hg.
  destruct (startsWith modelID (js "global.") || startsWith modelID (js "jp."));
    [by left|].
  set (region := nullish optRegion def) in *.
  unfold str_eqb in Hg at 1. case_bool_decide as Hus.
  { rewrite Hus in Hg. destruct (_ && _); [|by left]. right; left. by subst g. }
  unfold str_eqb in Hg at 1. case_bool_decide as Heu.
  { rewrite Heu in Hg. destruct (_ && _); [|by left]. right; right; left. by subst g. }
  unfold str_eqb in Hg at 1. case_bool_decide as Hap; [|by left].
  destruct (_ && _).
  { right; right; right. split; [done|]. by left. }
  destruct (str_eqb region (js "ap-northeast-1")); destruct (some_included _ _);
    try (by left).
  - right; right; right. split; [done|]. right. by left.
  - right; right; right. split; [done|]. right. by right.
Qed.

End BedrockMoreSpec.

(** ** More on the PTY multiplexer *)

Module PtyMoreSpec.
Import Pty PtyMore PtySpec.

Example two_directories_calls :
  procLog (run two_directories init) = [ (0, PWrite (js "cd -- '/home/a'" ++ [13%N])) ].
Proof. vm_compute. reflexivity. Qed.

(** *** Calls by id *)

Lemma lookup_session_listed w i l :
  wf w -> sessions w !! i = Some l ->
  ∃ s, lookup_session i w = Some (l, s) ∧ id (info s) = i ∧ status (info s) = running.
Proof.
  intros [_ Ht] Hi. destruct (Ht i l Hi) as (s & Hl & Hid & Hst).
  exists s. split; [|done]. by apply lookup_session_Some.
Qed.

Lemma lookup_session_unlisted w i :
  sessions w !! i = None -> lookup_session i w = None.
Proof. intros Hi. unfold lookup_session. by rewrite Hi. Qed.

(** In every state that the multiplexer can reach, [write] and [resize]
    reach the child of a session exactly when its id is in the session
    table; once the child has exited, or the session was removed, a write
    to the id is dropped. *)
Theorem calls_reach_listed (ops : list Op) (i d : list N) (cols rows : Z) :
  let w := run ops init in
  match sessions w !! i with
  | Some l =>
      write i d w = proc l (PWrite d) w
      ∧ resize i cols rows w = proc l (PResize cols rows) w
      ∧ (∀ exitCode, write i d (onExit l exitCode w) = onExit l exitCode w)
      ∧ write i d (remove i w) = remove i w
  | None => write i d w = w ∧ resize i cols rows w = w
  end.
Proof.
  cbv zeta. pose proof (reachable_wf ops) as Hw. set (w := run ops init) in *.
  destruct (sessions w !! i) as [l|] eqn:Hi.
  - destruct (lookup_session_listed w i l Hw Hi) as (s & Hl & Hid & Hst).
    pose proof (proj1 (lookup_session_Some _ _ _ _) Hl) as [_ Hh].
    split_and!.
    + unfold write. by rewrite Hl, Hst.
    + unfold resize. by rewrite Hl, Hst.
    + intros exitCode. unfold write. rewrite lookup_session_unlisted; [done|].
      unfold onExit. rewrite Hh. simpl. rewrite Hid. apply lookup_delete_eq.
    + unfold write. rewrite lookup_session_unlisted; [done|].
      unfold remove. rewrite Hl. simpl. apply lookup_delete_eq.
  - unfold write, resize. by rewrite lookup_session_unlisted.
Qed.

(** [remove] on a session of the table kills the child, closes every
    subscriber, takes the id out of the table and publishes the event;
    the session objects are left as they are, and removing again does
    nothing. *)
Theorem remove_listed (ops : list Op) (i : list N) (l : nat) :
  sessions (run ops init) !! i = Some l ->
  ∃ s, heap (run ops init) !! l = Some s
       ∧ sessions (remove i (run ops init)) = delete i (sessions (run ops init))
       ∧ procLog (remove i (run ops init)) = procLog (run ops init) ++ [(l, PKill)]
       ∧ closedSinks (remove i (run ops init))
         = closedSinks (run ops init) ++ subscribers s
       ∧ NoDup (subscribers s)
       ∧ bus (remove i (run ops init)) = bus (run ops init) ++ [Deleted i]
       ∧ heap (remove i (run ops init)) = heap (run ops init)
       ∧ sent (remove i (run ops init)) = sent (run ops init)
       ∧ remove i (remove i (run ops init)) = remove i (run ops init).
Proof.
  intros Hi. pose proof (reachable_wf ops) as Hw. set (w := run ops init) in *.
  destruct (lookup_session_listed w i l Hw Hi) as (s & Hl & Hid & Hst).
  pose proof (proj1 (lookup_session_Some _ _ _ _) Hl) as [_ Hh].
  exists s. unfold remove at 1 2 3 4 5 6. rewrite Hl. simpl. split_and!; try done.
  - destruct Hw as [Hs _]. by apply (Forall_lookup_1 _ _ _ _ Hs Hh).
  - unfold remove at 1. rewrite lookup_session_unlisted; [done|].
    unfold remove. rewrite Hl. simpl. apply lookup_delete_eq.
Qed.

(** *** The working directory *)

Lemma alter_pinned c l0 f (h : list ActiveSession) l s :
  (∀ x, pinned_at c x -> pinned_at c (f x)) ->
  h !! l = Some s -> pinned_at c s ->
  ∃ s', alter f l0 h !! l = Some s' ∧ pinned_at c s'.
Proof.
  intros Hf Hl Hp. destruct (decide (l0 = l)) as [->|Hne].
  - rewrite list_lookup_alter_eq, Hl. exists (f s). split; [done|]. by apply Hf.
  - rewrite list_lookup_alter_ne by done. by exists s.
Qed.

Ltac pinned s :=
  simpl; apply (alter_pinned _ _ _ _ _ s); [by intros ? [? ?]|done|done].

Lemma exec_pinned c (o : Op) w l s :
  heap w !! l = Some s -> pinned_at c s ->
  ∃ s', heap (exec o w) !! l = Some s' ∧ pinned_at c s'.
Proof.
  intros Hl Hp. destruct o; simpl.
  - exists s. split; [|done]. by apply lookup_app_l_Some.
  - unfold onData. destruct (heap w !! l0) as [s0|] eqn:Hl0; [|by exists s].
    destruct (fanout _ _ _ _ _ _) as [[[subs got] open] thrown].
    assert (H1 : ∃ s', heap (upd_session l0 (set_subscribers subs)
                               (sent_all l0 got data (hear_all (listeners s0) data w)))
                       !! l = Some s' ∧ pinned_at c s').
    { pinned s. }
    destruct thrown; [done|]. destruct open; [done|]. simpl.
    destruct H1 as (s1 & Hs1 & Hp1). pinned s1.
  - unfold onExit. destruct (heap w !! l0) as [s0|] eqn:Hl0; [|by exists s].
    simpl. pinned s.
  - unfold update. destruct (lookup_session i w) as [[l0 s0]|]; [|by exists s].
    set (w1 := match new_title with Some _ => _ | None => _ end).
    assert (H1 : ∃ s', heap w1 !! l = Some s' ∧ pinned_at c s').
    { subst w1. destruct new_title as [t|]; [|by exists s].
      destruct (truthy t); [|by exists s]. pinned s. }
    set (w2 := match size with Some _ => _ | None => _ end).
    assert (H2 : heap w2 = heap w1).
    { subst w2. by destruct size as [[rows cols]|]. }
    destruct (heap w2 !! l0); simpl; by rewrite H2.
  - unfold remove. destruct (lookup_session i w) as [[l0 s0]|]; by exists s.
  - unfold resize. destruct (lookup_session i w) as [[l0 s0]|]; [|by exists s].
    destruct (status (info s0)); by exists s.
  - unfold write. destruct (lookup_session i w) as [[l0 s0]|]; [|by exists s].
    destruct (status (info s0)); by exists s.
  - unfold listen. destruct (lookup_session i w) as [[l0 s0]|]; [|by exists s].
    destruct (status (info s0)); [|by exists s]. simpl. pinned s.
  - unfold unlisten. pinned s.
  - unfold connect. destruct (lookup_session i w) as [[l0 s0]|] eqn:Hl0; [|by exists s].
    apply lookup_session_Some in Hl0 as [_ Hl0].
    set (w1 := upd_session l0 _ w).
    assert (H1 : ∃ s', heap w1 !! l = Some s' ∧ pinned_at c s') by (pinned s).
    destruct H1 as (s1 & Hs1 & Hp1).
    assert (H2 : ∃ s', heap (pin_cwd l0 s0 (option_map trim directory) w1) !! l = Some s'
                       ∧ pinned_at c s').
    { destruct (decide (l0 = l)) as [->|Hne].
      - unfold pin_cwd. destruct (option_map trim directory) as [d|]; [|by exists s1].
        assert (Hs0 : s0 = s) by congruence. subst s0. destruct Hp as [Hpin Hc].
        rewrite Hpin, andb_false_r. by exists s1.
      - destruct (pin_cwd_effect l0 s0 (option_map trim directory) w1)
          as (_ & _ & _ & Hother & _).
        rewrite Hother by done. by exists s1. }
    destruct (truthy (buffer s0)); [|done].
    set (buf := if (zlen (buffer s0) <=? BUFFER_LIMIT)%Z then _ else _).
    set (w3 := upd_session l0 (set_buffer []) _).
    assert (H3 : ∃ s', heap w3 !! l = Some s' ∧ pinned_at c s').
    { destruct H2 as (s2 & Hs2 & Hp2). pinned s2. }
    pose proof (send_chunks_frame l0 ws send_ok (flush_chunks buf) 0 w3) as (_ & Hh & _).
    destruct (send_chunks l0 ws send_ok 0 (flush_chunks buf) w3) as [w4 thrown].
    simpl in Hh. destruct H3 as (s3 & Hs3 & Hp3).
    assert (Hs4 : heap w4 !! l = Some s3) by (by rewrite Hh).
    destruct thrown; [|by exists s3]. pinned s3.
  - by exists s.
  - unfold onClose. pinned s.
Qed.

Lemma run_pinned c (ops : list Op) : ∀ w l s,
  heap w !! l = Some s -> pinned_at c s ->
  ∃ s', heap (run ops w) !! l = Some s' ∧ pinned_at c s'.
Proof.
  induction ops as [|o ops IH]; intros w l s Hl Hp; [by exists s|].
  destruct (exec_pinned c o w l s Hl Hp) as (s1 & Hl1 & Hp1).
  simpl. by apply (IH _ l s1).
Qed.

(** The working directory of a session is decided once: after a
    [connect] that names a directory, the session is pinned, to the
    directory it had if it was pinned already and else to the directory
    named, and whatever is called later, it stays pinned to that
    directory. *)
Theorem cwd_pinned_once (w : World) (i : list N) (l : nat) (s : ActiveSession)
    (ws : nat) (directory : list N) (send_ok : nat -> bool) (ops : list Op) :
  lookup_session i w = Some (l, s) ->
  truthy (trim directory) = true ->
  ∃ s', heap (run ops (connect i ws (Some directory) send_ok w).1) !! l = Some s'
        ∧ pinned_at (if cwdPinned s then cwd (info s) else trim directory) s'.
Proof.
  intros Hl Hd.
  assert (H1 : ∃ s1, heap (connect i ws (Some directory) send_ok w).1 !! l = Some s1
                     ∧ pinned_at (if cwdPinned s then cwd (info s) else trim directory) s1).
  { unfold connect. rewrite Hl. apply lookup_session_Some in Hl as [_ Hl].
    set (w1 := upd_session l _ w).
    assert (H2 : ∃ s2, heap (pin_cwd l s (option_map trim (Some directory)) w1) !! l
                       = Some s2
                       ∧ pinned_at (if cwdPinned s then cwd (info s) else trim directory)
                           s2).
    { unfold pin_cwd, w1. simpl. rewrite Hd. simpl.
      destruct (cwdPinned s) eqn:Hpin; simpl.
      - rewrite list_lookup_alter_eq, Hl. simpl. eexists. split; [done|]. by split.
      - unfold str_eqb. case_bool_decide as Hc; simpl.
        + rewrite !list_lookup_alter_eq, Hl. simpl. eexists. split; [done|].
          by split.
        + rewrite !list_lookup_alter_eq, Hl. simpl. eexists. split; [done|].
          by split. }
    destruct (truthy (buffer s)); [|done].
    set (buf := if (zlen (buffer s) <=? BUFFER_LIMIT)%Z then _ else _).
    set (w3 := upd_session l (set_buffer []) _).
    assert (H3 : ∃ s3, heap w3 !! l = Some s3
                       ∧ pinned_at (if cwdPinned s then cwd (info s) else trim directory)
                           s3).
    { destruct H2 as (s2 & Hs2 & Hp2). pinned s2. }
    pose proof (send_chunks_frame l ws send_ok (flush_chunks buf) 0 w3) as (_ & Hh & _).
    destruct (send_chunks l ws send_ok 0 (flush_chunks buf) w3) as [w4 thrown].
    simpl in Hh. destruct H3 as (s3 & Hs3 & Hp3).
    assert (Hs4 : heap w4 !! l = Some s3) by (by rewrite Hh).
    destruct thrown; [|by exists s3]. pinned s3. }
  destruct H1 as (s1 & Hs1 & Hp1). by apply (run_pinned _ ops _ l s1).
Qed.

(** *** Quoting *)

Lemma replaceAll_inj (c : N) (r : list N) (a b : list N) :
  replaceAll c (c :: r) a = replaceAll c (c :: r) b -> a = b.
Proof.
  revert b. induction a as [|x a IH]; intros [|y b]; unfold replaceAll; simpl.
  - done.
  - by destruct (N.eqb y c).
  - by destruct (N.eqb x c).
  - destruct (N.eqb_spec x c) as [->|Hx], (N.eqb_spec y c) as [->|Hy]; simpl.
    + intros [= H]. apply app_inv_head in H. f_equal. by apply IH.
    + intros [= H _]. congruence.
    + intros [= H _]. congruence.
    + intros [= -> H]. f_equal. by apply IH.
Qed.

(** Two directories never give the same command: for each kind of
    shell, directories that differ give commands that differ. *)
Theorem buildCwdCommand_injective (shell : ShellKind) (a b : list N) :
  a ≠ b -> buildCwdCommand shell a ≠ buildCwdCommand shell b.
Proof.
  intros Hne Heq. apply Hne. destruct shell; unfold buildCwdCommand in Heq.
  - apply app_inv_head in Heq. unfold posixQuote in Heq.
    apply app_inv_tail in Heq. apply app_inv_head in Heq.
    apply app_inv_tail in Heq. by apply replaceAll_inj in Heq.
  - apply app_inv_head, app_inv_head in Heq.
    by apply app_inv_tail, replaceAll_inj in Heq.
  - apply app_inv_head in Heq. unfold powershellQuote in Heq.
    apply app_inv_tail in Heq. apply app_inv_head in Heq.
    apply app_inv_tail in Heq. by apply replaceAll_inj in Heq.
Qed.

Lemma remove_listed_witness :
  sessions (run backlog_ABC init) !! js "pty_0001" = Some 0%nat
  ∧ ∃ s, heap (run backlog_ABC init) !! 0%nat = Some s
         ∧ procLog (remove (js "pty_0001") (run backlog_ABC init))
           = procLog (run backlog_ABC init) ++ [(0%nat, PKill)]
         ∧ remove (js "pty_0001") (remove (js "pty_0001") (run backlog_ABC init))
           = remove (js "pty_0001") (run backlog_ABC init).
Proof.
  split; [exact backlog_ABC_table|].
  destruct (remove_listed backlog_ABC (js "pty_0001") 0 backlog_ABC_table)
    as (s & Hs & _ & Hkill & _ & _ & _ & _ & _ & Hagain).
  exists s. split; [exact Hs|]. split; [exact Hkill|exact Hagain].
Defined.

Lemma created_session : lookup_session (js "pty_0001") created = Some (0%nat, fresh_session).
Proof. vm_compute. reflexivity. Defined.

Lemma cwd_pinned_once_witness :
  lookup_session (js "pty_0001") created = Some (0%nat, fresh_session)
  ∧ truthy (trim (js " /home/a ")) = true
  ∧ ∃ s', heap (run [OpConnect (js "pty_0001") 2 (Some (js "/home/b")) always]
                  (connect (js "pty_0001") 1 (Some (js " /home/a ")) always created).1)
          !! 0%nat = Some s'
          ∧ cwd (info s') = js "/home/a".
Proof.
  split; [exact created_session|]. split; [reflexivity|].
  destruct (cwd_pinned_once created (js "pty_0001") 0 fresh_session 1 (js " /home/a ")
              always [OpConnect (js "pty_0001") 2 (Some (js "/home/b")) always]
              created_session eq_refl) as (s' & Hs' & _ & Hcwd).
  exists s'. split; [exact Hs'|]. rewrite Hcwd. vm_compute. reflexivity.
Defined.

Lemma buildCwdCommand_injective_witness :
  js "/home/a" ≠ js "/home/a b"
  ∧ buildCwdCommand posix (js "/home/a") ≠ buildCwdCommand posix (js "/home/a b").
Proof.
  assert (H : js "/home/a" ≠ js "/home/a b") by done.
  split; [exact H|]. exact (buildCwdCommand_injective posix _ _ H).
Defined.

End PtyMoreSpec.

(** ** The events of the PTY multiplexer *)

Module PtyEventsSpec.
Import Pty PtyMore PtySpec.

Lemma created_ids_app (b b' : list BusEvent) :
  created_ids (b ++ b') = created_ids b ++ created_ids b'.
Proof. apply omap_app. Qed.

Lemma ordered_snoc (b : list BusEvent) (e : BusEvent) :
  ordered b -> (is_created e = false -> event_id e ∈ created_ids b) ->
  ordered (b ++ [e]).
Proof.
  intros Hb He pre e' post Heq Hc.
  destruct post as [|x post _] using rev_ind.
  - apply app_inj_tail in Heq as [-> ->]. by apply He.
  - rewrite app_comm_cons, app_assoc in Heq. apply app_inj_tail in Heq as [-> _].
    by apply (Hb pre e' post).
Qed.

Lemma ids_lookup w l s : heap w !! l = Some s -> id (info s) ∈ ids w.
Proof.
  intros Hl. unfold ids. apply list_elem_of_fmap. exists s. split; [done|].
  by eapply list_elem_of_lookup_2.
Qed.

Lemma ids_alter l g (h : list ActiveSession) :
  (∀ x, id (info (g x)) = id (info x)) ->
  map (fun s => id (info s)) (alter g l h) = map (fun s => id (info s)) h.
Proof.
  intros Hg. apply list_eq. intros j.
  rewrite !list_lookup_fmap. destruct (decide (l = j)) as [->|Hne].
  - rewrite list_lookup_alter_eq. destruct (h !! j); simpl; [|done].
    by rewrite Hg.
  - by rewrite list_lookup_alter_ne.
Qed.

Lemma ids_upd l g w :
  (∀ x, id (info (g x)) = id (info x)) -> ids (upd_session l g w) = ids w.
Proof. apply ids_alter. Qed.

Lemma announced_same w w' :
  bus w' = bus w -> ids w' = ids w -> announced w -> announced w'.
Proof. intros Hb Hi [H1 H2]. unfold announced. by rewrite Hb, Hi. Qed.

(** Publishing an event about a session object keeps the bus ordered. *)
Lemma announced_publish w e :
  announced w -> event_id e ∈ ids w -> announced (publish e w).
Proof.
  intros [H1 H2] He. split; simpl.
  - apply ordered_snoc; [done|]. intros _. by apply H2.
  - intros i Hi. rewrite created_ids_app, elem_of_app. left. by apply H2.
Qed.

Lemma announced_create input new_id new_pid preferred directory w :
  announced w -> announced (create input new_id new_pid preferred directory w).1.
Proof.
  intros [H1 H2]. unfold create. split; simpl.
  - by apply ordered_snoc.
  - intros i. unfold ids. simpl. rewrite fmap_app, created_ids_app, !elem_of_app.
    intros [Hi|Hi]; [left; by apply H2|right]. done.
Qed.

Ltac same_ids :=
  unfold ids; simpl; rewrite ?ids_alter by (by intros []); reflexivity.

Lemma exec_announced (o : Op) w : wf w -> announced w -> announced (exec o w).
Proof.
  intros Hw Ha. destruct o; simpl.
  - by apply announced_create.
  - unfold onData. destruct (heap w !! l) as [s|] eqn:Hl; [|done].
    destruct (fanout _ _ _ _ _ _) as [[[subs got] open] thrown].
    destruct thrown; [|destruct open]; simpl;
      (apply (announced_same w); [done|same_ids|done]).
  - unfold onExit. destruct (heap w !! l) as [s|] eqn:Hl; [|done].
    apply (announced_same
             (publish (Exited (id (info s)) exitCode)
                (upd_session l (map_info (set_status exited)) w))); [done|done|].
    apply announced_publish.
    + apply (announced_same w); [done|same_ids|done].
    + simpl. rewrite ids_upd by (by intros []). by apply (ids_lookup w l).
  - unfold update. destruct (lookup_session i w) as [[l s]|] eqn:Hl; [|done].
    set (w1 := match new_title with Some _ => _ | None => _ end).
    assert (H1 : announced w1 ∧ ids w1 = ids w).
    { subst w1. destruct new_title as [t|]; [|done]. destruct (truthy t); [|done].
      split; [apply (announced_same w); [done|same_ids|done]|same_ids]. }
    set (w2 := match size with Some _ => _ | None => _ end).
    assert (H2 : announced w2 ∧ heap w2 = heap w1).
    { subst w2. destruct size as [[rows cols]|]; [|by destruct H1].
      split; [|done]. by apply (announced_same w1); [done|done|destruct H1]. }
    destruct (heap w2 !! l) as [s'|] eqn:Hl2; simpl; [|by destruct H2].
    apply announced_publish; [by destruct H2|]. by apply (ids_lookup w2 l).
  - unfold remove. destruct (lookup_session i w) as [[l s]|] eqn:Hl; [|done].
    apply lookup_session_Some in Hl as [Hi Hl].
    destruct Hw as [_ Ht]. destruct (Ht i l Hi) as (s' & Hl' & Hid & _).
    apply (announced_same (publish (Deleted i) w)); [done|done|].
    apply announced_publish; [done|]. simpl. rewrite <- Hid. by apply (ids_lookup w l).
  - unfold resize. destruct (lookup_session i w) as [[l s]|]; [|done].
    by destruct (status (info s)).
  - unfold write. destruct (lookup_session i w) as [[l s]|]; [|done].
    by destruct (status (info s)).
  - unfold listen. destruct (lookup_session i w) as [[l s]|]; [|done].
    destruct (status (info s)); [|done]. simpl.
    apply (announced_same w); [done|same_ids|done].
  - unfold unlisten. apply (announced_same w); [done|same_ids|done].
  - unfold connect. destruct (lookup_session i w) as [[l s]|] eqn:Hl; [|done].
    apply lookup_session_Some in Hl as [_ Hl].
    set (w1 := upd_session l _ w).
    assert (H1 : announced w1 ∧ ids w1 = ids w).
    { unfold w1. split; [apply (announced_same w); [done|same_ids|done]|same_ids]. }
    set (w2 := pin_cwd l s (option_map trim directory) w1).
    assert (H2 : announced w2 ∧ ids w2 = ids w).
    { subst w2. unfold pin_cwd. destruct (option_map trim directory) as [d|]; [|done].
      destruct (truthy d && negb (cwdPinned s)); [|done].
      destruct (negb (str_eqb d (cwd (info s)))).
      - split.
        + apply (announced_same
                   (publish (Updated (set_cwd d (info s)))
                      (upd_session l (map_info (set_cwd d))
                         (upd_session l (set_cwdPinned true) w1)))); [done|done|].
          apply announced_publish.
          * apply (announced_same w1); [done|same_ids|by destruct H1].
          * simpl. rewrite !ids_upd by (by intros []). rewrite (proj2 H1).
            by apply (ids_lookup w l).
        + change (ids (upd_session l (map_info (set_cwd d))
                         (upd_session l (set_cwdPinned true) w1)) = ids w).
          rewrite !ids_upd by (by intros []). by destruct H1.
      - split; [apply (announced_same w1); [done|same_ids|by destruct H1]|].
        rewrite ids_upd by (by intros []). by destruct H1. }
    destruct (truthy (buffer s)); [|by destruct H2].
    set (buf := if (zlen (buffer s) <=? BUFFER_LIMIT)%Z then _ else _).
    set (w3 := upd_session l (set_buffer []) w2).
    pose proof (send_chunks_frame l ws send_ok (flush_chunks buf) 0 w3)
      as (_ & Hh & _ & Hb & _).
    destruct (send_chunks l ws send_ok 0 (flush_chunks buf) w3) as [w4 thrown].
    simpl in Hh, Hb.
    assert (H4 : announced w4 ∧ ids w4 = ids w).
    { assert (Hi : ids w4 = ids w2).
      { unfold ids at 1. rewrite Hh.
        change (ids (upd_session l (set_buffer []) w2) = ids w2). same_ids. }
      split; [|by rewrite Hi; destruct H2].
      apply (announced_same w2); [done|done|by destruct H2]. }
    destruct thrown; simpl; [|by destruct H4].
    apply (announced_same w4); [done|same_ids|by destruct H4].
  - done.
  - unfold onClose. apply (announced_same w); [done|same_ids|done].
Qed.

Lemma run_announced (ops : list Op) : ∀ w, wf w -> announced w -> announced (run ops w).
Proof.
  induction ops as [|o ops IH]; intros w Hw Ha; [done|].
  simpl. apply IH; [by apply exec_wf|by apply exec_announced].
Qed.

Lemma init_announced : announced init.
Proof.
  split.
  - intros pre e post H. by destruct pre.
  - intros i Hi. by apply elem_of_nil in Hi.
Qed.

(** No event about a session comes before its [Created] event: in every
    run of the multiplexer, an [Updated], [Exited] or [Deleted] event on
    the bus comes after a [Created] event with the same session id. *)
Theorem events_after_created (ops : list Op) (pre post : list BusEvent)
    (e : BusEvent) :
  bus (run ops init) = pre ++ e :: post ->
  is_created e = false ->
  ∃ i, Created i ∈ pre ∧ id i = event_id e.
Proof.
  intros Hb He.
  destruct (run_announced ops init init_wf init_announced) as [Ho _].
  pose proof (Ho pre e post Hb He) as Hin.
  apply list_elem_of_omap in Hin as (x & Hx & Hid).
  destruct x as [i| | |]; try done. exists i. split; [done|]. by injection Hid.
Qed.

Lemma events_after_created_witness :
  bus (run exit_attached init)
  = [ Created (mkInfo (js "pty_0001") (js "Terminal 0001") (js "/bin/zsh") [js "-l"]
                 (js "/w") running 42) ]
    ++ Exited (js "pty_0001") 0 :: []
  ∧ is_created (Exited (js "pty_0001") 0) = false
  ∧ ∃ i, Created i
           ∈ [ Created (mkInfo (js "pty_0001") (js "Terminal 0001") (js "/bin/zsh")
                          [js "-l"] (js "/w") running 42) ]
         ∧ id i = event_id (Exited (js "pty_0001") 0).
Proof.
  assert (H : bus (run exit_attached init)
              = [ Created (mkInfo (js "pty_0001") (js "Terminal 0001") (js "/bin/zsh")
                             [js "-l"] (js "/w") running 42) ]
                ++ Exited (js "pty_0001") 0 :: []).
  { vm_compute. reflexivity. }
  split; [exact H|]. split; [reflexivity|].
  exact (events_after_created exit_attached _ _ _ H eq_refl).
Defined.

End PtyEventsSpec.

(** ** The Ollama loader: the models of the provider *)

Module OllamaDiscoverySpec.
Import Json OllamaLoader Registry OllamaDiscovery.

Example demo_discovery_models :
  demo_discovery !! js "llama3:8b"
  = Some (new_model unit (js "ollama") (js "http://127.0.0.1:11434") false tt
            (js "llama3:8b"))
  ∧ demo_discovery !! js "constructor" = None
  ∧ demo_discovery !! js "llama3.1:8b-instruct" = None.
Proof. vm_compute. by split_and!. Qed.

Section DiscoverySpec.

Variable JSON_parse : list N -> option json.
Variable Rest : Type.
Variable values : gmap (list N) (OModel Rest) -> list (OModel Rest).
Variable template_rest : option (OModel Rest) -> Rest.

(** What the loop over the names does: it keeps the models that are
    there, and adds a model for every name that has none and that
    [Object.prototype] does not define. *)
Lemma discover_loop_spec (make : list N -> OModel Rest) (names : list (list N)) :
  ∀ ms : gmap (list N) (OModel Rest),
    (∀ k m, ms !! k = Some m -> foldl (discover_step Rest make) ms names !! k = Some m)
    ∧ (∀ k, k ∈ names -> McpCli.inherited k = false ->
         is_Some (foldl (discover_step Rest make) ms names !! k))
    ∧ (∀ k m', foldl (discover_step Rest make) ms names !! k = Some m' ->
         ms !! k = Some m'
         ∨ (ms !! k = None ∧ k ∈ names ∧ McpCli.inherited k = false ∧ m' = make k)).
Proof.
  induction names as [|n names IH]; intros ms; simpl.
  - split_and!; [done| |by left]. intros k Hk. by apply elem_of_nil in Hk.
  - destruct (IH (discover_step Rest make ms n)) as (H1 & H2 & H3).
    assert (Hkeep : ∀ k m, ms !! k = Some m -> discover_step Rest make ms n !! k = Some m).
    { intros k m Hk. unfold discover_step.
      destruct (bool_decide (is_Some (ms !! n)) || McpCli.inherited n) eqn:Hc; [done|].
      apply orb_false_iff in Hc as [Hc _]. apply bool_decide_eq_false_1 in Hc.
      rewrite lookup_insert_ne; [done|]. intros ->. apply Hc. by exists m. }
    split_and!.
    + intros k m Hk. by apply H1, Hkeep.
    + intros k Hk Hin. apply elem_of_cons in Hk as [->|Hk]; [|by apply H2].
      assert (Hn : is_Some (discover_step Rest make ms n !! n)).
      { unfold discover_step. rewrite Hin, orb_false_r.
        case_bool_decide as Hc; [done|]. rewrite lookup_insert_eq. by eexists. }
      destruct Hn as [m Hm]. exists m. by apply H1.
    + intros k m' Hk. apply H3 in Hk as [Hk|(Hk & Hin & Hproto & ->)].
      * unfold discover_step in Hk.
        destruct (bool_decide (is_Some (ms !! n)) || McpCli.inherited n) eqn:Hc;
          [by left|].
        apply orb_false_iff in Hc as [Hc Hproto].
        apply bool_decide_eq_false_1 in Hc.
        destruct (decide (n = k)) as [->|Hne].
        -- rewrite lookup_insert_eq in Hk. injection Hk as <-. right.
           split_and!; [|by left|done|done].
           destruct (ms !! k) eqn:Hm; [|done]. destruct Hc. by eexists.
        -- rewrite lookup_insert_ne in Hk by done. by left.
      * right. split_and!; [|by right|done|done].
        destruct (ms !! k) as [m|] eqn:Hm; [|done].
        by rewrite (Hkeep k m Hm) in Hk.
Qed.

Lemma made_for_new_model input_id baseURL (ptc : bool) (t : bool) rest k :
  (ptc = true -> t = true) ->
  made_for Rest input_id baseURL ptc k (new_model Rest input_id baseURL t rest k).
Proof. intros H. by split_and!. Qed.

(** The loader never takes a model of the provider away nor puts
    another in its place. It adds a model for every name discovered
    that has none and that [Object.prototype] does not define, and it
    adds the fallback model when, and only when, the provider had no
    model and discovery added none (and the fallback is not called
    [__proto__]). Every model added is free of charge, active, of the
    family [ollama], and named by its id. The provider is left with a
    model at least, but for a fallback called [__proto__]. *)
Theorem discovery_adds (input_id baseURL : list N)
    (models : gmap (list N) (OModel Rest)) (ptc : bool)
    (response : option (bool * list N)) (fallbackModel : value) :
  let result :=
    ollama_models JSON_parse Rest values template_rest input_id baseURL models ptc
      response fallbackModel in
  let nothing_found :=
    models = ∅
    ∧ ∀ n, n ∈ discovered JSON_parse response -> McpCli.inherited n = true in
  (∀ k m, models !! k = Some m ->
     result !! k = Some (if ptc then set_toolcall Rest true m else m))
  ∧ (∀ k, k ∈ discovered JSON_parse response -> McpCli.inherited k = false ->
       is_Some (result !! k))
  ∧ (∀ k m', result !! k = Some m' ->
       (∃ m, models !! k = Some m
             ∧ m' = (if ptc then set_toolcall Rest true m else m))
       ∨ (models !! k = None
          ∧ made_for Rest input_id baseURL ptc k m'
          ∧ ((k ∈ discovered JSON_parse response ∧ McpCli.inherited k = false)
             ∨ (k = fallbackModelId fallbackModel ∧ k ≠ js "__proto__"
                ∧ nothing_found))))
  ∧ (nothing_found ->
     ∀ k, is_Some (result !! k)
          <-> k = fallbackModelId fallbackModel ∧ k ≠ js "__proto__")
  ∧ (fallbackModelId fallbackModel ≠ js "__proto__" -> result ≠ ∅).
Proof.
  cbv zeta. unfold ollama_models.
  set (models1 := if ptc then set_toolcall Rest true <$> models else models).
  set (t := if ptc then true else match head (values models1) with
                                  | Some t => o_toolcall Rest t
                                  | None => false
                                  end).
  set (make := new_model Rest input_id baseURL t (template_rest (head (values models1)))).
  assert (Ht : ptc = true -> t = true) by (subst t; by intros ->).
  assert (Hm1 : ∀ k, models1 !! k
                     = (fun m => if ptc then set_toolcall Rest true m else m)
                         <$> models !! k).
  { intros k. subst models1. destruct ptc; [by rewrite lookup_fmap|].
    by destruct (models !! k). }
  destruct (discover_loop_spec make (discovered JSON_parse response) models1)
    as (H1 & H2 & H3).
  set (models2 := foldl (discover_step Rest make) models1
                    (discovered JSON_parse response)) in *.
  assert (Hold : ∀ k m', models2 !! k = Some m' ->
            (∃ m, models !! k = Some m
                  ∧ m' = (if ptc then set_toolcall Rest true m else m))
            ∨ (models !! k = None ∧ k ∈ discovered JSON_parse response
               ∧ McpCli.inherited k = false
               ∧ made_for Rest input_id baseURL ptc k m')).
  { intros k m' Hk. apply H3 in Hk as [Hk|(Hk & Hin & Hproto & ->)].
    - left. rewrite Hm1 in Hk. destruct (models !! k) as [m|]; [|done].
      exists m. split; [done|]. by injection Hk.
    - right. rewrite Hm1 in Hk. destruct (models !! k); [done|].
      split_and!; [done|done|done|]. by apply made_for_new_model. }
  assert (Hnothing : models2 = ∅ <->
            models = ∅
            ∧ ∀ n, n ∈ discovered JSON_parse response -> McpCli.inherited n = true).
  { split.
    - intros He. split.
      + apply map_eq. intros k. rewrite lookup_empty.
        destruct (models !! k) as [m|] eqn:Hk; [|done].
        assert (Hk1 : models1 !! k
                      = Some (if ptc then set_toolcall Rest true m else m))
          by (by rewrite Hm1, Hk).
        apply H1 in Hk1. by rewrite He, lookup_empty in Hk1.
      + intros n Hn. destruct (McpCli.inherited n) eqn:Hin; [done|].
        destruct (H2 n Hn Hin) as [m Hm]. by rewrite He, lookup_empty in Hm.
    - intros [Hempty Hall]. apply map_eq. intros k. rewrite lookup_empty.
      destruct (models2 !! k) as [m'|] eqn:Hk; [|done].
      apply Hold in Hk as [(m & Hm & _)|(_ & Hin & Hproto & _)].
      + by rewrite Hempty, lookup_empty in Hm.
      + by rewrite (Hall k Hin) in Hproto. }
  case_bool_decide as He.
  - pose proof (proj1 Hnothing He) as [Hempty Hall].
    unfold str_eqb. case_bool_decide as Hf.
    + split_and!.
      * intros k m Hk. by rewrite Hempty, lookup_empty in Hk.
      * intros k Hk Hin. by apply H2.
      * intros k m' Hk. by rewrite He, lookup_empty in Hk.
      * intros _ k. rewrite He, lookup_empty. split; [by intros [? ?]|].
        intros [-> Hne]. done.
      * done.
    + split_and!.
      * intros k m Hk. by rewrite Hempty, lookup_empty in Hk.
      * intros k Hk Hin. by rewrite (Hall k Hk) in Hin.
      * intros k m' Hk. right. rewrite He in Hk.
        apply lookup_insert_Some in Hk as [[<- <-]|[_ Hk]];
          [|by rewrite lookup_empty in Hk].
        split_and!; [by rewrite Hempty, lookup_empty| |by right].
        by apply made_for_new_model.
      * intros _ k. rewrite He. split.
        -- intros [m Hm]. apply lookup_insert_Some in Hm as [[<- _]|[_ Hm]];
             [done|by rewrite lookup_empty in Hm].
        -- intros [-> _]. rewrite lookup_insert_eq. by eexists.
      * intros _ Hr. apply (f_equal (fun m => m !! fallbackModelId fallbackModel)) in Hr.
        by rewrite He, lookup_insert_eq, lookup_empty in Hr.
  - split_and!.
    + intros k m Hk. apply H1. by rewrite Hm1, Hk.
    + intros k Hk Hin. by apply H2.
    + intros k m' Hk. apply Hold in Hk as [Hk|(Hk & Hin & Hproto & Hm)]; [by left|].
      right. split_and!; [done|done|by left].
    + intros Hn. by apply Hnothing in Hn.
    + done.
Qed.

End DiscoverySpec.

End OllamaDiscoverySpec.

